(** * MVE: exhaustive nearest-neighbour search and the dmrecon driver

    A shallow embedding of [libs/sfm/nearest_neighbor.cc] (both template
    specialisations of [NearestNeighbor<T>::find], scalar and SSE paths) and of
    the scheduling part of [apps/dmrecon/dmrecon.cc], followed by the
    properties of the two programs.

    Conventions.
    - A C++ [int] is a [Z] reduced by [to_int] where the code can leave the
      32-bit range, a [short] is a [Z] reduced by [to_short].  Signed overflow
      of [int] is undefined in C++; the model takes the two's complement
      result that the x86 targets of the SSE code produce.
    - A C++ [float] is an IEEE binary32 number: [spec_float] with precision 24
      and [emax = 128], arithmetic rounded to nearest even, one rounding per
      operation (SSE arithmetic, no contraction into fused multiply-add).
    - Arrays are lists, pointers are offsets into them.  A read outside the
      array (undefined in C++) yields zero in the model. *)

From Stdlib Require Import String Ascii ZArith List Bool Lia.
From Stdlib Require Import Floats.SpecFloat.
From Stdlib Require Import DecimalString.
Import ListNotations.
Local Open Scope Z_scope.

Set Implicit Arguments.

(* ================================================================== *)
(** * Part I: definitions                                              *)
(* ================================================================== *)

(** ** Machine integers *)

(** Conversion to a signed two's complement integer of [bits] bits. *)
Definition wrap (bits z : Z) : Z :=
  (z + 2 ^ (bits - 1)) mod 2 ^ bits - 2 ^ (bits - 1).

Definition to_short : Z -> Z := wrap 16.
Definition to_int : Z -> Z := wrap 32.

(** [std::numeric_limits<short>::max()] *)
Definition SHRT_MAX : Z := 32767.

(** ** Loops *)

(** [for (int i = lo; i < lo + n; ++i) s = body i s;] *)
Fixpoint for_loop {S : Type} (n : nat) (i : Z) (body : Z -> S -> S) (s : S) : S :=
  match n with
  | O => s
  | Datatypes.S n' => for_loop n' (i + 1) body (body i s)
  end.

(** [for (int i = 0; i < hi; ++i) s = body i s;] *)
Definition for_range {S : Type} (hi : Z) (body : Z -> S -> S) (s : S) : S :=
  for_loop (Z.to_nat hi) 0 body s.

(** [f 0 + f 1 + ... + f (n - 1)], exact. *)
Fixpoint Zsum (n : nat) (f : Z -> Z) : Z :=
  match n with
  | O => 0
  | Datatypes.S n' => Zsum n' f + f (Z.of_nat n')
  end.

(** ** The search object and its result

    [nearest_neighbor.h] declares the class: [int dimensions],
    [int num_elements], [T const* elements], and the nested
    [struct Result { T dist_1st_best; T dist_2nd_best;
                     int index_1st_best; int index_2nd_best; }].
    The distance fields have the element type [T]: in the [short]
    specialisation they are read through an [(int)] cast and the code
    comments that a larger distance "does not fit in a short". *)

Record NearestNeighbor (T : Type) := {
  dimensions : Z;
  num_elements : Z;
  elements : list T
}.

Record Result (T : Type) := {
  dist_1st_best : T;
  dist_2nd_best : T;
  index_1st_best : Z;
  index_2nd_best : Z
}.

(** Which of the two [#if] branches of [find] is compiled in
    ([ENABLE_SSEx_NN_SEARCH && defined(__SSEx__)]). *)
Inductive ExecPath := Scalar | SSE.

(** ** The top-2 scan shared by all four loops

    The four loops of the file have one body: compute [inner_product] for the
    descriptor under [descr_ptr], advancing the pointer, then update the
    running top two.  [P] is the type of the local [inner_product], [T] the
    type of the distance fields, [gt ip d] the test [inner_product > d] and
    [store ip] the conversion of the assignment [result->dist = inner_product]. *)
Section Scan.
Variables T P : Type.
Variable gt : P -> T -> bool.
Variable store : P -> T.
Variable lowest : T.

(** The four assignments that open [find]. *)
Definition init_result : Result T :=
  {| dist_1st_best := lowest; dist_2nd_best := lowest;
     index_1st_best := 0; index_2nd_best := 0 |}.

(** "Check if new largest inner product has been found." *)
Definition update (r : Result T) (i : Z) (inner_product : P) : Result T :=
  if gt inner_product (dist_2nd_best r) then
    if gt inner_product (dist_1st_best r) then
      {| index_2nd_best := index_1st_best r;
         dist_2nd_best := dist_1st_best r;
         index_1st_best := i;
         dist_1st_best := store inner_product |}
    else
      {| index_2nd_best := i;
         dist_2nd_best := store inner_product;
         index_1st_best := index_1st_best r;
         dist_1st_best := dist_1st_best r |}
  else r.

(** [dot p] is the inner product of the query with the descriptor that
    starts at offset [p], together with the advanced [descr_ptr]. *)
Variable dot : Z -> P * Z.

Definition scan_body (i : Z) (st : Z * Result T) : Z * Result T :=
  let '(inner_product, descr_ptr) := dot (fst st) in
  (descr_ptr, update (snd st) i inner_product).

Definition scan (n : Z) : Result T :=
  snd (for_range n scan_body (0, init_result)).

(** The inner products in scan order, with the same pointer threading. *)
Fixpoint dots_from (n : nat) (descr_ptr : Z) : list P :=
  match n with
  | O => []
  | Datatypes.S n' =>
      let '(inner_product, descr_ptr') := dot descr_ptr in
      inner_product :: dots_from n' descr_ptr'
  end.

Definition dots (n : Z) : list P := dots_from (Z.to_nat n) 0.

(** The update rule applied to a list of scores, first index [i]. *)
Fixpoint top2 (r : Result T) (i : Z) (scores : list P) : Result T :=
  match scores with
  | [] => r
  | s :: rest => top2 (update r i s) (i + 1) rest
  end.
End Scan.

(** ** [NearestNeighbor<short>::find] *)

Module Short.

Definition load (mem : list Z) (p : Z) : Z := nth (Z.to_nat p) mem 0.

Definition gt (inner_product d : Z) : bool := d <? inner_product.

(** Scalar path: [inner_product += query[i] * *descr_ptr] for
    [i < dimensions], the products and the sum in [int]. *)
Definition scalar_dot (nn : NearestNeighbor Z) (query : list Z)
    (descr_ptr : Z) : Z * Z :=
  for_range (dimensions nn)
    (fun i '(inner_product, descr_ptr) =>
       (to_int (inner_product + load query i * load (elements nn) descr_ptr),
        descr_ptr + 1))
    (0, descr_ptr).

(** An [__m128i] register holds eight 16-bit lanes; a pointer to
    [__m128i] counts registers. *)
Definition lanes : list Z := [0; 1; 2; 3; 4; 5; 6; 7].

Definition _mm_load_si128 (mem : list Z) (p : Z) : list Z :=
  map (fun l => load mem (8 * p + l)) lanes.

Definition _mm_set1_epi16 (v : Z) : list Z := map (fun _ => to_short v) lanes.

Definition lanewise (f : Z -> Z -> Z) (a b : list Z) : list Z :=
  map (fun l => f (load a l) (load b l)) lanes.

(** Low 16 bits of the lane products. *)
Definition _mm_mullo_epi16 : list Z -> list Z -> list Z :=
  lanewise (fun x y => to_short (x * y)).

(** Lane sums, wrapping at 16 bits. *)
Definition _mm_add_epi16 : list Z -> list Z -> list Z :=
  lanewise (fun x y => to_short (x + y)).

(** SSE2 path: [dim_8] register products accumulated lane by lane, then
    the eight lanes of [tmp] added up in [int]. *)
Definition sse_dot (nn : NearestNeighbor Z) (query : list Z)
    (descr_ptr : Z) : Z * Z :=
  let dim_8 := Z.quot (dimensions nn) 8 in
  let '(reg_result, _, descr_ptr') :=
    for_range dim_8
      (fun _ '(reg_result, query_ptr, descr_ptr) =>
         let reg_query := _mm_load_si128 query query_ptr in
         let reg_subject := _mm_load_si128 (elements nn) descr_ptr in
         (_mm_add_epi16 reg_result (_mm_mullo_epi16 reg_query reg_subject),
          query_ptr + 1, descr_ptr + 1))
      (_mm_set1_epi16 0, 0, descr_ptr) in
  let tmp := reg_result in
  (load tmp 0 + load tmp 1 + load tmp 2 + load tmp 3
   + load tmp 4 + load tmp 5 + load tmp 6 + load tmp 7,
   descr_ptr').

Definition dot (path : ExecPath) :=
  match path with Scalar => scalar_dot | SSE => sse_dot end.

(** The state of [*result] when the loop is left: the distance fields
    hold inner products. *)
Definition scan_result (path : ExecPath) (nn : NearestNeighbor Z)
    (query : list Z) : Result Z :=
  scan gt to_short (to_short (- SHRT_MAX)) (dot path nn query)
    (num_elements nn).

(** The inner products of the stored descriptors with the query, as the
    chosen path computes them. *)
Definition inner_products (path : ExecPath) (nn : NearestNeighbor Z)
    (query : list Z) : list Z :=
  dots (dot path nn query) (num_elements nn).

(** "Compute actual square distances." *)
Definition finalize (r : Result Z) : Result Z :=
  let d1 := to_short (Z.min 16129 (Z.max 0 (dist_1st_best r))) in
  let d2 := to_short (Z.min 16129 (Z.max 0 (dist_2nd_best r))) in
  {| dist_1st_best := to_short (32258 - 2 * d1);
     dist_2nd_best := to_short (32258 - 2 * d2);
     index_1st_best := index_1st_best r;
     index_2nd_best := index_2nd_best r |}.

Definition find (path : ExecPath) (nn : NearestNeighbor Z)
    (query : list Z) : Result Z :=
  finalize (scan_result path nn query).

(** For the comparison of the two paths: the exact sum of the products
    that lane [l] of [reg_result] accumulates for descriptor [i], and the
    test that all these sums are representable in a 16-bit lane. *)
Definition lane_sum (nn : NearestNeighbor Z) (query : list Z) (i l : Z) : Z :=
  Zsum (Z.to_nat (Z.quot (dimensions nn) 8))
    (fun k => load query (8 * k + l)
              * load (elements nn) (i * dimensions nn + 8 * k + l)).

Definition lanes_fit (nn : NearestNeighbor Z) (query : list Z) : bool :=
  forallb
    (fun i => forallb
       (fun l => (-32768 <=? lane_sum nn query i l)
                 && (lane_sum nn query i l <=? 32767))
       lanes)
    (map Z.of_nat (seq 0 (Z.to_nat (num_elements nn)))).

End Short.

(** ** [NearestNeighbor<float>::find] *)

Module Float.

Definition prec : Z := 24.
Definition emax : Z := 128.

Definition fadd : spec_float -> spec_float -> spec_float := SFadd prec emax.
Definition fsub : spec_float -> spec_float -> spec_float := SFsub prec emax.
Definition fmul : spec_float -> spec_float -> spec_float := SFmul prec emax.
(** [flt x y] is the C++ comparison [x < y], false on NaN. *)
Definition flt : spec_float -> spec_float -> bool := SFltb.
Definition fle : spec_float -> spec_float -> bool := SFleb.

Definition zero : spec_float := S754_zero false.
Definition one : spec_float := S754_finite false 8388608 (-23).
Definition two : spec_float := S754_finite false 8388608 (-22).
(** [std::numeric_limits<float>::max()] *)
Definition FLT_MAX : spec_float := S754_finite false 16777215 104.

(** [std::max(a, b)] is [(a < b) ? b : a], [std::min(a, b)] is
    [(b < a) ? b : a]. *)
Definition std_max (a b : spec_float) : spec_float := if flt a b then b else a.
Definition std_min (a b : spec_float) : spec_float := if flt b a then b else a.

Definition load (mem : list spec_float) (p : Z) : spec_float :=
  nth (Z.to_nat p) mem zero.

Definition gt (inner_product d : spec_float) : bool := flt d inner_product.

(** Scalar path: [inner_product += query[j] * *descr_ptr]. *)
Definition scalar_dot (nn : NearestNeighbor spec_float)
    (query : list spec_float) (descr_ptr : Z) : spec_float * Z :=
  for_range (dimensions nn)
    (fun j '(inner_product, descr_ptr) =>
       (fadd inner_product (fmul (load query j) (load (elements nn) descr_ptr)),
        descr_ptr + 1))
    (zero, descr_ptr).

(** An [__m128] register holds four floats. *)
Definition lanes : list Z := [0; 1; 2; 3].

Definition deref (mem : list spec_float) (p : Z) : list spec_float :=
  map (fun l => load mem (4 * p + l)) lanes.

Definition _mm_setzero_ps : list spec_float := map (fun _ => zero) lanes.

Definition lanewise (f : spec_float -> spec_float -> spec_float)
    (a b : list spec_float) : list spec_float :=
  map (fun l => f (load a l) (load b l)) lanes.

Definition _mm_mul_ps := lanewise fmul.
Definition _mm_add_ps := lanewise fadd.

(** Horizontal add: [(a0 + a1, a2 + a3, b0 + b1, b2 + b3)]. *)
Definition _mm_hadd_ps (a b : list spec_float) : list spec_float :=
  [fadd (load a 0) (load a 1); fadd (load a 2) (load a 3);
   fadd (load b 0) (load b 1); fadd (load b 2) (load b 3)].

Definition _mm_cvtss_f32 (a : list spec_float) : spec_float := load a 0.

(** SSE3 path. *)
Definition sse_dot (nn : NearestNeighbor spec_float)
    (query : list spec_float) (descr_ptr : Z) : spec_float * Z :=
  let dim_4 := Z.quot (dimensions nn) 4 in
  let '(sum, _, descr_ptr') :=
    for_range dim_4
      (fun _ '(sum, query_ptr, descr_ptr) =>
         (_mm_add_ps sum
            (_mm_mul_ps (deref query query_ptr) (deref (elements nn) descr_ptr)),
          query_ptr + 1, descr_ptr + 1))
      (_mm_setzero_ps, 0, descr_ptr) in
  let sum := _mm_hadd_ps sum sum in
  let sum := _mm_hadd_ps sum sum in
  (_mm_cvtss_f32 sum, descr_ptr').

Definition dot (path : ExecPath) :=
  match path with Scalar => scalar_dot | SSE => sse_dot end.

Definition scan_result (path : ExecPath) (nn : NearestNeighbor spec_float)
    (query : list spec_float) : Result spec_float :=
  scan gt (fun inner_product => inner_product) (SFopp FLT_MAX)
    (dot path nn query) (num_elements nn).

Definition inner_products (path : ExecPath) (nn : NearestNeighbor spec_float)
    (query : list spec_float) : list spec_float :=
  dots (dot path nn query) (num_elements nn).

(** [std::min(1.0f, std::max(0.0f, 2.0f - 2.0f * d))] *)
Definition distance (d : spec_float) : spec_float :=
  std_min one (std_max zero (fsub two (fmul two d))).

(** "Compute actual (square) distances." *)
Definition finalize (r : Result spec_float) : Result spec_float :=
  {| dist_1st_best := distance (dist_1st_best r);
     dist_2nd_best := distance (dist_2nd_best r);
     index_1st_best := index_1st_best r;
     index_2nd_best := index_2nd_best r |}.

Definition find (path : ExecPath) (nn : NearestNeighbor spec_float)
    (query : list spec_float) : Result spec_float :=
  finalize (scan_result path nn query).

(** Numerals for examples: [of_Z m e] is [m * 2^e] rounded to binary32. *)
Definition of_Z (m e : Z) : spec_float := binary_normalize prec emax m e false.

End Float.

(** ** The dmrecon driver ([apps/dmrecon/dmrecon.cc]) *)

Module Dmrecon.

(** [std::size_t] conversion of an [int]. *)
Definition to_size_t (z : Z) : Z := z mod 2 ^ 64.

(** [mve::MVEFileProxy]: the driver reads [width] and [height]. *)
Record MVEFileProxy := { width : Z; height : Z }.

(** [mve::View]: the driver asks whether the camera is valid and looks
    embeddings up by name. *)
Record View := {
  is_camera_valid : bool;
  proxies : list (string * MVEFileProxy)
}.

(** Modelled from the spec: [View::get_proxy] ([mve/view.h], not part of the
    sources at hand) returns the embedding of the given name, or NULL. *)
Definition get_proxy (view : View) (name : string) : option MVEFileProxy :=
  option_map snd (find (fun p => String.eqb (fst p) name) (proxies view)).

(** Modelled from the spec: [View::has_embedding] is the "embedding
    existence check by string name". *)
Definition has_embedding (view : View) (name : string) : bool :=
  match get_proxy view name with Some _ => true | None => false end.

(** [mve::Scene::ViewList]: a vector of view pointers, NULL allowed. *)
Definition ViewList := list (option View).

Definition views_at (views : ViewList) (id : Z) : option View :=
  nth (Z.to_nat id) views None.

Definition views_size (views : ViewList) : Z := Z.of_nat (length views).

(** Modelled from the spec: [Scene::get_view_by_id] ([mve/scene.h]) returns
    the view handle of the catalog at [id], NULL when [id] is outside the
    catalog. *)
Definition get_view_by_id (scene : ViewList) (id : Z) : option View :=
  if id <? views_size scene then views_at scene id else None.

(** [mvs::Settings], the fields the driver reads or writes. *)
Record Settings := {
  refViewNr : Z;
  imageEmbedding : string;
  scale : Z
}.

Definition set_refViewNr (s : Settings) (id : Z) : Settings :=
  {| refViewNr := id; imageEmbedding := imageEmbedding s; scale := scale s |}.

Definition set_scale (s : Settings) (sc : Z) : Settings :=
  {| refViewNr := refViewNr s; imageEmbedding := imageEmbedding s; scale := sc |}.

Record AppSettings := {
  master_id : Z;
  view_ids : list Z;
  max_pixels : Z;
  force_recon : bool;
  mvs : Settings
}.

(** A counting search: the first [s' >= s] with [test s' = true], giving up
    after [fuel] rounds. *)
Fixpoint least_from (test : Z -> bool) (fuel : nat) (s : Z) : Z :=
  match fuel with
  | O => s
  | Datatypes.S fuel' => if test s then s else least_from test fuel' (s + 1)
  end.

(** The spec's formula [max(0, ceil(log4(num / den)))] at its exact real
    value: the least [s >= 0] with [num <= den * 4^s].  An [int] numerator
    is below [4^16], so 32 rounds are enough for [den >= 1]. *)
Definition spec_ceil_log4 (num den : Z) : Z :=
  least_from (fun s => num <=? den * 4 ^ s) 32 0.

(** The spec's other wording of the derived scale: the smallest [s >= 0]
    with [(width * height) >> (2 s) <= max_pixels]. *)
Definition spec_shift_scale (pixels max_pixels : Z) : Z :=
  least_from (fun s => Z.shiftr pixels (2 * s) <=? max_pixels) 32 0.

(** The conversion of an [int] to [float], [static_cast<float>(i)] and the
    promotion of the [int] operand of a division by a [float]: the binary32
    number nearest to the integer, ties to even. *)
Definition int_to_float (z : Z) : spec_float :=
  binary_normalize Float.prec Float.emax z 0 false.

(** The division of two [float]s. *)
Definition fdiv : spec_float -> spec_float -> spec_float :=
  SFdiv Float.prec Float.emax.

(** The literal [4.0f]. *)
Definition four : spec_float := S754_finite false 8388608 (-21).

(** [std::ceil] of a [float]: the least integer that is not below the
    argument, as a [float]; an integer-valued argument, an infinity and NaN
    are returned as they are, and the sign is kept when the result is
    zero. *)
Definition ceilf (x : spec_float) : spec_float :=
  match x with
  | S754_finite s m e =>
      if 0 <=? e then x
      else
        let n := - ((- cond_Zopp s (Zpos m)) / 2 ^ (- e)) in
        if n =? 0 then S754_zero s
        else binary_normalize Float.prec Float.emax n 0 s
  | _ => x
  end.

(** [static_cast<int>] of a [float]: the value with its fraction dropped.
    C++ leaves the conversion undefined when that integer is no [int], and
    for the infinities and NaN; the model takes what the conversion
    instruction of the x86 targets ([cvttss2si]) gives there, [INT_MIN]. *)
Definition float_to_int (x : spec_float) : Z :=
  match x with
  | S754_zero _ => 0
  | S754_finite s m e =>
      let n :=
        if 0 <=? e then cond_Zopp s (Zpos m) * 2 ^ e
        else Z.quot (cond_Zopp s (Zpos m)) (2 ^ (- e)) in
      if (-2147483648 <=? n) && (n <=? 2147483647) then n else -2147483648
  | _ => -2147483648
  end.

(** Modelled from the spec: [util::string::get] ([util/string.h]) prints
    the scale in decimal. *)
Definition string_get (z : Z) : string := NilZero.string_of_int (Z.to_int z).

(** What the loop body did with a job.  The code itself keeps no such
    record; [SKIPPED] stands for one of the three [continue] statements,
    [DONE] for a [try] block left normally and [FAILED] for one left through
    its [catch]. *)
Inductive Outcome := SKIPPED | DONE | FAILED.

(** What a run of [main] did. *)
Record Run := {
  scene_of : ViewList;
  (** the settings of every call of [reconstruct], latest first *)
  recon_calls : list Settings;
  (** the outcome of every batch job, latest first *)
  outcomes : list (Z * Outcome)
}.

Section Collaborators.

(** [std::log] on a [float], the natural logarithm of the C library
    ([logf]).  Its values are those of the library the program is linked
    with; the model takes it as a function of the argument and assumes
    nothing else about it. *)
Variable logf : spec_float -> spec_float.

Definition get_scale_from_max_pixels (scene : ViewList)
    (app_settings : AppSettings) (mvs_settings : Settings) : Z :=
  match get_view_by_id scene (refViewNr mvs_settings) with
  | None => 0
  | Some view =>
      match get_proxy view (imageEmbedding mvs_settings) with
      | None => 0
      | Some proxy =>
          let width := width proxy in
          let height := height proxy in
          if to_int (width * height) <=? max_pixels app_settings then 0
          else
            let ratio :=
              fdiv (int_to_float (to_int (width * height)))
                (int_to_float (max_pixels app_settings)) in
            let scale := ceilf (fdiv (logf ratio) (logf four)) in
            Z.max 0 (float_to_int scale)
      end
  end.

(** [mvs::DMRecon recon(scene, settings); recon.start();] the external
    reconstruction.  It returns the scene it leaves behind and whether it
    returned normally ([true]) or threw a [std::exception] ([false]). *)
Variable DMRecon : ViewList -> Settings -> ViewList * bool.

(** [views[id]->save_mve_file()]: [false] when it throws. *)
Variable save_mve_file : ViewList -> Z -> bool.

(** [reconstruct]: the progress handle aside, it constructs and starts the
    reconstruction. *)
Definition reconstruct (scene : ViewList) (settings : Settings)
    : ViewList * bool :=
  DMRecon scene settings.

(** The scale a batch job works at. *)
Definition job_settings (conf : AppSettings) (scene : ViewList) (id : Z)
    : Settings :=
  let settings := set_refViewNr (mvs conf) id in
  if 0 <? max_pixels conf
  then set_scale settings (get_scale_from_max_pixels scene conf settings)
  else settings.

Definition embedding_name (settings : Settings) : string :=
  String.append "depth-L" (string_get (scale settings)).

(** [views[id] != NULL && views[id]->is_camera_valid()] *)
Definition camera_valid_at (views : ViewList) (id : Z) : bool :=
  match views_at views id with
  | Some view => is_camera_valid view
  | None => false
  end.

(** [views[id]->has_embedding(name)], false for a NULL view. *)
Definition embedding_at (views : ViewList) (id : Z) (name : string) : bool :=
  match views_at views id with
  | Some view => has_embedding view name
  | None => false
  end.

(** One round of the batch loop, for the entry [view_id] of
    [conf.view_ids]. *)
Definition batch_job (conf : AppSettings) (view_id : Z) (run : Run) : Run :=
  let views := scene_of run in
  let id := to_size_t view_id in
  let skip := {| scene_of := views; recon_calls := recon_calls run;
                 outcomes := (id, SKIPPED) :: outcomes run |} in
  if views_size views <=? id then skip
  else
    match views_at views id with
    | None => skip
    | Some view =>
        if negb (is_camera_valid view) then skip
        else
          let settings := job_settings conf views id in
          if negb (force_recon conf)
             && has_embedding view (embedding_name settings)
          then skip
          else
            let '(views', returned) := reconstruct views settings in
            let ok := returned && save_mve_file views' id in
            {| scene_of := views';
               recon_calls := settings :: recon_calls run;
               outcomes := (id, if ok then DONE else FAILED) :: outcomes run |}
    end.

(** The batch loop, its rounds taken in the order of the list (the OpenMP
    schedule is not modelled). *)
Definition batch_loop (conf : AppSettings) (ids : list Z) (run : Run) : Run :=
  fold_left (fun run view_id => batch_job conf view_id run) ids run.

(** The view ids the batch works on: the list given, all views without. *)
Definition batch_ids (conf : AppSettings) (views : ViewList) : list Z :=
  match view_ids conf with
  | [] => map Z.of_nat (seq 0 (length views))
  | ids => ids
  end.

(** The settings of the single job of the master-view mode: the scale is
    derived before [refViewNr] is set to the master view. *)
Definition master_settings (conf : AppSettings) (scene : ViewList) : Settings :=
  let conf_mvs :=
    if 0 <? max_pixels conf
    then set_scale (mvs conf) (get_scale_from_max_pixels scene conf (mvs conf))
    else mvs conf in
  set_refViewNr conf_mvs (to_size_t (master_id conf)).

(** [main] from "Load MVE scene" on; [loaded] is [None] when loading the
    scene throws.  The result is the exit status and, when the end of
    [main] is reached, the run that [scene->save_views()] then saves. *)
Definition main (conf : AppSettings) (loaded : option ViewList)
    : Z * option Run :=
  match loaded with
  | None => (1, None)
  | Some scene =>
      let start := {| scene_of := scene; recon_calls := []; outcomes := [] |} in
      if 0 <=? master_id conf then
        let conf_mvs := master_settings conf scene in
        let '(scene', returned) := reconstruct scene conf_mvs in
        if returned
        then (0, Some {| scene_of := scene'; recon_calls := [conf_mvs];
                         outcomes := [] |})
        else (1, None)
      else
        (0, Some (batch_loop conf (batch_ids conf scene) start))
  end.

End Collaborators.

End Dmrecon.

(** ** Vocabulary of the properties *)

(** Nothing but descriptor 0 has been recorded so far. *)
Definition only_first {T : Type} (lowest : T) (r : Result T) : Prop :=
  index_1st_best r = 0 /\ index_2nd_best r = 0 /\ dist_2nd_best r = lowest.

(** Two different descriptors below [i] have been recorded. *)
Definition two_found {T : Type} (r : Result T) (i : Z) : Prop :=
  index_1st_best r <> index_2nd_best r
  /\ 0 <= index_1st_best r < i /\ 0 <= index_2nd_best r < i.

(** The lane sums of descriptor [i] are representable in a 16-bit lane. *)
Definition descriptor_fits (nn : NearestNeighbor Z) (query : list Z) (i : Z)
    : Prop :=
  forall l, In l Short.lanes ->
    -32768 <= Short.lane_sum nn query i l <= 32767.

(** The squared norm of the [dim] components that start at [start]. *)
Definition sq_norm (mem : list Z) (start dim : Z) : Z :=
  Zsum (Z.to_nat dim)
    (fun j => Short.load mem (start + j) * Short.load mem (start + j)).

(** What holds of the running top two after the first [k] scores: the best
    is at least every score seen, the second best at least every other one,
    and a recorded index points at the first score of its value.  [ok]
    marks the scores that take part in the order (all but NaN). *)
Record scanned {P : Type} (ltb : P -> P -> bool) (ok : P -> Prop)
    (scores : list P) (k : nat) (r : Result P) : Prop := {
  sc_ok1 : ok (dist_1st_best r);
  sc_ok2 : ok (dist_2nd_best r);
  sc_order : ltb (dist_1st_best r) (dist_2nd_best r) = false;
  sc_best : forall i s, (i < k)%nat -> nth_error scores i = Some s ->
            ltb (dist_1st_best r) s = false;
  sc_second : forall i s, (i < k)%nat -> nth_error scores i = Some s ->
              Z.of_nat i <> index_1st_best r ->
              ltb (dist_2nd_best r) s = false;
  sc_first1 : forall i s, nth_error scores i = Some s -> ok s ->
              Z.of_nat i < index_1st_best r ->
              ltb s (dist_1st_best r) = true;
  sc_first2 : forall i s, nth_error scores i = Some s -> ok s ->
              Z.of_nat i < index_2nd_best r ->
              Z.of_nat i <> index_1st_best r ->
              ltb s (dist_2nd_best r) = true;
  sc_at1 : index_1st_best r = 0
           \/ (0 < index_1st_best r < Z.of_nat k
               /\ nth_error scores (Z.to_nat (index_1st_best r))
                  = Some (dist_1st_best r));
  sc_at2 : index_2nd_best r = 0
           \/ (0 < index_2nd_best r < Z.of_nat k
               /\ nth_error scores (Z.to_nat (index_2nd_best r))
                  = Some (dist_2nd_best r))
}.

(** Non-NaN numbers are ordered like their keys, compared lexicographically:
    sign class first, then exponent and mantissa. *)
Definition float_key (x : spec_float) : Z * Z * Z :=
  match x with
  | S754_infinity true => (-2, 0, 0)
  | S754_finite true m e => (-1, - e, - Zpos m)
  | S754_zero _ => (0, 0, 0)
  | S754_finite false m e => (1, e, Zpos m)
  | S754_infinity false => (2, 0, 0)
  | S754_nan => (3, 0, 0)
  end.

Definition lex_lt (a b : Z * Z * Z) : Prop :=
  fst (fst a) < fst (fst b)
  \/ (fst (fst a) = fst (fst b)
      /\ (snd (fst a) < snd (fst b)
          \/ (snd (fst a) = snd (fst b) /\ snd a < snd b))).

(** A positive number that is at least one. *)
Definition at_least_one (r : spec_float) : Prop :=
  match r with
  | S754_infinity false => True
  | S754_finite false m e => -23 <= e /\ 8388608 <= Zpos m
  | _ => False
  end.

(** One half. *)
Definition half : spec_float := S754_finite false 8388608 (-24).

(** A binary32 number: a finite value has a canonical mantissa and an
    exponent in range. *)
Definition valid32 (x : spec_float) : Prop := valid_binary 24 128 x = true.

(** [2 - 2 d] for [d = m * 2^-24] strictly between one half and one. *)
Definition mid_distance (m : positive) : spec_float :=
  let S := Z.to_pos (16777216 - Zpos m) in
  let D := Zpos (digits2_pos S) in
  S754_finite false (fst (shl_align S (-23) (D - 47))) (D - 47).

(** The three [continue] tests of the loop body, as one condition. *)
Definition skip_condition (logf : spec_float -> spec_float)
    (conf : Dmrecon.AppSettings)
    (views : Dmrecon.ViewList) (id : Z) : Prop :=
  Dmrecon.views_size views <= id
  \/ Dmrecon.camera_valid_at views id = false
  \/ (Dmrecon.force_recon conf = false
      /\ Dmrecon.embedding_at views id
           (String.append "depth-L"
              (Dmrecon.string_get
                 (Dmrecon.scale (Dmrecon.job_settings logf conf views id)))) = true).

(** A job that reached the [try] block. *)
Definition job_ran (o : Z * Dmrecon.Outcome) : bool :=
  match snd o with
  | Dmrecon.SKIPPED => false
  | _ => true
  end.

(** The scenario of the specification: view 0 has a valid camera and the
    embedding "depth-L0", the scale is 0. *)
Definition scenario_views : Dmrecon.ViewList :=
  [Some {| Dmrecon.is_camera_valid := true;
           Dmrecon.proxies :=
             [("undistorted"%string,
               {| Dmrecon.width := 640; Dmrecon.height := 480 |});
              ("depth-L0"%string,
               {| Dmrecon.width := 640; Dmrecon.height := 480 |})] |};
   Some {| Dmrecon.is_camera_valid := false; Dmrecon.proxies := [] |};
   Some {| Dmrecon.is_camera_valid := true; Dmrecon.proxies := [] |}].

Definition scenario_conf (master : Z) (force : bool) : Dmrecon.AppSettings :=
  {| Dmrecon.master_id := master; Dmrecon.view_ids := [];
     Dmrecon.max_pixels := 0; Dmrecon.force_recon := force;
     Dmrecon.mvs := {| Dmrecon.refViewNr := 0;
                       Dmrecon.imageEmbedding := "undistorted";
                       Dmrecon.scale := 0 |} |}.

Definition scenario_start : Dmrecon.Run :=
  {| Dmrecon.scene_of := scenario_views; Dmrecon.recon_calls := [];
     Dmrecon.outcomes := [] |}.

(** A float logarithm for the examples: the binary32 numbers nearest to
    the natural logarithm at the arguments the examples use, 1, 4, 4.5 and
    4000 (0, 1.38629436, 1.50407743 and 8.29404926), and NaN elsewhere. *)
Definition logf_sample (x : spec_float) : spec_float :=
  if SFeqb x Float.one then Float.zero
  else if SFeqb x Dmrecon.four then S754_finite false 11629080 (-23)
  else if SFeqb x (S754_finite false 9437184 (-21))
       then S754_finite false 12617116 (-23)
  else if SFeqb x (S754_finite false 16384000 (-12))
       then S754_finite false 8696941 (-20)
  else S754_nan.

(** A component given in units of [2^-11]: the binary32 number
    [z / 2048]. *)
Definition fixed_point (z : Z) : spec_float := Float.of_Z z (-11).

(** The literals 5.0f and 6.0f. *)
Definition five : spec_float := S754_finite false 10485760 (-21).
Definition six : spec_float := S754_finite false 12582912 (-21).

(** A reconstruction that always throws, and one that always succeeds. *)
Definition always_throws (scene : Dmrecon.ViewList) (_ : Dmrecon.Settings)
    : Dmrecon.ViewList * bool := (scene, false).
Definition always_returns (scene : Dmrecon.ViewList) (_ : Dmrecon.Settings)
    : Dmrecon.ViewList * bool := (scene, true).

(* ================================================================== *)
(** * Part II: properties                                              *)
(* ================================================================== *)

(** ** Machine integers *)

Lemma wrap_small (bits z : Z) :
  0 < bits -> - 2 ^ (bits - 1) <= z < 2 ^ (bits - 1) -> wrap bits z = z.
Proof.
  intros Hb Hz. unfold wrap.
  replace (2 ^ bits) with (2 * 2 ^ (bits - 1)).
  - rewrite Z.mod_small; lia.
  - rewrite <- Z.pow_succ_r by lia. f_equal. lia.
Qed.

Lemma wrap_range (bits z : Z) :
  0 < bits -> - 2 ^ (bits - 1) <= wrap bits z < 2 ^ (bits - 1).
Proof.
  intros Hb. unfold wrap.
  assert (H2 : 2 ^ bits = 2 * 2 ^ (bits - 1)).
  { rewrite <- Z.pow_succ_r by lia. f_equal. lia. }
  assert (Hpos : 0 < 2 ^ (bits - 1)) by (apply Z.pow_pos_nonneg; lia).
  pose proof (Z.mod_pos_bound (z + 2 ^ (bits - 1)) (2 ^ bits)) as Hm.
  lia.
Qed.

Lemma wrap_congr (bits z : Z) :
  0 < bits -> (wrap bits z) mod 2 ^ bits = z mod 2 ^ bits.
Proof.
  intros Hb. unfold wrap.
  assert (H2 : 2 ^ bits = 2 * 2 ^ (bits - 1)).
  { rewrite <- Z.pow_succ_r by lia. f_equal. lia. }
  assert (Hpos : 0 < 2 ^ (bits - 1)) by (apply Z.pow_pos_nonneg; lia).
  rewrite Zminus_mod_idemp_l. f_equal. lia.
Qed.

Lemma to_short_small z : -32768 <= z <= 32767 -> to_short z = z.
Proof. intros H. apply wrap_small; simpl; lia. Qed.

Lemma to_short_range z : -32768 <= to_short z <= 32767.
Proof. pose proof (@wrap_range 16 z). simpl in H. unfold to_short. lia. Qed.

Lemma to_int_small z : -2147483648 <= z <= 2147483647 -> to_int z = z.
Proof. intros H. apply wrap_small; simpl; lia. Qed.

(** ** The scan as a fold over the inner products *)

Section ScanFacts.
Variables T P : Type.
Variable gt : P -> T -> bool.
Variable store : P -> T.
Variable lowest : T.
Variable dot : Z -> P * Z.

Lemma for_loop_scan (n : nat) : forall i descr_ptr r,
  snd (for_loop n i (scan_body gt store dot) (descr_ptr, r))
  = top2 gt store r i (dots_from dot n descr_ptr).
Proof.
  induction n as [|n IH]; intros i descr_ptr r; simpl.
  - reflexivity.
  - unfold scan_body at 2. simpl.
    destruct (dot descr_ptr) as [ip descr_ptr'] eqn:E.
    rewrite IH. reflexivity.
Qed.

Lemma scan_top2 (n : Z) :
  scan gt store lowest dot n
  = top2 gt store (init_result lowest) 0 (dots dot n).
Proof. unfold scan, for_range, dots. apply for_loop_scan. Qed.

Lemma dots_from_length (n : nat) : forall p, length (dots_from dot n p) = n.
Proof.
  induction n as [|n IH]; intros p; simpl.
  - reflexivity.
  - destruct (dot p). simpl. now rewrite IH.
Qed.

Lemma dots_length (n : Z) : length (dots dot n) = Z.to_nat n.
Proof. apply dots_from_length. Qed.

Lemma top2_app (l1 l2 : list P) : forall r i,
  top2 gt store r i (l1 ++ l2)
  = top2 gt store (top2 gt store r i l1) (i + Z.of_nat (length l1)) l2.
Proof.
  induction l1 as [|s l1 IH]; intros r i.
  - simpl. now rewrite Z.add_0_r.
  - cbn [app top2 length]. rewrite IH. f_equal. lia.
Qed.

(** An element that does not beat the second best changes nothing. *)
Lemma update_skip r i s : gt s (dist_2nd_best r) = false -> update gt store r i s = r.
Proof. unfold update. now intros ->. Qed.

Lemma top2_no_update (scores : list P) : forall r i,
  Forall (fun s => gt s (dist_2nd_best r) = false) scores ->
  top2 gt store r i scores = r.
Proof.
  induction scores as [|s rest IH]; intros r i H; simpl.
  - reflexivity.
  - inversion H; subst. rewrite update_skip by assumption. now apply IH.
Qed.
End ScanFacts.

(** ** Finalisation: raw inner products to squared distances *)

(** The three stores of the [short] finalisation never wrap. *)
Lemma short_finalize_closed (r : Result Z) :
  Short.finalize r
  = {| dist_1st_best := 32258 - 2 * Z.min 16129 (Z.max 0 (dist_1st_best r));
       dist_2nd_best := 32258 - 2 * Z.min 16129 (Z.max 0 (dist_2nd_best r));
       index_1st_best := index_1st_best r;
       index_2nd_best := index_2nd_best r |}.
Proof.
  unfold Short.finalize.
  rewrite (@to_short_small (Z.min 16129 (Z.max 0 (dist_1st_best r)))) by lia.
  rewrite (@to_short_small (Z.min 16129 (Z.max 0 (dist_2nd_best r)))) by lia.
  rewrite !to_short_small by lia. reflexivity.
Qed.

(** The [float] clamp, case by case: [y] itself when [0 < y < 1], one when
    [0 < y] and not [y < 1], zero when not [0 < y] (which includes NaN). *)
Lemma float_clamp_cases (y : spec_float) :
  Float.std_min Float.one (Float.std_max Float.zero y)
  = if Float.flt Float.zero y
    then if Float.flt y Float.one then y else Float.one
    else Float.zero.
Proof.
  unfold Float.std_min, Float.std_max.
  destruct (Float.flt Float.zero y); reflexivity.
Qed.

Lemma float_distance_range (d : spec_float) :
  Float.fle Float.zero (Float.distance d) = true
  /\ Float.fle (Float.distance d) Float.one = true.
Proof.
  unfold Float.distance. rewrite float_clamp_cases.
  set (y := Float.fsub Float.two (Float.fmul Float.two d)).
  unfold Float.flt, Float.fle, SFltb, SFleb.
  destruct (SFcompare Float.zero y) as [[| |]|] eqn:E0;
    try (split; reflexivity).
  destruct (SFcompare y Float.one) as [[| |]|] eqn:E1;
    rewrite ?E0, ?E1; split; reflexivity.
Qed.


(** ** Range of the returned distances *)

(** C3, as the code has it.  Quantized distances lie in [0, 32258] (twice
    the bound 16129 on the clamped inner product); float distances lie in
    [0, 1].  For every input and either path. *)
Theorem find_distance_range :
  (forall path nn query,
     let r := Short.find path nn query in
     0 <= dist_1st_best r <= 32258 /\ 0 <= dist_2nd_best r <= 32258)
  /\
  (forall path nn query,
     let r := Float.find path nn query in
     (Float.fle Float.zero (dist_1st_best r) = true
      /\ Float.fle (dist_1st_best r) Float.one = true)
     /\ (Float.fle Float.zero (dist_2nd_best r) = true
         /\ Float.fle (dist_2nd_best r) Float.one = true)).
Proof.
  split; intros path nn query; cbv zeta.
  - unfold Short.find. rewrite short_finalize_closed.
    cbn [dist_1st_best dist_2nd_best]. lia.
  - unfold Float.find, Float.finalize. simpl.
    split; apply float_distance_range.
Qed.

(** C3, counterexample to the bound 16129: a query orthogonal to the only
    stored descriptor is at distance 32258. *)
Lemma short_distance_exceeds_16129 :
  let nn := {| dimensions := 2; num_elements := 1; elements := [0; 127] |} in
  let r := Short.find Scalar nn [127; 0] in
  dist_1st_best r = 32258 /\ ~ (0 <= dist_1st_best r <= 16129).
Proof. vm_compute. split; [reflexivity | intros [_ H]; now apply H]. Qed.

(** ** The empty space *)

(** C6. With [num_elements = 0] the loop body never runs and finalisation
    of the initial maxima gives the largest distance of the domain for both
    bests: 32258 (quantized), 1.0 (float).  Both indices are 0. *)
Theorem find_empty_space :
  (forall path nn query, num_elements nn = 0 ->
     Short.find path nn query
     = {| dist_1st_best := 32258; dist_2nd_best := 32258;
          index_1st_best := 0; index_2nd_best := 0 |})
  /\
  (forall path nn query, num_elements nn = 0 ->
     Float.find path nn query
     = {| dist_1st_best := Float.one; dist_2nd_best := Float.one;
          index_1st_best := 0; index_2nd_best := 0 |}).
Proof.
  split; intros path nn query Hn.
  - unfold Short.find, Short.scan_result, scan, for_range. rewrite Hn.
    reflexivity.
  - unfold Float.find, Float.scan_result, scan, for_range. rewrite Hn.
    reflexivity.
Qed.

Lemma find_empty_space_witness :
  Short.find SSE {| dimensions := 8; num_elements := 0; elements := [] |}
    [1; 2; 3; 4; 5; 6; 7; 8]
  = {| dist_1st_best := 32258; dist_2nd_best := 32258;
       index_1st_best := 0; index_2nd_best := 0 |}
  /\ Float.find Scalar {| dimensions := 1; num_elements := 0; elements := [] |}
       [Float.one]
     = {| dist_1st_best := Float.one; dist_2nd_best := Float.one;
          index_1st_best := 0; index_2nd_best := 0 |}.
Proof.
  split.
  - apply (proj1 find_empty_space). reflexivity.
  - apply (proj2 find_empty_space). reflexivity.
Defined.

(** ** When the two indices coincide *)

Section Indices.
Variables T P : Type.
Variable gt : P -> T -> bool.
Variable store : P -> T.
Variable lowest : T.

Local Abbreviation update := (update gt store).
Local Abbreviation top2 := (top2 gt store).

Lemma only_first_init s : only_first lowest (update (init_result lowest) 0 s).
Proof.
  unfold update, only_first. simpl.
  destruct (gt s lowest); simpl; auto.
Qed.

Lemma only_first_miss r i s :
  only_first lowest r -> gt s lowest = false -> update r i s = r.
Proof.
  intros (_ & _ & H2) Hs. apply update_skip. now rewrite H2.
Qed.

Lemma only_first_hit r i s :
  only_first lowest r -> 1 <= i -> gt s lowest = true -> two_found (update r i s) (i + 1).
Proof.
  intros (H1 & H2 & Hd) Hi Hs. unfold update, two_found.
  rewrite Hd, Hs. destruct (gt s (dist_1st_best r)); simpl; lia.
Qed.

Lemma two_found_update r i s :
  two_found r i -> two_found (update r i s) (i + 1).
Proof.
  intros (Hne & H1 & H2). unfold update, two_found.
  destruct (gt s (dist_2nd_best r)); [destruct (gt s (dist_1st_best r))|];
    simpl; lia.
Qed.

Lemma two_found_top2 (scores : list P) : forall r i,
  two_found r i -> two_found (top2 r i scores) (i + Z.of_nat (length scores)).
Proof.
  induction scores as [|s rest IH]; intros r i H.
  - simpl. now rewrite Z.add_0_r.
  - cbn [top2 length]. apply two_found_update with (s := s) in H.
    apply IH in H. now replace (i + Z.of_nat (S (length rest)))
      with (i + 1 + Z.of_nat (length rest)) by lia.
Qed.

Lemma only_first_top2 (scores : list P) : forall r i,
  only_first lowest r -> 1 <= i ->
  (index_1st_best (top2 r i scores) <> index_2nd_best (top2 r i scores)
   <-> Exists (fun s => gt s lowest = true) scores).
Proof.
  induction scores as [|s rest IH]; intros r i Hr Hi.
  - simpl. destruct Hr as (H1 & H2 & _). rewrite Exists_nil. lia.
  - cbn [top2]. destruct (gt s lowest) eqn:Hs.
    + split; [intros _; now apply Exists_cons_hd|intros _].
      apply (only_first_hit Hr Hi) in Hs.
      apply two_found_top2 with (scores := rest) in Hs. apply Hs.
    + rewrite (only_first_miss i Hr Hs).
      rewrite IH; [|assumption|lia].
      split; [now apply Exists_cons_tl|].
      intros H; inversion H; subst; [congruence|assumption].
Qed.

(** The indices of the top two differ exactly when some descriptor other
    than the first beats the initial maximum. *)
Lemma top2_indices_differ (scores : list P) :
  let r := top2 (init_result lowest) 0 scores in
  index_1st_best r <> index_2nd_best r
  <-> Exists (fun s => gt s lowest = true) (tl scores).
Proof.
  destruct scores as [|s rest]; cbn [top2 tl]; cbv zeta.
  - simpl. rewrite Exists_nil. lia.
  - apply only_first_top2; [apply only_first_init|simpl; lia].
Qed.
End Indices.

(** ** Order of the two raw maxima *)

(** Quantized matcher: as long as no inner product exceeds [SHRT_MAX] the
    stores do not wrap and the running best stays above the running second
    best, which stays above the initial value. *)
Lemma short_update_ordered r i s :
  s <= 32767 -> -32767 <= dist_2nd_best r <= dist_1st_best r ->
  let r' := update Short.gt to_short r i s in
  -32767 <= dist_2nd_best r' <= dist_1st_best r'.
Proof.
  intros Hs Hr. cbv zeta. unfold update, Short.gt.
  destruct (dist_2nd_best r <? s) eqn:E2; [|assumption].
  apply Z.ltb_lt in E2.
  destruct (dist_1st_best r <? s) eqn:E1; simpl;
    rewrite to_short_small by lia.
  - apply Z.ltb_lt in E1. lia.
  - apply Z.ltb_ge in E1. lia.
Qed.

Lemma short_top2_ordered (scores : list Z) : forall r i,
  Forall (fun s => s <= 32767) scores ->
  -32767 <= dist_2nd_best r <= dist_1st_best r ->
  let r' := top2 Short.gt to_short r i scores in
  -32767 <= dist_2nd_best r' <= dist_1st_best r'.
Proof.
  induction scores as [|s rest IH]; intros r i Hall Hr; cbv zeta.
  - assumption.
  - inversion Hall; subst. cbn [top2]. apply IH; [assumption|].
    now apply short_update_ordered.
Qed.

(** ** Comparison of binary32 numbers *)

Lemma SFcompare_antisym (x y : spec_float) (c : comparison) :
  SFcompare x y = Some c -> SFcompare y x = Some (CompOpp c).
Proof.
  destruct x as [sx|sx| |sx mx ex], y as [sy|sy| |sy my ey]; simpl;
    try discriminate; intros [= <-];
    try (destruct sx; reflexivity); try (destruct sy; reflexivity);
    try (destruct sx, sy; reflexivity).
  rewrite (Z.compare_antisym ex ey).
  destruct sx, sy; try reflexivity;
    destruct (ex ?= ey); simpl; try reflexivity;
    now rewrite (Pos.compare_cont_antisym mx my Eq).
Qed.

Lemma flt_fle x y : Float.flt x y = true -> Float.fle x y = true.
Proof.
  unfold Float.flt, Float.fle, SFltb, SFleb.
  destruct (SFcompare x y) as [[| |]|]; congruence.
Qed.

(** Of two comparable numbers, one is at most the other. *)
Lemma not_flt_fle x y z w :
  Float.flt z y = true -> Float.fle w x = true ->
  Float.flt x y = false -> Float.fle y x = true.
Proof.
  unfold Float.flt, Float.fle, SFltb, SFleb. intros Hy Hx Hlt.
  destruct (SFcompare x y) as [c|] eqn:E.
  - apply SFcompare_antisym in E. rewrite E.
    destruct c; simpl; congruence.
  - destruct x, y, z, w; simpl in *; congruence.
Qed.

Lemma float_update_ordered r i s :
  Float.fle (dist_2nd_best r) (dist_1st_best r) = true ->
  let r' := update Float.gt (fun ip => ip) r i s in
  Float.fle (dist_2nd_best r') (dist_1st_best r') = true.
Proof.
  intros Hr. cbv zeta. unfold update, Float.gt.
  destruct (Float.flt (dist_2nd_best r) s) eqn:E2; [|assumption].
  destruct (Float.flt (dist_1st_best r) s) eqn:E1; simpl.
  - now apply flt_fle.
  - eapply not_flt_fle; eassumption.
Qed.

Lemma float_top2_ordered (scores : list spec_float) : forall r i,
  Float.fle (dist_2nd_best r) (dist_1st_best r) = true ->
  let r' := top2 Float.gt (fun ip => ip) r i scores in
  Float.fle (dist_2nd_best r') (dist_1st_best r') = true.
Proof.
  induction scores as [|s rest IH]; intros r i Hr; cbv zeta.
  - assumption.
  - cbn [top2]. apply IH. now apply float_update_ordered.
Qed.

(** ** Inner products at or below the initial maximum *)

Lemma short_scan_result_top2 path nn query :
  Short.scan_result path nn query
  = top2 Short.gt to_short (init_result (-32767)) 0
      (Short.inner_products path nn query).
Proof. unfold Short.scan_result, Short.inner_products. apply scan_top2. Qed.

Lemma float_scan_result_top2 path nn query :
  Float.scan_result path nn query
  = top2 Float.gt (fun ip => ip) (init_result (SFopp Float.FLT_MAX)) 0
      (Float.inner_products path nn query).
Proof. unfold Float.scan_result, Float.inner_products. apply scan_top2. Qed.

Lemma short_inner_products_length path nn query :
  length (Short.inner_products path nn query) = Z.to_nat (num_elements nn).
Proof. apply dots_length. Qed.

(** C10. Quantized matcher, either path.  The running maxima start at
    -32767 with both indices 0.  (a) If every inner product is at most
    -32767, no update occurs: the scan leaves the initial state and [find]
    reports both indices as 0 at distance 32258.  (b) This happens with two
    stored descriptors of 8-bit components, whose inner product with the
    query, accumulated in [int], is -48387.  (c) An empty space gives both
    indices 0 as well, and (d) so does every one-element space, whether its
    descriptor matches or not: the indices alone do not tell the cases
    apart. *)
Theorem short_no_update_leaves_index_zero :
  (forall path nn query,
     Forall (fun ip => ip <= -32767) (Short.inner_products path nn query) ->
     Short.scan_result path nn query = init_result (-32767)
     /\ Short.find path nn query
        = {| dist_1st_best := 32258; dist_2nd_best := 32258;
             index_1st_best := 0; index_2nd_best := 0 |})
  /\ (let nn := {| dimensions := 3; num_elements := 2;
                   elements := [127; 127; 127; 127; 127; 127] |} in
      let query := [-127; -127; -127] in
      Short.inner_products Scalar nn query = [-48387; -48387]
      /\ index_1st_best (Short.find Scalar nn query) = 0
      /\ index_2nd_best (Short.find Scalar nn query) = 0)
  /\ (forall path nn query, num_elements nn = 0 ->
        index_1st_best (Short.find path nn query) = 0
        /\ index_2nd_best (Short.find path nn query) = 0)
  /\ (forall path nn query, num_elements nn = 1 ->
        index_1st_best (Short.find path nn query) = 0
        /\ index_2nd_best (Short.find path nn query) = 0).
Proof.
  split; [|split; [|split]].
  - intros path nn query Hall.
    assert (Hscan : Short.scan_result path nn query = init_result (-32767)).
    { rewrite short_scan_result_top2. apply top2_no_update.
      eapply Forall_impl; [|exact Hall].
      intros ip Hip. unfold Short.gt. simpl. now apply Z.ltb_ge. }
    split; [assumption|]. unfold Short.find. rewrite Hscan. reflexivity.
  - vm_compute. auto.
  - intros path nn query Hn.
    unfold Short.find, Short.scan_result, scan, for_range. rewrite Hn.
    split; reflexivity.
  - intros path nn query Hn.
    unfold Short.find, Short.finalize. cbn [index_1st_best index_2nd_best].
    rewrite short_scan_result_top2.
    pose proof (short_inner_products_length path nn query) as Hlen.
    rewrite Hn in Hlen.
    destruct (Short.inner_products path nn query) as [|s [|s' rest]];
      try discriminate.
    cbn [top2].
    destruct (only_first_init Short.gt to_short (-32767) s) as (H1 & H2 & _).
    now split.
Qed.

Lemma short_no_update_witness :
  let nn := {| dimensions := 3; num_elements := 2;
               elements := [127; 127; 127; 127; 127; 127] |} in
  Short.find Scalar nn [-127; -127; -127]
  = {| dist_1st_best := 32258; dist_2nd_best := 32258;
       index_1st_best := 0; index_2nd_best := 0 |}.
Proof.
  cbv zeta.
  apply (proj1 short_no_update_leaves_index_zero Scalar).
  vm_compute. repeat constructor; discriminate.
Defined.

Example find_short_two :
  Short.find Scalar {| dimensions := 2; num_elements := 2; elements := [3; 4; 100; 50] |} [100; 50]
  = {| dist_1st_best := 7258; dist_2nd_best := 31258; index_1st_best := 1; index_2nd_best := 0 |}.
Proof. vm_compute. reflexivity. Qed.

Example find_float_two :
  Float.find Scalar {| dimensions := 2; num_elements := 2;
                       elements := [Float.of_Z 1 0; Float.of_Z 0 0; Float.of_Z 3 (-2); Float.of_Z 1 (-1)] |}
                    [Float.of_Z 3 (-2); Float.of_Z 1 (-1)]
  = {| dist_1st_best := Float.of_Z 3 (-3); dist_2nd_best := Float.of_Z 1 (-1); index_1st_best := 1; index_2nd_best := 0 |}.
Proof. vm_compute. reflexivity. Qed.

(** ** Scalar and SSE inner products of the quantized matcher *)

Lemma for_loop_snoc {S : Type} (body : Z -> S -> S) (n : nat) : forall i s,
  for_loop (Datatypes.S n) i body s
  = body (i + Z.of_nat n) (for_loop n i body s).
Proof.
  induction n as [|n IH]; intros i s.
  - simpl. now rewrite Z.add_0_r.
  - change (for_loop (Datatypes.S (Datatypes.S n)) i body s)
      with (for_loop (Datatypes.S n) (i + 1) body (body i s)).
    rewrite IH. cbn [for_loop]. f_equal. lia.
Qed.

Lemma wrap_add_l (bits a b : Z) :
  0 < bits -> wrap bits (wrap bits a + b) = wrap bits (a + b).
Proof.
  intros Hb. unfold wrap at 1 3. f_equal.
  rewrite <- !Z.add_assoc.
  rewrite <- (Zplus_mod_idemp_l (wrap bits a)), wrap_congr by assumption.
  now rewrite Zplus_mod_idemp_l.
Qed.

Lemma wrap_add_r (bits a b : Z) :
  0 < bits -> wrap bits (a + wrap bits b) = wrap bits (a + b).
Proof.
  intros Hb. rewrite (Z.add_comm a), wrap_add_l by assumption.
  now rewrite Z.add_comm.
Qed.

(** The scalar loop returns the exact sum of products reduced to [int]. *)
Lemma short_scalar_dot_sum nn query p :
  Short.scalar_dot nn query p
  = (to_int (Zsum (Z.to_nat (dimensions nn))
               (fun j => Short.load query j * Short.load (elements nn) (p + j))),
     p + Z.of_nat (Z.to_nat (dimensions nn))).
Proof.
  unfold Short.scalar_dot, for_range.
  induction (Z.to_nat (dimensions nn)) as [|n IH].
  - simpl. now rewrite Z.add_0_r.
  - rewrite for_loop_snoc, IH. cbn [Zsum]. f_equal.
    + unfold to_int. rewrite wrap_add_l by lia. reflexivity.
    + lia.
Qed.

Lemma short_load_lanes (h : Z -> Z) (l : Z) :
  In l Short.lanes -> Short.load (map h Short.lanes) l = h l.
Proof.
  unfold Short.lanes. simpl.
  intros [<-|[<-|[<-|[<-|[<-|[<-|[<-|[<-|[]]]]]]]]]; reflexivity.
Qed.

(** After [n] rounds every lane of [reg_result] holds its exact sum of
    products reduced to 16 bits. *)
Lemma short_sse_loop nn query p (n : nat) :
  for_loop n 0
    (fun (_ : Z) '(reg_result, query_ptr, descr_ptr) =>
       let reg_query := Short._mm_load_si128 query query_ptr in
       let reg_subject := Short._mm_load_si128 (elements nn) descr_ptr in
       (Short._mm_add_epi16 reg_result
          (Short._mm_mullo_epi16 reg_query reg_subject),
        query_ptr + 1, descr_ptr + 1))
    (Short._mm_set1_epi16 0, 0, p)
  = (map (fun l => to_short
            (Zsum n (fun k => Short.load query (8 * k + l)
                              * Short.load (elements nn) (8 * (p + k) + l))))
       Short.lanes,
     Z.of_nat n, p + Z.of_nat n).
Proof.
  induction n as [|n IH].
  - simpl. now rewrite Z.add_0_r.
  - rewrite for_loop_snoc, IH. cbv zeta.
    f_equal; [f_equal|]; try lia.
    unfold Short._mm_add_epi16, Short._mm_mullo_epi16, Short.lanewise,
      Short._mm_load_si128.
    apply map_ext_in. intros l Hl.
    rewrite !short_load_lanes by assumption.
    cbn [Zsum]. unfold to_short.
    rewrite wrap_add_l, wrap_add_r by lia. reflexivity.
Qed.

Lemma short_sse_dot_sum nn query p :
  let lane l :=
    to_short (Zsum (Z.to_nat (Z.quot (dimensions nn) 8))
                (fun k => Short.load query (8 * k + l)
                          * Short.load (elements nn) (8 * (p + k) + l))) in
  Short.sse_dot nn query p
  = (lane 0 + lane 1 + lane 2 + lane 3 + lane 4 + lane 5 + lane 6 + lane 7,
     p + Z.of_nat (Z.to_nat (Z.quot (dimensions nn) 8))).
Proof.
  cbv zeta. unfold Short.sse_dot, for_range.
  rewrite short_sse_loop. reflexivity.
Qed.

(** Summing eight interleaved lanes is summing the whole range. *)
Lemma Zsum_lanes (n : nat) (f : Z -> Z) :
  Zsum (8 * n) f
  = Zsum n (fun k => f (8 * k + 0)) + Zsum n (fun k => f (8 * k + 1))
    + Zsum n (fun k => f (8 * k + 2)) + Zsum n (fun k => f (8 * k + 3))
    + Zsum n (fun k => f (8 * k + 4)) + Zsum n (fun k => f (8 * k + 5))
    + Zsum n (fun k => f (8 * k + 6)) + Zsum n (fun k => f (8 * k + 7)).
Proof.
  induction n as [|n IH].
  - reflexivity.
  - replace (8 * Datatypes.S n)%nat
      with (Datatypes.S (Datatypes.S (Datatypes.S (Datatypes.S
             (Datatypes.S (Datatypes.S (Datatypes.S (Datatypes.S (8 * n)))))))))
      by lia.
    cbn [Zsum]. rewrite IH.
    replace (Z.of_nat (8 * n)) with (8 * Z.of_nat n + 0) by lia.
    replace (Z.of_nat (Datatypes.S (8 * n))) with (8 * Z.of_nat n + 1) by lia.
    replace (Z.of_nat (Datatypes.S (Datatypes.S (8 * n))))
      with (8 * Z.of_nat n + 2) by lia.
    replace (Z.of_nat (Datatypes.S (Datatypes.S (Datatypes.S (8 * n)))))
      with (8 * Z.of_nat n + 3) by lia.
    replace (Z.of_nat (Datatypes.S (Datatypes.S (Datatypes.S
               (Datatypes.S (8 * n))))))
      with (8 * Z.of_nat n + 4) by lia.
    replace (Z.of_nat (Datatypes.S (Datatypes.S (Datatypes.S (Datatypes.S
               (Datatypes.S (8 * n)))))))
      with (8 * Z.of_nat n + 5) by lia.
    replace (Z.of_nat (Datatypes.S (Datatypes.S (Datatypes.S (Datatypes.S
               (Datatypes.S (Datatypes.S (8 * n))))))))
      with (8 * Z.of_nat n + 6) by lia.
    replace (Z.of_nat (Datatypes.S (Datatypes.S (Datatypes.S (Datatypes.S
               (Datatypes.S (Datatypes.S (Datatypes.S (8 * n)))))))))
      with (8 * Z.of_nat n + 7) by lia.
    lia.
Qed.

Lemma Zsum_ext (n : nat) (f g : Z -> Z) :
  (forall k, 0 <= k < Z.of_nat n -> f k = g k) -> Zsum n f = Zsum n g.
Proof.
  induction n as [|n IH]; intros H.
  - reflexivity.
  - cbn [Zsum]. rewrite IH, H; [reflexivity|lia|intros; apply H; lia].
Qed.

Lemma sum8_congr (a0 a1 a2 a3 a4 a5 a6 a7 b0 b1 b2 b3 b4 b5 b6 b7 : Z) :
  a0 = b0 -> a1 = b1 -> a2 = b2 -> a3 = b3 ->
  a4 = b4 -> a5 = b5 -> a6 = b6 -> a7 = b7 ->
  a0 + a1 + a2 + a3 + a4 + a5 + a6 + a7 = b0 + b1 + b2 + b3 + b4 + b5 + b6 + b7.
Proof. intros; subst; reflexivity. Qed.

Section PathsAgree.
Variable nn : NearestNeighbor Z.
Variable query : list Z.
Hypothesis dim_mult : (dimensions nn) mod 8 = 0.
Hypothesis dim_nonneg : 0 <= dimensions nn.

Local Abbreviation dim_8 := (Z.quot (dimensions nn) 8).

Lemma dim_8_eq : dimensions nn = 8 * dim_8.
Proof.
  rewrite Z.quot_div_nonneg by lia.
  pose proof (Z.div_mod (dimensions nn) 8). lia.
Qed.

Lemma dim_8_nonneg : 0 <= dim_8.
Proof. apply Z.quot_pos; lia. Qed.

Lemma scalar_dot_lanes (i : Z) :
  fst (Short.scalar_dot nn query (i * dimensions nn))
  = to_int (Short.lane_sum nn query i 0 + Short.lane_sum nn query i 1
            + Short.lane_sum nn query i 2 + Short.lane_sum nn query i 3
            + Short.lane_sum nn query i 4 + Short.lane_sum nn query i 5
            + Short.lane_sum nn query i 6 + Short.lane_sum nn query i 7).
Proof.
  rewrite short_scalar_dot_sum. cbn [fst]. f_equal.
  replace (Z.to_nat (dimensions nn)) with (8 * Z.to_nat dim_8)%nat
    by (pose proof dim_8_eq; pose proof dim_8_nonneg; lia).
  rewrite Zsum_lanes. unfold Short.lane_sum.
  apply sum8_congr; apply Zsum_ext; intros k _; f_equal; f_equal; lia.
Qed.

Lemma sse_dot_lanes (i : Z) :
  fst (Short.sse_dot nn query (i * dim_8))
  = to_short (Short.lane_sum nn query i 0)
    + to_short (Short.lane_sum nn query i 1)
    + to_short (Short.lane_sum nn query i 2)
    + to_short (Short.lane_sum nn query i 3)
    + to_short (Short.lane_sum nn query i 4)
    + to_short (Short.lane_sum nn query i 5)
    + to_short (Short.lane_sum nn query i 6)
    + to_short (Short.lane_sum nn query i 7).
Proof.
  rewrite short_sse_dot_sum. cbn [fst]. unfold Short.lane_sum.
  pose proof dim_8_eq as Hd.
  apply sum8_congr; apply (f_equal to_short); apply Zsum_ext; intros k _;
    f_equal; f_equal; lia.
Qed.

(** A descriptor whose lane sums fit in 16 bits has the same inner
    product on both paths. *)
Lemma dot_agree (i : Z) :
  descriptor_fits nn query i ->
  fst (Short.sse_dot nn query (i * dim_8))
  = fst (Short.scalar_dot nn query (i * dimensions nn)).
Proof.
  intros Hfit. rewrite sse_dot_lanes, scalar_dot_lanes.
  pose proof (Hfit 0) as H0. pose proof (Hfit 1) as H1.
  pose proof (Hfit 2) as H2. pose proof (Hfit 3) as H3.
  pose proof (Hfit 4) as H4. pose proof (Hfit 5) as H5.
  pose proof (Hfit 6) as H6. pose proof (Hfit 7) as H7.
  unfold Short.lanes in *. simpl in H0, H1, H2, H3, H4, H5, H6, H7.
  rewrite !to_short_small by intuition lia.
  rewrite to_int_small; [reflexivity|].
  assert (-32768 <= Short.lane_sum nn query i 0 <= 32767) by intuition lia.
  assert (-32768 <= Short.lane_sum nn query i 1 <= 32767) by intuition lia.
  assert (-32768 <= Short.lane_sum nn query i 2 <= 32767) by intuition lia.
  assert (-32768 <= Short.lane_sum nn query i 3 <= 32767) by intuition lia.
  assert (-32768 <= Short.lane_sum nn query i 4 <= 32767) by intuition lia.
  assert (-32768 <= Short.lane_sum nn query i 5 <= 32767) by intuition lia.
  assert (-32768 <= Short.lane_sum nn query i 6 <= 32767) by intuition lia.
  assert (-32768 <= Short.lane_sum nn query i 7 <= 32767) by intuition lia.
  lia.
Qed.

Lemma dots_from_agree (n : nat) : forall i,
  (forall j, i <= j < i + Z.of_nat n -> descriptor_fits nn query j) ->
  dots_from (Short.sse_dot nn query) n (i * dim_8)
  = dots_from (Short.scalar_dot nn query) n (i * dimensions nn).
Proof.
  induction n as [|n IH]; intros i Hfit.
  - reflexivity.
  - cbn [dots_from].
    pose proof (dot_agree (Hfit i ltac:(lia))) as Hdot.
    rewrite short_sse_dot_sum in *. rewrite short_scalar_dot_sum in *.
    cbv zeta in *. cbn [fst] in Hdot. rewrite Hdot. f_equal.
    replace (i * dim_8 + Z.of_nat (Z.to_nat dim_8)) with ((i + 1) * dim_8)
      by (pose proof dim_8_nonneg; lia).
    replace (i * dimensions nn + Z.of_nat (Z.to_nat (dimensions nn)))
      with ((i + 1) * dimensions nn) by lia.
    apply IH. intros j Hj. apply Hfit. lia.
Qed.

Lemma lanes_fit_descriptor (j : Z) :
  Short.lanes_fit nn query = true -> 0 <= j < num_elements nn ->
  descriptor_fits nn query j.
Proof.
  unfold Short.lanes_fit. rewrite forallb_forall. intros Hall Hj l Hl.
  specialize (Hall j). rewrite forallb_forall in Hall.
  assert (Hin : In j (map Z.of_nat (seq 0 (Z.to_nat (num_elements nn))))).
  { apply in_map_iff. exists (Z.to_nat j). split; [lia|].
    apply in_seq. lia. }
  specialize (Hall Hin l Hl). apply andb_true_iff in Hall.
  destruct Hall as [Hlo Hhi]. apply Z.leb_le in Hlo, Hhi. lia.
Qed.

Lemma inner_products_agree_of_fits :
  (forall j, 0 <= j < num_elements nn -> descriptor_fits nn query j) ->
  Short.inner_products SSE nn query = Short.inner_products Scalar nn query.
Proof.
  intros Hfit. unfold Short.inner_products, dots. cbn [Short.dot].
  change 0 with (0 * dim_8) at 1. change 0 with (0 * dimensions nn) at 2.
  apply dots_from_agree. intros j Hj. apply Hfit. lia.
Qed.

Lemma inner_products_agree :
  Short.lanes_fit nn query = true ->
  Short.inner_products SSE nn query = Short.inner_products Scalar nn query.
Proof.
  intros Hfit. apply inner_products_agree_of_fits. intros j Hj.
  now apply lanes_fit_descriptor.
Qed.
End PathsAgree.

(** *** Normalised descriptors

    The code takes the descriptors for "signed char vectors" of length 127.
    For a query and descriptors of squared norm at most 127^2 = 16129 the
    lane sums are bounded by the Cauchy-Schwarz inequality, so the two
    paths agree. *)

Lemma Zsum_nonneg (n : nat) (f : Z -> Z) :
  (forall k, 0 <= f k) -> 0 <= Zsum n f.
Proof.
  intros H. induction n as [|n IH]; cbn [Zsum]; [lia|].
  specialize (H (Z.of_nat n)). lia.
Qed.

Lemma Zsum_cauchy_schwarz (n : nat) (a b : Z -> Z) :
  Zsum n (fun k => a k * b k) * Zsum n (fun k => a k * b k)
  <= Zsum n (fun k => a k * a k) * Zsum n (fun k => b k * b k).
Proof.
  induction n as [|n IH]; cbn [Zsum]; [lia|].
  set (S := Zsum n (fun k => a k * b k)) in *.
  set (A := Zsum n (fun k => a k * a k)) in *.
  set (B := Zsum n (fun k => b k * b k)) in *.
  set (x := a (Z.of_nat n)). set (y := b (Z.of_nat n)).
  assert (HA : 0 <= A) by (apply Zsum_nonneg; intros; nia).
  assert (HB : 0 <= B) by (apply Zsum_nonneg; intros; nia).
  assert (Hmix : 2 * S * x * y <= A * y * y + B * x * x).
  { destruct (Z.le_gt_cases (2 * S * x * y) (A * y * y + B * x * x)) as [|Hgt];
      [assumption|exfalso].
    assert (0 <= A * y * y + B * x * x).
    { pose proof (Z.square_nonneg x). pose proof (Z.square_nonneg y).
      assert (0 <= A * (y * y)) by (apply Z.mul_nonneg_nonneg; lia).
      assert (0 <= B * (x * x)) by (apply Z.mul_nonneg_nonneg; lia). lia. }
    assert (H1 : (A * y * y + B * x * x) * (A * y * y + B * x * x)
                 < (2 * S * x * y) * (2 * S * x * y))
      by (apply Z.mul_lt_mono_nonneg; lia).
    assert (H2 : 4 * (A * B) * (x * x * y * y)
                 <= (A * y * y + B * x * x) * (A * y * y + B * x * x)).
    { pose proof (Z.square_nonneg (A * y * y - B * x * x)). nia. }
    assert (H3 : 4 * (S * S) * (x * x * y * y) <= 4 * (A * B) * (x * x * y * y)).
    { assert (0 <= x * x * y * y)
        by (replace (x * x * y * y) with ((x * y) * (x * y)) by ring;
            apply Z.square_nonneg).
      apply Z.mul_le_mono_nonneg_r; [assumption|lia]. }
    nia. }
  nia.
Qed.

Lemma Zsum_lane_le (n : nat) (f : Z -> Z) (l : Z) :
  (forall j, 0 <= f j) -> In l Short.lanes ->
  Zsum n (fun k => f (8 * k + l)) <= Zsum (8 * n) f.
Proof.
  intros Hf Hl. rewrite Zsum_lanes.
  pose proof (@Zsum_nonneg n (fun k => f (8 * k + 0)) ltac:(intros; apply Hf)).
  pose proof (@Zsum_nonneg n (fun k => f (8 * k + 1)) ltac:(intros; apply Hf)).
  pose proof (@Zsum_nonneg n (fun k => f (8 * k + 2)) ltac:(intros; apply Hf)).
  pose proof (@Zsum_nonneg n (fun k => f (8 * k + 3)) ltac:(intros; apply Hf)).
  pose proof (@Zsum_nonneg n (fun k => f (8 * k + 4)) ltac:(intros; apply Hf)).
  pose proof (@Zsum_nonneg n (fun k => f (8 * k + 5)) ltac:(intros; apply Hf)).
  pose proof (@Zsum_nonneg n (fun k => f (8 * k + 6)) ltac:(intros; apply Hf)).
  pose proof (@Zsum_nonneg n (fun k => f (8 * k + 7)) ltac:(intros; apply Hf)).
  unfold Short.lanes in Hl. simpl in Hl.
  destruct Hl as [<-|[<-|[<-|[<-|[<-|[<-|[<-|[<-|[]]]]]]]]]; lia.
Qed.

Lemma normalized_descriptor_fits nn query (i : Z) :
  (dimensions nn) mod 8 = 0 -> 0 <= dimensions nn ->
  sq_norm query 0 (dimensions nn) <= 16129 ->
  sq_norm (elements nn) (i * dimensions nn) (dimensions nn) <= 16129 ->
  descriptor_fits nn query i.
Proof.
  intros Hmod Hdim Hq Hc l Hl.
  pose proof (@dim_8_eq nn Hmod Hdim) as Hd8.
  pose proof (@dim_8_nonneg nn Hdim) as Hd8n.
  set (a := fun k => Short.load query (8 * k + l)).
  set (b := fun k => Short.load (elements nn) (i * dimensions nn + 8 * k + l)).
  pose proof (@Zsum_cauchy_schwarz (Z.to_nat (Z.quot (dimensions nn) 8)) a b)
    as Hcs.
  change (Zsum (Z.to_nat (Z.quot (dimensions nn) 8)) (fun k => a k * b k))
    with (Short.lane_sum nn query i l) in Hcs.
  assert (Ha : 0 <= Zsum (Z.to_nat (Z.quot (dimensions nn) 8))
                      (fun k => a k * a k) <= 16129).
  { split; [apply Zsum_nonneg; intros; apply Z.square_nonneg|].
    etransitivity; [|exact Hq]. unfold sq_norm.
    replace (Z.to_nat (dimensions nn))
      with (8 * Z.to_nat (Z.quot (dimensions nn) 8))%nat by lia.
    apply (@Zsum_lane_le (Z.to_nat (Z.quot (dimensions nn) 8))
             (fun j => Short.load query (0 + j) * Short.load query (0 + j)) l);
      [intros; apply Z.square_nonneg|assumption]. }
  assert (Hb : 0 <= Zsum (Z.to_nat (Z.quot (dimensions nn) 8))
                      (fun k => b k * b k) <= 16129).
  { split; [apply Zsum_nonneg; intros; apply Z.square_nonneg|].
    etransitivity; [|exact Hc]. unfold sq_norm.
    replace (Z.to_nat (dimensions nn))
      with (8 * Z.to_nat (Z.quot (dimensions nn) 8))%nat by lia.
    etransitivity;
      [|apply (@Zsum_lane_le (Z.to_nat (Z.quot (dimensions nn) 8))
                 (fun j => Short.load (elements nn) (i * dimensions nn + j)
                           * Short.load (elements nn) (i * dimensions nn + j)) l);
        [intros; apply Z.square_nonneg|assumption]].
    apply Z.eq_le_incl. apply Zsum_ext. intros k _. subst b. cbv beta.
    now rewrite Z.add_assoc. }
  set (L := Short.lane_sum nn query i l) in *.
  assert (HL : L * L <= 16129 * 16129) by nia.
  nia.
Qed.

(** X6. Quantized matcher: when the dimension is a multiple of 8 and the
    query and every stored descriptor have a squared norm of at most
    127^2 = 16129, the SSE path and the scalar path return the same
    result. *)
Corollary normalized_paths_agree nn query :
  (dimensions nn) mod 8 = 0 -> 0 <= dimensions nn ->
  sq_norm query 0 (dimensions nn) <= 16129 ->
  (forall i, 0 <= i < num_elements nn ->
     sq_norm (elements nn) (i * dimensions nn) (dimensions nn) <= 16129) ->
  Short.find SSE nn query = Short.find Scalar nn query.
Proof.
  intros Hmod Hdim Hq Hc. unfold Short.find.
  rewrite !short_scan_result_top2.
  rewrite (@inner_products_agree_of_fits nn query Hmod Hdim); [reflexivity|].
  intros j Hj. apply normalized_descriptor_fits; auto.
Qed.

(** ** Ties: which descriptors the scan keeps *)

Section TieBreak.
Variable P : Type.
Variable ltb : P -> P -> bool.
Variable ok : P -> Prop.
Hypothesis ltb_irrefl : forall x, ltb x x = false.
Hypothesis lt_asym : forall x y, ltb x y = true -> ltb y x = false.
Hypothesis lt_ok : forall x y, ltb x y = true -> ok y.
Hypothesis le_lt_trans : forall x y z, ok x -> ok y -> ok z ->
  ltb y x = false -> ltb y z = true -> ltb x z = true.
Variable lowest : P.
Hypothesis ok_lowest : ok lowest.
Variable scores : list P.

Local Abbreviation gt := (fun s d : P => ltb d s).
Local Abbreviation keep := (fun s : P => s).

(** [x <= y < z] gives [x <= z], also for an [x] outside the order. *)
Lemma le_lt_le x y z :
  ok y -> ltb y x = false -> ltb y z = true -> ltb z x = false.
Proof.
  intros Hy Hxy Hyz. destruct (ltb z x) eqn:E; [|reflexivity].
  pose proof (lt_ok E) as Hx. pose proof (lt_ok Hyz) as Hz.
  pose proof (le_lt_trans Hx Hy Hz Hxy Hyz) as Hxz.
  apply lt_asym in Hxz. congruence.
Qed.

(** [x <= y <= z] gives [x <= z]. *)
Lemma le_le_le x y z :
  ok y -> ok z -> ltb y x = false -> ltb z y = false -> ltb z x = false.
Proof.
  intros Hy Hz Hxy Hyz. destruct (ltb z x) eqn:E; [|reflexivity].
  pose proof (lt_ok E) as Hx.
  (* y <= z < x gives y < x *)
  pose proof (le_lt_trans Hy Hz Hx Hyz E) as Hyx. congruence.
Qed.

Lemma scanned_init : scanned ltb ok scores 0 (init_result lowest).
Proof.
  constructor; simpl; auto; try (intros; lia).
Qed.

Lemma scanned_step (k : nat) (r : Result P) (s : P) :
  scanned ltb ok scores k r -> nth_error scores k = Some s ->
  scanned ltb ok scores (S k) (update gt keep r (Z.of_nat k) s).
Proof.
  intros [Hok1 Hok2 Hord Hbest Hsec Hf1 Hf2 Hat1 Hat2] Hs.
  assert (Hlast : forall i x, (i < S k)%nat -> nth_error scores i = Some x ->
                  (i < k)%nat \/ (i = k /\ x = s)).
  { intros i x Hi Hx. destruct (Nat.eq_dec i k) as [->|];
      [right; split; congruence|left; lia]. }
  unfold update.
  destruct (ltb (dist_2nd_best r) s) eqn:E2;
    [destruct (ltb (dist_1st_best r) s) eqn:E1|].
  - (* new best *)
    pose proof (lt_ok E1) as Hoks.
    constructor; cbn [dist_1st_best dist_2nd_best index_1st_best index_2nd_best];
      auto.
    + intros i x Hi Hx. destruct (Hlast i x Hi Hx) as [Hlt|[-> ->]]; auto.
      apply le_lt_le with (y := dist_1st_best r); eauto.
    + intros i x Hi Hx Hne. destruct (Hlast i x Hi Hx) as [Hlt|[-> ->]];
        [eauto|lia].
    + intros i x Hx Hokx Hi.
      apply le_lt_trans with (y := dist_1st_best r); auto.
      apply (Hbest i); [lia|assumption].
    + intros i x Hx Hokx Hi Hne. eauto.
    + destruct (Nat.eq_dec k 0) as [->|]; [left; reflexivity|right].
      rewrite Nat2Z.id. split; [lia|assumption].
    + destruct Hat1 as [|[Hr Hn]]; [left; assumption|right].
      split; [lia|assumption].
  - (* new second best *)
    pose proof (lt_ok E2) as Hoks.
    constructor; cbn [dist_1st_best dist_2nd_best index_1st_best index_2nd_best];
      auto.
    + intros i x Hi Hx. destruct (Hlast i x Hi Hx) as [Hlt|[-> ->]]; eauto.
    + intros i x Hi Hx Hne. destruct (Hlast i x Hi Hx) as [Hlt|[-> ->]]; auto.
      apply le_lt_le with (y := dist_2nd_best r); eauto.
    + intros i x Hx Hokx Hi Hne.
      apply le_lt_trans with (y := dist_2nd_best r); auto.
      apply (Hsec i); [lia|assumption|assumption].
    + destruct Hat1 as [|[Hr Hn]]; [left; assumption|right].
      split; [lia|assumption].
    + destruct (Nat.eq_dec k 0) as [->|]; [left; reflexivity|right].
      rewrite Nat2Z.id. split; [lia|assumption].
  - (* no update *)
    constructor; auto.
    + intros i x Hi Hx. destruct (Hlast i x Hi Hx) as [Hlt|[-> ->]]; eauto.
      apply le_le_le with (y := dist_2nd_best r); auto.
    + intros i x Hi Hx Hne. destruct (Hlast i x Hi Hx) as [Hlt|[-> ->]]; eauto.
    + destruct Hat1 as [|[Hr Hn]]; [left; assumption|right].
      split; [lia|assumption].
    + destruct Hat2 as [|[Hr Hn]]; [left; assumption|right].
      split; [lia|assumption].
Qed.

Lemma firstn_snoc (l : list P) : forall (k : nat) (s : P),
  nth_error l k = Some s -> firstn (S k) l = firstn k l ++ [s].
Proof.
  induction l as [|x l IH]; intros k s H.
  - destruct k; discriminate.
  - destruct k as [|k]; simpl in *.
    + now inversion H.
    + f_equal. now apply IH.
Qed.

Lemma scanned_prefix (k : nat) :
  (k <= length scores)%nat ->
  scanned ltb ok scores k (top2 gt keep (init_result lowest) 0 (firstn k scores)).
Proof.
  induction k as [|k IH]; intros Hk.
  - simpl. apply scanned_init.
  - destruct (nth_error scores k) as [s|] eqn:Es.
    2: { apply nth_error_None in Es. lia. }
    rewrite (firstn_snoc _ _ Es), top2_app. cbn [top2].
    rewrite length_firstn, Nat.min_l by lia.
    apply scanned_step; [apply IH; lia|assumption].
Qed.

Lemma scanned_all :
  scanned ltb ok scores (length scores) (top2 gt keep (init_result lowest) 0 scores).
Proof.
  pose proof (scanned_prefix (Nat.le_refl (length scores))) as H.
  now rewrite firstn_all in H.
Qed.

(** Whenever an earlier score is at least a later one, the later descriptor
    is not reported as best, and it is reported as second best only next to
    the earlier one as best. *)
Lemma top2_keeps_earlier (i j : nat) (si sj : P) :
  let r := top2 gt keep (init_result lowest) 0 scores in
  (i < j)%nat -> nth_error scores i = Some si -> nth_error scores j = Some sj ->
  ok si -> ltb si sj = false ->
  index_1st_best r <> Z.of_nat j
  /\ (index_2nd_best r = Z.of_nat j -> index_1st_best r = Z.of_nat i).
Proof.
  cbv zeta. intros Hij Hi Hj Hok Hle.
  destruct scanned_all as [_ _ _ _ _ Hf1 Hf2 Hat1 Hat2].
  set (r := top2 gt keep (init_result lowest) 0 scores) in *.
  split.
  - intros H1. destruct Hat1 as [H0|[_ Hn]]; [lia|].
    rewrite H1, Nat2Z.id, Hj in Hn. inversion Hn as [Hd].
    specialize (Hf1 i si Hi Hok ltac:(lia)). congruence.
  - intros H2. destruct Hat2 as [H0|[_ Hn]]; [lia|].
    rewrite H2, Nat2Z.id, Hj in Hn. inversion Hn as [Hd].
    destruct (Z.eq_dec (Z.of_nat i) (index_1st_best r)) as [|Hne]; [auto|].
    specialize (Hf2 i si Hi Hok ltac:(lia) Hne). congruence.
Qed.

(** The distance fields hold the two largest scores, or the initial value. *)
Lemma top2_best_is_max (i : nat) (s : P) :
  let r := top2 gt keep (init_result lowest) 0 scores in
  nth_error scores i = Some s ->
  ltb (dist_1st_best r) s = false
  /\ (Z.of_nat i <> index_1st_best r -> ltb (dist_2nd_best r) s = false).
Proof.
  cbv zeta. intros Hi.
  destruct scanned_all as [_ _ _ Hbest Hsec _ _ _ _].
  assert (i < length scores)%nat by (apply nth_error_Some; congruence).
  split; eauto.
Qed.
End TieBreak.

(** ** The order of binary32 numbers *)

Lemma SFltb_key (x y : spec_float) :
  x <> S754_nan -> y <> S754_nan ->
  (SFltb x y = true <-> lex_lt (float_key x) (float_key y)).
Proof.
  intros Hx Hy. unfold SFltb, lex_lt.
  destruct x as [sx|sx| |sx mx ex], y as [sy|sy| |sy my ey];
    try congruence; simpl;
    try (destruct sx; simpl; split; intros;
         try discriminate; try reflexivity; lia);
    try (destruct sy; simpl; split; intros;
         try discriminate; try reflexivity; lia);
    try (destruct sx, sy; simpl; split; intros;
         try discriminate; try reflexivity; lia).
  change (PosDef.Pos.compare_cont Eq mx my) with (Pos.compare mx my).
  destruct sx, sy; simpl;
    try (split; intros; try discriminate; try reflexivity; lia);
    destruct (Z.compare_spec ex ey); destruct (Pos.compare_spec mx my); simpl;
    split; intros; try discriminate; try reflexivity; try lia.
Qed.

Lemma SFltb_key_false (x y : spec_float) :
  x <> S754_nan -> y <> S754_nan ->
  (SFltb x y = false <-> ~ lex_lt (float_key x) (float_key y)).
Proof.
  intros Hx Hy. rewrite <- (SFltb_key Hx Hy).
  destruct (SFltb x y); split; congruence.
Qed.

Lemma flt_irrefl x : Float.flt x x = false.
Proof.
  destruct (SFcompare x x) as [c|] eqn:E; unfold Float.flt, SFltb; rewrite E;
    [|reflexivity].
  pose proof (SFcompare_antisym _ _ E) as E'. rewrite E in E'.
  destruct c; simpl in E'; congruence.
Qed.

Lemma flt_asym x y : Float.flt x y = true -> Float.flt y x = false.
Proof.
  unfold Float.flt, SFltb. destruct (SFcompare x y) as [c|] eqn:E;
    [|discriminate].
  rewrite (SFcompare_antisym _ _ E). destruct c; simpl; congruence.
Qed.

Lemma flt_le_lt_trans x y z :
  x <> S754_nan -> y <> S754_nan -> z <> S754_nan ->
  Float.flt y x = false -> Float.flt y z = true -> Float.flt x z = true.
Proof.
  intros Hx Hy Hz. unfold Float.flt.
  rewrite (SFltb_key_false Hy Hx), (SFltb_key Hy Hz), (SFltb_key Hx Hz).
  unfold lex_lt. lia.
Qed.

Lemma flt_le_trans x y z :
  x <> S754_nan -> y <> S754_nan -> z <> S754_nan ->
  Float.flt y x = false -> Float.flt z y = false -> Float.flt z x = false.
Proof.
  intros Hx Hy Hz. unfold Float.flt.
  rewrite (SFltb_key_false Hy Hx), (SFltb_key_false Hz Hy),
    (SFltb_key_false Hz Hx).
  unfold lex_lt. lia.
Qed.

(** ** Quantized scores that fit the distance fields *)

Lemma short_update_no_wrap r i s :
  s <= 32767 -> -32767 <= dist_2nd_best r ->
  update Short.gt to_short r i s = update Short.gt (fun ip => ip) r i s.
Proof.
  intros Hs Hr. unfold update, Short.gt.
  destruct (dist_2nd_best r <? s) eqn:E2; [|reflexivity].
  apply Z.ltb_lt in E2. now rewrite to_short_small by lia.
Qed.

Lemma short_top2_no_wrap (scores : list Z) : forall r i,
  Forall (fun s => s <= 32767) scores ->
  -32767 <= dist_2nd_best r <= dist_1st_best r ->
  top2 Short.gt to_short r i scores = top2 Short.gt (fun ip => ip) r i scores.
Proof.
  induction scores as [|s rest IH]; intros r i Hall Hr.
  - reflexivity.
  - inversion Hall; subst. cbn [top2].
    rewrite <- short_update_no_wrap by lia.
    apply IH; [assumption|]. now apply short_update_ordered.
Qed.

Lemma short_top2_keeps_earlier (scores : list Z) (i j : nat) (s : Z) :
  let r := top2 Short.gt (fun ip => ip) (init_result (-32767)) 0 scores in
  (i < j)%nat -> nth_error scores i = Some s -> nth_error scores j = Some s ->
  index_1st_best r <> Z.of_nat j
  /\ (index_2nd_best r = Z.of_nat j -> index_1st_best r = Z.of_nat i).
Proof.
  intros r Hij Hi Hj.
  apply (@top2_keeps_earlier Z Z.ltb (fun _ => True)) with (si := s) (sj := s);
    try assumption; try exact I; try apply Z.ltb_irrefl.
  - intros x y H. apply Z.ltb_lt in H. apply Z.ltb_ge. lia.
  - intros; exact I.
  - intros x y z _ _ _ H1 H2. apply Z.ltb_ge in H1. apply Z.ltb_lt in H2.
    apply Z.ltb_lt. lia.
Qed.

Lemma flt_not_nan x y : Float.flt x y = true -> y <> S754_nan.
Proof. intros H ->. destruct x; discriminate. Qed.

Lemma feqb_not_flt x y : SFeqb x y = true -> Float.flt y x = false.
Proof.
  unfold SFeqb, Float.flt, SFltb.
  destruct (SFcompare x y) as [[| |]|] eqn:E; try discriminate.
  intros _. now rewrite (SFcompare_antisym _ _ E).
Qed.

Lemma feqb_not_nan x y : SFeqb x y = true -> x <> S754_nan.
Proof. intros H ->. discriminate. Qed.

Lemma float_top2_keeps_earlier (scores : list spec_float) (i j : nat)
    (si sj : spec_float) :
  let r := top2 Float.gt (fun ip => ip)
             (init_result (SFopp Float.FLT_MAX)) 0 scores in
  (i < j)%nat -> nth_error scores i = Some si -> nth_error scores j = Some sj ->
  SFeqb sj si = true ->
  index_1st_best r <> Z.of_nat j
  /\ (index_2nd_best r = Z.of_nat j -> index_1st_best r = Z.of_nat i).
Proof.
  intros r Hij Hi Hj Heq.
  apply (@top2_keeps_earlier spec_float Float.flt (fun x => x <> S754_nan))
    with (si := si) (sj := sj); try assumption.
  - exact flt_irrefl.
  - exact flt_asym.
  - exact flt_not_nan.
  - exact flt_le_lt_trans.
  - discriminate.
  - intros ->. destruct sj; discriminate.
  - now apply feqb_not_flt.
Qed.

(** C5, as the code has it.  The comparisons of the scan are strict: an
    element whose score equals the running best held in the result does not
    replace the best, and one whose score equals the running second best
    changes nothing.  For the whole scan: of two descriptors with equal
    inner product, the later one is never reported as best, and it is
    reported as second best only with the earlier one as best.  In the float
    matcher this holds for every input; in the quantized matcher it holds
    when no inner product exceeds 32767, the largest value the [short]
    distance fields can hold. *)
Theorem ties_keep_earlier :
  (forall r i ip,
     let r' := update Short.gt to_short r i ip in
     (ip = dist_1st_best r ->
      index_1st_best r' = index_1st_best r
      /\ dist_1st_best r' = dist_1st_best r)
     /\ (ip = dist_2nd_best r -> r' = r))
  /\
  (forall r i ip,
     let r' := update Float.gt (fun s => s) r i ip in
     (SFeqb ip (dist_1st_best r) = true ->
      index_1st_best r' = index_1st_best r
      /\ dist_1st_best r' = dist_1st_best r)
     /\ (SFeqb ip (dist_2nd_best r) = true -> r' = r))
  /\
  (forall path nn query (i j : nat) s,
     let ips := Short.inner_products path nn query in
     let r := Short.find path nn query in
     Forall (fun ip => ip <= 32767) ips ->
     (i < j)%nat -> nth_error ips i = Some s -> nth_error ips j = Some s ->
     index_1st_best r <> Z.of_nat j
     /\ (index_2nd_best r = Z.of_nat j -> index_1st_best r = Z.of_nat i))
  /\
  (forall path nn query (i j : nat) si sj,
     let ips := Float.inner_products path nn query in
     let r := Float.find path nn query in
     (i < j)%nat -> nth_error ips i = Some si -> nth_error ips j = Some sj ->
     SFeqb sj si = true ->
     index_1st_best r <> Z.of_nat j
     /\ (index_2nd_best r = Z.of_nat j -> index_1st_best r = Z.of_nat i)).
Proof.
  split; [|split; [|split]].
  - intros r i ip. cbv zeta. unfold update, Short.gt. split.
    + intros ->. rewrite Z.ltb_irrefl.
      destruct (dist_2nd_best r <? dist_1st_best r); split; reflexivity.
    + intros ->. now rewrite Z.ltb_irrefl.
  - intros r i ip. cbv zeta. unfold update, Float.gt. split.
    + intros H. rewrite (feqb_not_flt _ _ H).
      destruct (Float.flt (dist_2nd_best r) ip); split; reflexivity.
    + intros H. now rewrite (feqb_not_flt _ _ H).
  - intros path nn query i j s ips r Hfit Hij Hi Hj. subst r ips.
    unfold Short.find, Short.finalize.
    cbn [index_1st_best index_2nd_best].
    rewrite short_scan_result_top2.
    rewrite short_top2_no_wrap by (assumption || (simpl; lia)).
    now apply short_top2_keeps_earlier with (s := s).
  - intros path nn query i j si sj ips r Hij Hi Hj Heq. subst r ips.
    unfold Float.find, Float.finalize.
    cbn [index_1st_best index_2nd_best].
    rewrite float_scan_result_top2.
    now apply float_top2_keeps_earlier with (si := si) (sj := sj).
Qed.

Lemma ties_keep_earlier_witness :
  let nn := {| dimensions := 2; num_elements := 3;
               elements := [60; 80; 80; 60; 60; 80] |} in
  let r := Short.find Scalar nn [60; 80] in
  index_1st_best r <> 2 /\ (index_2nd_best r = 2 -> index_1st_best r = 0).
Proof.
  cbv zeta.
  apply (proj1 (proj2 (proj2 ties_keep_earlier)) Scalar
           {| dimensions := 2; num_elements := 3;
              elements := [60; 80; 80; 60; 60; 80] |} [60; 80]
           0%nat 2%nat 10000).
  - vm_compute. repeat constructor; discriminate.
  - lia.
  - reflexivity.
  - reflexivity.
Defined.

(** C5, counterexample.  Three stored descriptors equal to the query, with
    8-bit components: the three inner products are 48387, each is stored in
    the [short] field as -17149 and beaten by the next, and the first
    descriptor, tied with the other two, is not in the result. *)
Lemma tie_drops_earlier_descriptor :
  let nn := {| dimensions := 3; num_elements := 3;
               elements := [127; 127; 127; 127; 127; 127; 127; 127; 127] |} in
  let query := [127; 127; 127] in
  Short.inner_products Scalar nn query = [48387; 48387; 48387]
  /\ Short.find Scalar nn query
     = {| dist_1st_best := 32258; dist_2nd_best := 32258;
          index_1st_best := 2; index_2nd_best := 1 |}.
Proof. vm_compute. split; reflexivity. Qed.

(** ** Rounding of binary32 results *)

Unset Implicit Arguments.

Lemma iter_pos_eq {A : Type} (f : A -> A) (n : positive) : forall x,
  iter_pos f n x = Pos.iter f x n.
Proof.
  induction n as [n IH|n IH|]; intros x; simpl.
  - rewrite !IH. now rewrite <- !Pos.iter_swap.
  - now rewrite !IH.
  - reflexivity.
Qed.

Lemma pos_iter_xO (m k : positive) :
  Zpos (Pos.iter xO m k) = Zpos m * 2 ^ Zpos k.
Proof.
  induction k as [|k IH] using Pos.peano_ind.
  - simpl. lia.
  - rewrite Pos.iter_succ, Pos2Z.inj_succ, Z.pow_succ_r by lia.
    rewrite Pos2Z.inj_xO, IH. lia.
Qed.

Lemma shl_align_fst (m : positive) (ex ez : Z) :
  ez <= ex -> Zpos (fst (shl_align m ex ez)) = Zpos m * 2 ^ (ex - ez).
Proof.
  intros H. unfold shl_align.
  destruct (ez - ex) as [|d|d] eqn:E; try lia.
  - replace (ex - ez) with 0 by lia. cbn [fst]. rewrite Z.pow_0_r. lia.
  - cbn [fst]. rewrite pos_iter_xO. f_equal. f_equal. lia.
Qed.

Lemma shl_align_snd (m : positive) (ex ez : Z) :
  ez <= ex -> snd (shl_align m ex ez) = ez.
Proof.
  intros H. unfold shl_align.
  destruct (ez - ex) as [|d|d] eqn:E; simpl; lia.
Qed.

Lemma digits2_pos_spec (p : positive) :
  2 ^ (Zpos (digits2_pos p) - 1) <= Zpos p < 2 ^ Zpos (digits2_pos p).
Proof.
  induction p as [p IH|p IH|]; simpl digits2_pos.
  - rewrite Pos2Z.inj_succ. replace (Z.succ (Zpos (digits2_pos p)) - 1)
      with (Z.succ (Zpos (digits2_pos p) - 1)) by lia.
    rewrite !Z.pow_succ_r by lia. lia.
  - rewrite Pos2Z.inj_succ. replace (Z.succ (Zpos (digits2_pos p)) - 1)
      with (Z.succ (Zpos (digits2_pos p) - 1)) by lia.
    rewrite !Z.pow_succ_r by lia. lia.
  - simpl. lia.
Qed.

Lemma digits2_pos_unique (p : positive) (k : Z) :
  2 ^ (k - 1) <= Zpos p < 2 ^ k -> Zpos (digits2_pos p) = k.
Proof.
  intros [Hlo Hhi]. pose proof (digits2_pos_spec p) as [Hlo' Hhi'].
  assert (0 < k).
  { destruct (Z.lt_ge_cases 0 k) as [|Hk]; [assumption|].
    assert (2 ^ k <= 2 ^ 0) by (destruct (Z.eq_dec k 0) as [->|]; [lia|rewrite Z.pow_neg_r by lia; simpl; lia]).
    simpl in H. lia. }
  destruct (Z.lt_trichotomy (Zpos (digits2_pos p)) k) as [Hlt|[Heq|Hgt]];
    [|assumption|].
  - assert (2 ^ Zpos (digits2_pos p) <= 2 ^ (k - 1))
      by (apply Z.pow_le_mono_r; lia). lia.
  - assert (2 ^ k <= 2 ^ (Zpos (digits2_pos p) - 1))
      by (apply Z.pow_le_mono_r; lia). lia.
Qed.

Lemma shr_1_m (mrs : shr_record) :
  0 <= shr_m mrs -> shr_m (shr_1 mrs) = shr_m mrs / 2.
Proof.
  destruct mrs as [m r s]. cbn [shr_m]. intros Hm.
  destruct m as [|[p|p|]|p]; cbn [shr_1 shr_m]; try lia; try reflexivity.
  - apply Z.div_unique with 1; lia.
  - apply Z.div_unique with 0; lia.
Qed.

Lemma shr_iter_m (n : positive) (mrs : shr_record) :
  0 <= shr_m mrs ->
  shr_m (iter_pos shr_1 n mrs) = shr_m mrs / 2 ^ Zpos n.
Proof.
  intros Hm. rewrite iter_pos_eq.
  induction n as [|n IH] using Pos.peano_ind.
  - simpl. now rewrite shr_1_m.
  - rewrite Pos.iter_succ, shr_1_m, IH.
    + rewrite Pos2Z.inj_succ, Z.pow_succ_r by lia.
      rewrite Z.div_div by (try apply Z.pow_pos_nonneg; lia).
      f_equal. lia.
    + rewrite IH. apply Z.div_pos; [assumption|apply Z.pow_pos_nonneg; lia].
Qed.

Lemma shr_spec (mrs : shr_record) (e n : Z) :
  0 <= n -> 0 <= shr_m mrs ->
  shr_m (fst (shr mrs e n)) = shr_m mrs / 2 ^ n /\ snd (shr mrs e n) = e + n.
Proof.
  intros Hn Hm. unfold shr. destruct n as [|p|p]; try lia.
  - cbn [fst snd]. rewrite Z.pow_0_r, Z.div_1_r. lia.
  - cbn [fst snd]. split; [now apply shr_iter_m|reflexivity].
Qed.

Lemma shr_record_of_loc_m (m : Z) (l : location) :
  shr_m (shr_record_of_loc m l) = m.
Proof. destruct l as [|[| |]]; reflexivity. Qed.

Lemma round_nearest_even_bounds (m : Z) (l : location) :
  m <= round_nearest_even m l <= m + 1.
Proof.
  unfold round_nearest_even. destruct l as [|[| |]]; try lia.
  destruct (Z.even m); lia.
Qed.

Lemma fexp_normal (x : Z) : -125 <= x -> fexp 24 128 x = x - 24.
Proof. intros H. unfold fexp, emin. lia. Qed.

Lemma div_pow2_digits (M : positive) (n : Z) :
  0 <= n -> Zpos (digits2_pos M) - n = 24 ->
  8388608 <= Zpos M / 2 ^ n < 16777216.
Proof.
  intros Hn HD. pose proof (digits2_pos_spec M) as [Hlo Hhi].
  replace (Zpos (digits2_pos M)) with (24 + n) in * by lia.
  replace (24 + n - 1) with (23 + n) in Hlo by lia.
  rewrite Z.pow_add_r in Hlo, Hhi by lia.
  change (2 ^ 23) with 8388608 in Hlo. change (2 ^ 24) with 16777216 in Hhi.
  assert (0 < 2 ^ n) by (apply Z.pow_pos_nonneg; lia).
  split.
  - apply Z.div_le_lower_bound; lia.
  - apply Z.div_lt_upper_bound; lia.
Qed.

Lemma binary_round_aux_ge_one (M : positive) (E : Z) (l : location) :
  24 <= Zpos (digits2_pos M) -> 1 <= Zpos (digits2_pos M) + E ->
  at_least_one (binary_round_aux 24 128 false (Zpos M) E l).
Proof.
  intros HD HE. unfold binary_round_aux, shr_fexp.
  cbn [Zdigits2]. rewrite fexp_normal by lia.
  set (D := Zpos (digits2_pos M)) in *.
  destruct (shr_spec (shr_record_of_loc (Zpos M) l) E (D + E - 24 - E))
    as [Hm1 He1]; [lia|rewrite shr_record_of_loc_m; lia|].
  destruct (shr (shr_record_of_loc (Zpos M) l) E (D + E - 24 - E))
    as [mrs1 e1]. cbn [fst snd] in Hm1, He1.
  rewrite shr_record_of_loc_m in Hm1.
  pose proof (@div_pow2_digits M (D + E - 24 - E) ltac:(lia) ltac:(subst D; lia))
    as Hb. rewrite <- Hm1 in Hb.
  pose proof (round_nearest_even_bounds (shr_m mrs1) (loc_of_shr_record mrs1))
    as Hr.
  destruct (round_nearest_even (shr_m mrs1) (loc_of_shr_record mrs1))
    as [|q|q] eqn:Eq; try lia.
  cbn [Zdigits2 shr_record_of_loc].
  destruct (Z.eq_dec (Zpos q) 16777216) as [Hq|Hq].
  - (* the rounding carried into the next binade *)
    injection Hq as ->. cbn [digits2_pos Pos.succ].
    rewrite fexp_normal by lia.
    replace (25 + e1 - 24 - e1) with 1 by lia.
    cbn. destruct (e1 + 1 <=? 104); cbn; lia.
  - assert (Hdq : Zpos (digits2_pos q) = 24)
      by (apply digits2_pos_unique; simpl; lia).
    rewrite Hdq, fexp_normal by lia.
    replace (24 + e1 - 24 - e1) with 0 by lia.
    cbn. destruct (e1 <=? 104); cbn; lia.
Qed.

Lemma binary_round_aux_exact (s : bool) (M : positive) (E : Z) :
  Zpos (digits2_pos M) = 24 -> -149 <= E <= 104 ->
  binary_round_aux 24 128 s (Zpos M) E loc_Exact = S754_finite s M E.
Proof.
  intros HD HE. unfold binary_round_aux, shr_fexp.
  cbn [Zdigits2 shr_record_of_loc]. rewrite HD.
  replace (fexp 24 128 (24 + E) - E) with 0 by (unfold fexp, emin; lia).
  cbn [shr shr_m loc_of_shr_record round_nearest_even Zdigits2
       shr_record_of_loc].
  rewrite HD.
  replace (fexp 24 128 (24 + E) - E) with 0 by (unfold fexp, emin; lia).
  cbn [shr shr_m]. change (128 - 24) with 104.
  destruct (E <=? 104) eqn:El; [reflexivity|apply Z.leb_gt in El; lia].
Qed.

Lemma binary_round_ge_one (M : positive) (E : Z) :
  1 <= Zpos (digits2_pos M) + E ->
  at_least_one (binary_round 24 128 false M E).
Proof.
  intros HE. unfold binary_round. rewrite fexp_normal by lia.
  destruct (shl_align M E (Zpos (digits2_pos M) + E - 24)) as [mz ez] eqn:Es.
  destruct (Z.le_gt_cases 24 (Zpos (digits2_pos M))) as [HD|HD].
  - unfold shl_align in Es.
    destruct (Zpos (digits2_pos M) + E - 24 - E) eqn:En; try lia;
      injection Es as <- <-; now apply binary_round_aux_ge_one.
  - pose proof (@shl_align_fst M E (Zpos (digits2_pos M) + E - 24) ltac:(lia))
      as Hf.
    pose proof (@shl_align_snd M E (Zpos (digits2_pos M) + E - 24) ltac:(lia))
      as Hs.
    rewrite Es in Hf, Hs. cbn [fst snd] in Hf, Hs.
    assert (Hdz : Zpos (digits2_pos mz) = 24).
    { apply digits2_pos_unique. rewrite Hf.
      pose proof (digits2_pos_spec M) as [Hlo Hhi].
      set (D := Zpos (digits2_pos M)) in *.
      replace (E - (D + E - 24)) with (24 - D) by lia.
      assert (H23 : 2 ^ (24 - 1) = 2 ^ (D - 1) * 2 ^ (24 - D))
        by (rewrite <- Z.pow_add_r by lia; f_equal; lia).
      assert (H24 : 2 ^ 24 = 2 ^ D * 2 ^ (24 - D))
        by (rewrite <- Z.pow_add_r by lia; f_equal; lia).
      rewrite H23, H24.
      assert (0 < 2 ^ (24 - D)) by (apply Z.pow_pos_nonneg; lia).
      split; [apply Z.mul_le_mono_nonneg_r; lia
             |apply Z.mul_lt_mono_pos_r; lia]. }
    apply binary_round_aux_ge_one; lia.
Qed.

Lemma digits_mul_2_23 (m : positive) :
  Zpos (digits2_pos (8388608 * m)) = Zpos (digits2_pos m) + 23.
Proof.
  apply digits2_pos_unique. pose proof (digits2_pos_spec m) as [Hlo Hhi].
  rewrite Pos2Z.inj_mul.
  replace (Zpos (digits2_pos m) + 23 - 1) with (23 + (Zpos (digits2_pos m) - 1))
    by lia.
  rewrite (Z.add_comm _ 23), !Z.pow_add_r by lia.
  change (2 ^ 23) with 8388608. change (Zpos 8388608) with 8388608. lia.
Qed.

Lemma fmul_two_normal (s : bool) (m : positive) (e : Z) :
  Zpos (digits2_pos m) = 24 -> -149 <= e ->
  Float.fmul Float.two (S754_finite s m e)
  = if e + 1 <=? 104 then S754_finite s m (e + 1) else S754_infinity s.
Proof.
  intros HD He. unfold Float.fmul, Float.two, SFmul, binary_round_aux, shr_fexp.
  cbn [xorb Zdigits2]. rewrite digits_mul_2_23, HD.
  replace (fexp Float.prec Float.emax (24 + 23 + (-22 + e)) - (-22 + e))
    with 23 by (unfold fexp, emin, Float.prec, Float.emax; lia).
  cbn [Pos.mul shr_record_of_loc shr iter_pos shr_1 shr_m loc_of_shr_record
       round_nearest_even orb Zdigits2].
  rewrite HD.
  replace (fexp Float.prec Float.emax (24 + (-22 + e + 23)) - (-22 + e + 23))
    with 0 by (unfold fexp, emin, Float.prec, Float.emax; lia).
  cbn [shr shr_m]. unfold Float.emax, Float.prec. change (128 - 24) with 104.
  replace (-22 + e + 23) with (e + 1) by lia. reflexivity.
Qed.

Lemma fmul_two_subnormal (s : bool) (m : positive) :
  Zpos (digits2_pos m) <= 23 ->
  Float.fmul Float.two (S754_finite s m (-149)) = S754_finite s m~0 (-149).
Proof.
  intros HD. unfold Float.fmul, Float.two, SFmul, binary_round_aux, shr_fexp.
  cbn [xorb Zdigits2]. rewrite digits_mul_2_23.
  replace (fexp Float.prec Float.emax
             (Zpos (digits2_pos m) + 23 + (-22 + -149)) - (-22 + -149))
    with 22 by (unfold fexp, emin, Float.prec, Float.emax; lia).
  cbn [Pos.mul shr_record_of_loc shr iter_pos shr_1 shr_m loc_of_shr_record
       round_nearest_even orb Zdigits2 digits2_pos].
  rewrite Pos2Z.inj_succ.
  replace (fexp Float.prec Float.emax
             (Z.succ (Zpos (digits2_pos m)) + (-22 + -149 + 22))
           - (-22 + -149 + 22))
    with 0 by (unfold fexp, emin, Float.prec, Float.emax; lia).
  cbn [shr shr_m]. reflexivity.
Qed.

Lemma valid32_finite (s : bool) (m : positive) (e : Z) :
  valid32 (S754_finite s m e) ->
  -149 <= e <= 104
  /\ (Zpos (digits2_pos m) = 24 \/ (e = -149 /\ Zpos (digits2_pos m) <= 23)).
Proof.
  unfold valid32, valid_binary, bounded, canonical_mantissa, fexp, emin.
  intros H. apply andb_true_iff in H. destruct H as [Hc He].
  apply Z.eqb_eq in Hc. apply Z.leb_le in He. lia.
Qed.

Lemma digits2_pos_lower (p : positive) (k : Z) :
  2 ^ k <= Zpos p -> k + 1 <= Zpos (digits2_pos p).
Proof.
  intros H. pose proof (digits2_pos_spec p) as [_ Hhi].
  destruct (Z.lt_ge_cases k (Zpos (digits2_pos p))) as [|Hge]; [lia|].
  assert (2 ^ Zpos (digits2_pos p) <= 2 ^ k) by (apply Z.pow_le_mono_r; lia).
  lia.
Qed.

Lemma digits2_pos_mono (p q : positive) :
  (p <= q)%positive -> Zpos (digits2_pos p) <= Zpos (digits2_pos q).
Proof.
  intros H. pose proof (digits2_pos_spec p) as [Hlo _].
  apply digits2_pos_lower with (k := Zpos (digits2_pos p) - 1) in Hlo as Hp.
  assert (2 ^ (Zpos (digits2_pos p) - 1) <= Zpos q) by lia.
  apply digits2_pos_lower in H0. lia.
Qed.

(** Results with a negative sign are never above zero. *)
Lemma binary_round_aux_neg (m e : Z) (l : location) :
  Float.flt Float.zero (binary_round_aux 24 128 true m e l) = false.
Proof.
  unfold binary_round_aux.
  destruct (shr_fexp 24 128 m e l) as [mrs' e'].
  destruct (shr_fexp 24 128 _ e' loc_Exact) as [mrs'' e''].
  destruct (shr_m mrs''); [reflexivity| |reflexivity].
  destruct (e'' <=? 128 - 24); reflexivity.
Qed.

Lemma binary_round_neg (m : positive) (e : Z) :
  Float.flt Float.zero (binary_round 24 128 true m e) = false.
Proof.
  unfold binary_round. destruct (shl_align m e _) as [mz ez].
  apply binary_round_aux_neg.
Qed.

Lemma clamp_not_positive (y : spec_float) :
  Float.flt Float.zero y = false ->
  Float.std_min Float.one (Float.std_max Float.zero y) = Float.zero.
Proof. intros H. unfold Float.std_max. now rewrite H. Qed.

Lemma clamp_at_least_one (y : spec_float) :
  at_least_one y ->
  Float.std_min Float.one (Float.std_max Float.zero y) = Float.one.
Proof.
  destruct y as [s|[|]| |[|] m e]; simpl; try contradiction.
  - reflexivity.
  - intros [He Hm]. unfold Float.std_min, Float.std_max, Float.flt, SFltb.
    cbn [SFcompare Float.zero Float.one].
    destruct (Z.compare_spec e (-23)) as [->|Hlt|Hgt]; try lia; [|reflexivity].
    change (PosDef.Pos.compare_cont Eq m 8388608) with (Pos.compare m 8388608).
    destruct (Pos.compare_spec m 8388608) as [->|Hlt|Hgt];
      try reflexivity; lia.
Qed.

(** At or above one the distance is zero. *)
Lemma distance_high (d : spec_float) :
  valid32 d -> Float.fle Float.one d = true -> Float.distance d = Float.zero.
Proof.
  intros Hv Hle. unfold Float.distance.
  destruct d as [s|[|]| |[|] m e]; try discriminate; [reflexivity|].
  unfold Float.fle, SFleb in Hle. cbn [SFcompare Float.one] in Hle.
  change (PosDef.Pos.compare_cont Eq 8388608 m) with (Pos.compare 8388608 m) in Hle.
  apply valid32_finite in Hv. destruct Hv as [He Hd].
  assert (He' : -23 <= e).
  { destruct (Z.compare_spec (-23) e); try lia; try discriminate. }
  destruct Hd as [Hd|[? _]]; [|lia].
  rewrite fmul_two_normal by lia.
  destruct (e + 1 <=? 104); [|reflexivity].
  apply clamp_not_positive.
  unfold Float.fsub, Float.two, SFsub.
  replace (Z.min (-22) (e + 1)) with (-22) by lia.
  pose proof (@shl_align_fst 8388608 (-22) (-22) ltac:(lia)) as Ha.
  pose proof (@shl_align_fst m (e + 1) (-22) ltac:(lia)) as Hb.
  pose proof (digits2_pos_spec m) as [Hlo _]. rewrite Hd in Hlo.
  change (2 ^ (24 - 1)) with 8388608 in Hlo.
  assert (0 < 2 ^ (e + 1 - -22)) by (apply Z.pow_pos_nonneg; lia).
  cbn [cond_Zopp].
  destruct (Zpos (fst (shl_align 8388608 (-22) (-22)))
            - Zpos (fst (shl_align m (e + 1) (-22)))) as [|p|p] eqn:Ed.
  - reflexivity.
  - exfalso. change (-22 - -22) with 0 in Ha. rewrite Z.pow_0_r in Ha. nia.
  - cbn [binary_normalize]. apply binary_round_neg.
Qed.

Lemma fsub_two_neg_ge_one (mt : positive) (et : Z) :
  at_least_one (Float.fsub Float.two (S754_finite true mt et)).
Proof.
  unfold Float.fsub, Float.two, SFsub. cbn [cond_Zopp].
  set (ez := Z.min (-22) et).
  pose proof (@shl_align_fst 8388608 (-22) ez ltac:(subst ez; lia)) as Ha.
  destruct (fst (shl_align 8388608 (-22) ez)) as [a|a|] eqn:Ea;
    destruct (fst (shl_align mt et ez)) as [b|b|] eqn:Eb;
    cbn [Z.opp Z.sub Z.add binary_normalize];
    apply binary_round_ge_one;
    match goal with
    | |- 1 <= Zpos (digits2_pos ?p) + _ =>
        assert (Hp : 2 ^ (1 - ez) <= Zpos p);
          [|apply digits2_pos_lower in Hp; lia]
    end;
    (replace (1 - ez) with (23 + (-22 - ez)) by lia;
     rewrite Z.pow_add_r by (subst ez; lia);
     change (2 ^ 23) with 8388608; lia).
Qed.

Lemma fsub_two_small_ge_one (mt : positive) (et : Z) :
  et <= -23 -> Zpos mt <= 2 ^ (- et) ->
  at_least_one (Float.fsub Float.two (S754_finite false mt et)).
Proof.
  intros Het Hmt. unfold Float.fsub, Float.two, SFsub. cbn [cond_Zopp].
  replace (Z.min (-22) et) with et by lia.
  pose proof (@shl_align_fst 8388608 (-22) et ltac:(lia)) as Ha.
  pose proof (@shl_align_fst mt et et ltac:(lia)) as Hb.
  rewrite Z.sub_diag, Z.pow_0_r in Hb.
  assert (Hpow : 8388608 * 2 ^ (-22 - et) = 2 * 2 ^ (- et)).
  { replace (-22 - et) with (- et - 22) by lia.
    change 8388608 with (2 * 2 ^ 22). rewrite <- Z.mul_assoc. f_equal.
    rewrite <- Z.pow_add_r by lia. f_equal. lia. }
  assert (0 < 2 ^ (- et)) by (apply Z.pow_pos_nonneg; lia).
  destruct (Zpos (fst (shl_align 8388608 (-22) et))
            - Zpos (fst (shl_align mt et et))) as [|p|p] eqn:Ed; try lia.
  cbn [binary_normalize]. apply binary_round_ge_one.
  assert (Hp : 2 ^ (- et) <= Zpos p) by lia.
  apply digits2_pos_lower in Hp. lia.
Qed.

(** At or below one half the distance is one. *)
Lemma distance_low (d : spec_float) :
  valid32 d -> Float.fle d half = true -> Float.distance d = Float.one.
Proof.
  intros Hv Hle. unfold Float.distance.
  destruct d as [[|]|[|]| |s m e]; try discriminate; try reflexivity.
  apply clamp_at_least_one.
  apply valid32_finite in Hv. destruct Hv as [He Hd].
  pose proof (digits2_pos_spec m) as [Hlo Hhi].
  destruct s.
  - (* negative *)
    destruct Hd as [Hd|[-> Hd]].
    + rewrite fmul_two_normal by lia.
      destruct (e + 1 <=? 104); [apply fsub_two_neg_ge_one|exact I].
    + rewrite fmul_two_subnormal by lia. apply fsub_two_neg_ge_one.
  - (* positive, at most one half *)
    unfold Float.fle, SFleb, half in Hle. cbn [SFcompare] in Hle.
    change (PosDef.Pos.compare_cont Eq m 8388608) with (Pos.compare m 8388608)
      in Hle.
    destruct Hd as [Hd|[-> Hd]].
    + rewrite Hd in Hlo, Hhi. change (2 ^ (24 - 1)) with 8388608 in Hlo.
      change (2 ^ 24) with 16777216 in Hhi.
      assert (He' : e <= -24)
        by (destruct (Z.compare_spec e (-24)); try lia; try discriminate).
      rewrite fmul_two_normal by lia.
      destruct (e + 1 <=? 104) eqn:El; [|apply Z.leb_gt in El; lia].
      apply fsub_two_small_ge_one; [lia|].
      destruct (Z.eq_dec e (-24)) as [->|Hne].
      * rewrite Z.compare_refl in Hle.
        destruct (Pos.compare_spec m 8388608); try discriminate;
          change (2 ^ (- (-24 + 1))) with 8388608; lia.
      * assert (2 ^ 24 <= 2 ^ (- (e + 1))) by (apply Z.pow_le_mono_r; lia).
        change (2 ^ 24) with 16777216 in H. lia.
    + rewrite fmul_two_subnormal by lia.
      apply fsub_two_small_ge_one; [lia|].
      assert (2 ^ Zpos (digits2_pos m) <= 2 ^ 23)
        by (apply Z.pow_le_mono_r; lia).
      change (2 ^ 23) with 8388608 in H.
      change (- -149) with 149.
      assert (2 ^ 24 <= 2 ^ 149) by (apply Z.pow_le_mono_r; lia).
      change (2 ^ 24) with 16777216 in H0. lia.
Qed.

(** Strictly between one half and one the distance is [2 - 2 d], exactly. *)
Lemma mid_form (d : spec_float) :
  valid32 d -> Float.flt half d = true -> Float.flt d Float.one = true ->
  exists m, d = S754_finite false m (-24) /\ 8388608 < Zpos m < 16777216.
Proof.
  intros Hv Hlo Hhi.
  destruct d as [[|]|[|]| |[|] m e]; try discriminate.
  apply valid32_finite in Hv. destruct Hv as [He Hd].
  unfold Float.flt, SFltb, half in Hlo, Hhi. cbn [SFcompare Float.one] in Hlo, Hhi.
  change (PosDef.Pos.compare_cont Eq 8388608 m) with (Pos.compare 8388608 m) in Hlo.
  change (PosDef.Pos.compare_cont Eq m 8388608) with (Pos.compare m 8388608) in Hhi.
  pose proof (digits2_pos_spec m) as [Hdl Hdh].
  assert (He1 : -24 <= e)
    by (destruct (Z.compare_spec (-24) e); try lia; discriminate).
  destruct Hd as [Hd|[? _]]; [|lia].
  rewrite Hd in Hdl, Hdh. change (2 ^ (24 - 1)) with 8388608 in Hdl.
  change (2 ^ 24) with 16777216 in Hdh.
  assert (He2 : e <= -24).
  { destruct (Z.compare_spec e (-23)) as [->|Hlt|Hgt]; try lia; try discriminate.
    destruct (Pos.compare_spec m 8388608); try discriminate; lia. }
  assert (e = -24) by lia. subst e. exists m. split; [reflexivity|].
  rewrite Z.compare_refl in Hlo.
  destruct (Pos.compare_spec 8388608 m); try discriminate; lia.
Qed.

Lemma distance_mid (m : positive) :
  8388608 < Zpos m < 16777216 ->
  Float.distance (S754_finite false m (-24)) = mid_distance m.
Proof.
  intros Hm. unfold Float.distance, mid_distance.
  assert (Hd : Zpos (digits2_pos m) = 24)
    by (apply digits2_pos_unique; simpl; lia).
  rewrite fmul_two_normal by lia.
  change (-24 + 1) with (-23). change (-23 <=? 104) with true. cbv iota.
  unfold Float.fsub, Float.two, SFsub. cbn [cond_Zopp].
  change (Z.min (-22) (-23)) with (-23).
  pose proof (@shl_align_fst 8388608 (-22) (-23) ltac:(lia)) as Ha.
  pose proof (@shl_align_fst m (-23) (-23) ltac:(lia)) as Hb.
  change (8388608 * 2 ^ (-22 - -23)) with 16777216 in Ha.
  change (2 ^ (-23 - -23)) with 1 in Hb. rewrite Z.mul_1_r in Hb.
  rewrite Ha, Hb. clear Ha Hb.
  set (S := Z.to_pos (16777216 - Zpos m)).
  assert (HS : 16777216 - Zpos m = Zpos S) by (subst S; lia).
  rewrite HS. cbn [binary_normalize]. unfold binary_round.
  assert (HSb : Zpos S < 8388608) by lia.
  pose proof (digits2_pos_spec S) as [HSl HSh].
  set (D := Zpos (digits2_pos S)) in *.
  assert (HD : 1 <= D <= 23).
  { split; [subst D; lia|].
    destruct (Z.le_gt_cases D 23) as [|Hgt]; [assumption|].
    assert (2 ^ 23 <= 2 ^ (D - 1)) by (apply Z.pow_le_mono_r; lia).
    change (2 ^ 23) with 8388608 in H. lia. }
  rewrite fexp_normal by lia.
  replace (D + -23 - 24) with (D - 47) by lia.
  pose proof (@shl_align_fst S (-23) (D - 47) ltac:(lia)) as Hf.
  pose proof (@shl_align_snd S (-23) (D - 47) ltac:(lia)) as Hs.
  destruct (shl_align S (-23) (D - 47)) as [mz ez]. cbn [fst snd] in *.
  subst ez.
  assert (Hdz : Zpos (digits2_pos mz) = 24).
  { apply digits2_pos_unique. rewrite Hf.
    replace (-23 - (D - 47)) with (24 - D) by lia.
    assert (H23 : 2 ^ (24 - 1) = 2 ^ (D - 1) * 2 ^ (24 - D))
      by (rewrite <- Z.pow_add_r by lia; f_equal; lia).
    assert (H24 : 2 ^ 24 = 2 ^ D * 2 ^ (24 - D))
      by (rewrite <- Z.pow_add_r by lia; f_equal; lia).
    rewrite H23, H24.
    assert (0 < 2 ^ (24 - D)) by (apply Z.pow_pos_nonneg; lia).
    split; [apply Z.mul_le_mono_nonneg_r; lia
           |apply Z.mul_lt_mono_pos_r; lia]. }
  rewrite binary_round_aux_exact by lia.
  unfold Float.std_min, Float.std_max, Float.flt, SFltb.
  cbn [SFcompare Float.zero Float.one].
  destruct (Z.compare_spec (D - 47) (-23)); try lia. reflexivity.
Qed.

Lemma mid_distance_antitone (m1 m2 : positive) :
  8388608 < Zpos m2 -> Zpos m2 <= Zpos m1 -> Zpos m1 < 16777216 ->
  Float.fle (mid_distance m1) (mid_distance m2) = true.
Proof.
  intros H2 H21 H1. unfold mid_distance.
  set (S1 := Z.to_pos (16777216 - Zpos m1)).
  set (S2 := Z.to_pos (16777216 - Zpos m2)).
  assert (HS : (S1 <= S2)%positive) by (subst S1 S2; lia).
  pose proof (@digits2_pos_mono S1 S2 HS) as HD.
  set (D1 := Zpos (digits2_pos S1)) in *. set (D2 := Zpos (digits2_pos S2)) in *.
  assert (HD2 : D2 <= 23).
  { pose proof (digits2_pos_spec S2) as [HSl _]. fold D2 in HSl.
    destruct (Z.le_gt_cases D2 23) as [|Hgt]; [assumption|].
    assert (2 ^ 23 <= 2 ^ (D2 - 1)) by (apply Z.pow_le_mono_r; lia).
    change (2 ^ 23) with 8388608 in H. subst S2. lia. }
  pose proof (@shl_align_fst S1 (-23) (D1 - 47) ltac:(lia)) as Hf1.
  pose proof (@shl_align_fst S2 (-23) (D2 - 47) ltac:(lia)) as Hf2.
  unfold Float.fle, SFleb. cbn [SFcompare].
  destruct (Z.compare_spec (D1 - 47) (D2 - 47)) as [Heq|Hlt|Hgt];
    [|reflexivity|lia].
  change (PosDef.Pos.compare_cont Eq ?a ?b) with (Pos.compare a b).
  replace D2 with D1 in Hf2 by lia.
  assert (0 < 2 ^ (-23 - (D1 - 47))) by (apply Z.pow_pos_nonneg; subst D1; lia).
  destruct (Pos.compare_spec (fst (shl_align S1 (-23) (D1 - 47)))
              (fst (shl_align S2 (-23) (D2 - 47)))) as [Heq'|Hlt'|Hgt'];
    try reflexivity.
  exfalso. replace D2 with D1 in Hgt' by lia. nia.
Qed.

Lemma fle_not_nan_r x y : Float.fle x y = true -> y <> S754_nan.
Proof. intros H ->. destruct x; discriminate. Qed.

Lemma fle_not_nan_l x y : Float.fle x y = true -> x <> S754_nan.
Proof. intros H ->. discriminate. Qed.

Lemma fle_not_flt x y : Float.fle x y = true -> Float.flt y x = false.
Proof.
  unfold Float.fle, Float.flt, SFleb, SFltb.
  destruct (SFcompare x y) as [c|] eqn:E; [|discriminate].
  rewrite (SFcompare_antisym _ _ E). destruct c; simpl; congruence.
Qed.

Lemma not_fle_flt x y :
  x <> S754_nan -> y <> S754_nan ->
  Float.fle x y = false -> Float.flt y x = true.
Proof.
  intros Hx Hy. unfold Float.fle, Float.flt, SFleb, SFltb.
  destruct (SFcompare x y) as [c|] eqn:E.
  - rewrite (SFcompare_antisym _ _ E). destruct c; simpl; congruence.
  - destruct x, y; simpl in E; congruence.
Qed.

Lemma flt_lt_le_trans x y z :
  x <> S754_nan -> y <> S754_nan -> z <> S754_nan ->
  Float.flt x y = true -> Float.flt z y = false -> Float.flt x z = true.
Proof.
  intros Hx Hy Hz. unfold Float.flt.
  rewrite (SFltb_key Hx Hy), (SFltb_key_false Hz Hy), (SFltb_key Hx Hz).
  unfold lex_lt. lia.
Qed.

(** The finalisation reverses the order: the larger inner product gets the
    smaller distance. *)
Lemma float_distance_antitone (d1 d2 : spec_float) :
  valid32 d1 -> valid32 d2 -> Float.fle d2 d1 = true ->
  Float.fle (Float.distance d1) (Float.distance d2) = true.
Proof.
  intros Hv1 Hv2 Hle.
  pose proof (@fle_not_nan_r d2 d1 Hle) as Hn1.
  pose proof (@fle_not_nan_l d2 d1 Hle) as Hn2.
  destruct (Float.fle Float.one d1) eqn:E1.
  { rewrite (@distance_high d1 Hv1 E1). apply float_distance_range. }
  apply not_fle_flt in E1; [|discriminate|assumption].
  destruct (Float.fle d2 half) eqn:E2.
  { rewrite (@distance_low d2 Hv2 E2). apply float_distance_range. }
  apply not_fle_flt in E2; [|assumption|discriminate].
  pose proof (@fle_not_flt d2 d1 Hle) as Hge.
  assert (H1 : Float.flt half d1 = true).
  { apply flt_lt_le_trans with (y := d2); try assumption. discriminate. }
  assert (H2 : Float.flt d2 Float.one = true).
  { apply flt_le_lt_trans with (y := d1); try assumption. discriminate. }
  destruct (@mid_form d1 Hv1 H1 E1) as (m1 & -> & Hm1).
  destruct (@mid_form d2 Hv2 E2 H2) as (m2 & -> & Hm2).
  rewrite !distance_mid by assumption.
  apply mid_distance_antitone; try lia.
  unfold Float.fle, SFleb in Hle. cbn [SFcompare] in Hle.
  rewrite Z.compare_refl in Hle.
  change (PosDef.Pos.compare_cont Eq m2 m1) with (Pos.compare m2 m1) in Hle.
  destruct (Pos.compare_spec m2 m1); try discriminate; lia.
Qed.

Set Implicit Arguments.

(** ** The result of [find]: order of the distances, distinct indices *)

Lemma top2_fields_in {P : Type} (gt : P -> P -> bool) (Q : P -> Prop)
    (scores : list P) : forall r i,
  Forall Q scores -> Q (dist_1st_best r) -> Q (dist_2nd_best r) ->
  let r' := top2 gt (fun s => s) r i scores in
  Q (dist_1st_best r') /\ Q (dist_2nd_best r').
Proof.
  induction scores as [|s rest IH]; intros r i Hall H1 H2; cbv zeta.
  - now split.
  - inversion Hall; subst. cbn [top2]. apply IH; try assumption;
      unfold update; destruct (gt s (dist_2nd_best r));
      try destruct (gt s (dist_1st_best r)); assumption.
Qed.

Lemma Exists_iff {A : Type} (P Q : A -> Prop) (l : list A) :
  (forall x, P x <-> Q x) -> (Exists P l <-> Exists Q l).
Proof.
  intros H. rewrite !Exists_exists.
  split; intros (x & Hin & Hx); exists x; split; try assumption; now apply H.
Qed.

Lemma short_find_ordered path nn query :
  Forall (fun ip => ip <= 32767) (Short.inner_products path nn query) ->
  dist_1st_best (Short.find path nn query)
  <= dist_2nd_best (Short.find path nn query).
Proof.
  intros Hfit. unfold Short.find. rewrite short_finalize_closed.
  cbn [dist_1st_best dist_2nd_best]. rewrite short_scan_result_top2.
  assert (Hinit : -32767 <= dist_2nd_best (init_result (-32767))
                  <= dist_1st_best (init_result (-32767))) by (simpl; lia).
  pose proof (@short_top2_ordered (Short.inner_products path nn query)
                (init_result (-32767)) 0 Hfit Hinit) as H.
  cbv zeta in H. lia.
Qed.

Lemma float_find_ordered path nn query :
  Forall valid32 (Float.inner_products path nn query) ->
  Float.fle (dist_1st_best (Float.find path nn query))
    (dist_2nd_best (Float.find path nn query)) = true.
Proof.
  intros Hvalid. unfold Float.find, Float.finalize.
  cbn [dist_1st_best dist_2nd_best]. rewrite float_scan_result_top2.
  set (ips := Float.inner_products path nn query) in *.
  destruct (@top2_fields_in spec_float Float.gt valid32 ips
              (init_result (SFopp Float.FLT_MAX)) 0 Hvalid)
    as [Hv1 Hv2]; try reflexivity.
  apply float_distance_antitone; try assumption.
  apply float_top2_ordered. reflexivity.
Qed.

(** C1, as the code has it.  Quantized matcher: [dist_1st_best <=
    dist_2nd_best] whenever no inner product exceeds 32767 (a larger one
    wraps in the [short] distance field).  Float matcher:
    [dist_1st_best <= dist_2nd_best] for all inner products that are
    binary32 numbers.  In both matchers, and on both paths, the two indices
    differ exactly when some stored descriptor other than the first has an
    inner product greater than the initial maximum (-32767, respectively
    [-FLT_MAX]); two or more stored descriptors alone do not ensure it. *)
Theorem find_order_and_distinct_indices :
  (forall path nn query,
     let ips := Short.inner_products path nn query in
     let r := Short.find path nn query in
     (Forall (fun ip => ip <= 32767) ips ->
      dist_1st_best r <= dist_2nd_best r)
     /\ (index_1st_best r <> index_2nd_best r
         <-> Exists (fun ip => -32767 < ip) (tl ips)))
  /\
  (forall path nn query,
     let ips := Float.inner_products path nn query in
     let r := Float.find path nn query in
     (Forall valid32 ips ->
      Float.fle (dist_1st_best r) (dist_2nd_best r) = true)
     /\ (index_1st_best r <> index_2nd_best r
         <-> Exists (fun ip => Float.flt (SFopp Float.FLT_MAX) ip = true)
               (tl ips))).
Proof.
  split; intros path nn query; cbv zeta; split.
  - apply short_find_ordered.
  - unfold Short.find, Short.finalize. cbn [index_1st_best index_2nd_best].
    rewrite short_scan_result_top2.
    rewrite (top2_indices_differ Short.gt to_short (-32767)
               (Short.inner_products path nn query)).
    apply Exists_iff. intros ip. unfold Short.gt. apply Z.ltb_lt.
  - apply float_find_ordered.
  - unfold Float.find, Float.finalize. cbn [index_1st_best index_2nd_best].
    rewrite float_scan_result_top2.
    apply (top2_indices_differ Float.gt (fun ip => ip) (SFopp Float.FLT_MAX)
             (Float.inner_products path nn query)).
Qed.

Lemma find_order_and_distinct_indices_witness :
  (let nn := {| dimensions := 2; num_elements := 3;
                elements := [60; 80; 80; 60; -60; 80] |} in
   let r := Short.find Scalar nn [60; 80] in
   dist_1st_best r <= dist_2nd_best r /\ index_1st_best r <> index_2nd_best r)
  /\
  (let nn := {| dimensions := 2; num_elements := 2;
                elements := [Float.of_Z 3 (-2); Float.of_Z 1 (-1);
                             Float.of_Z 1 0; Float.zero] |} in
   let r := Float.find Scalar nn [Float.of_Z 1 0; Float.zero] in
   Float.fle (dist_1st_best r) (dist_2nd_best r) = true
   /\ index_1st_best r <> index_2nd_best r).
Proof.
  split; cbv zeta.
  - destruct (proj1 find_order_and_distinct_indices Scalar
                {| dimensions := 2; num_elements := 3;
                   elements := [60; 80; 80; 60; -60; 80] |} [60; 80])
      as [Hord Hidx].
    split.
    + apply Hord. vm_compute. repeat constructor; discriminate.
    + apply Hidx. vm_compute. apply Exists_cons_hd. reflexivity.
  - destruct (proj2 find_order_and_distinct_indices Scalar
                {| dimensions := 2; num_elements := 2;
                   elements := [Float.of_Z 3 (-2); Float.of_Z 1 (-1);
                                Float.of_Z 1 0; Float.zero] |}
                [Float.of_Z 1 0; Float.zero])
      as [Hord Hidx].
    split.
    + apply Hord. vm_compute. repeat constructor.
    + apply Hidx. vm_compute. apply Exists_cons_hd. reflexivity.
Defined.

(** C1, counterexamples, all with two stored descriptors of 8-bit
    components.  (a) Both inner products are -48387, at most the initial
    maximum: no update, both indices 0.  (b) Float matcher: both inner
    products are [-FLT_MAX], both indices 0.  (c) The second inner product
    48387 is stored in the [short] field as -17149 and finalised to the
    largest distance, so the reported best is farther than the reported
    second best. *)
Lemma find_equal_indices_or_disorder :
  (let nn := {| dimensions := 3; num_elements := 2;
                elements := [127; 127; 127; 127; 127; 127] |} in
   let r := Short.find Scalar nn [-127; -127; -127] in
   2 <= num_elements nn /\ ~ index_1st_best r <> index_2nd_best r)
  /\
  (let nn := {| dimensions := 1; num_elements := 2;
                elements := [SFopp Float.one; SFopp Float.one] |} in
   let r := Float.find Scalar nn [Float.FLT_MAX] in
   2 <= num_elements nn /\ ~ index_1st_best r <> index_2nd_best r)
  /\
  (let nn := {| dimensions := 3; num_elements := 2;
                elements := [1; 1; 1; 127; 127; 127] |} in
   let r := Short.find Scalar nn [127; 127; 127] in
   2 <= num_elements nn
   /\ r = {| dist_1st_best := 32258; dist_2nd_best := 31496;
             index_1st_best := 1; index_2nd_best := 0 |}
   /\ ~ dist_1st_best r <= dist_2nd_best r).
Proof.
  vm_compute. repeat split; try discriminate; intros H; now apply H.
Qed.

Unset Implicit Arguments.

(** ** The two float paths on fixed-point descriptors *)

(** *** Exact binary32 operations *)

Lemma shr_1_exact (c : Z) :
  0 <= c ->
  shr_1 {| shr_m := 2 * c; shr_r := false; shr_s := false |}
  = {| shr_m := c; shr_r := false; shr_s := false |}.
Proof.
  intros Hc. destruct c as [|p|p]; try lia; reflexivity.
Qed.

Lemma shr_iter_exact (n : positive) (c : Z) :
  0 <= c ->
  iter_pos shr_1 n {| shr_m := c * 2 ^ Zpos n; shr_r := false; shr_s := false |}
  = {| shr_m := c; shr_r := false; shr_s := false |}.
Proof.
  intros Hc. rewrite iter_pos_eq. revert c Hc.
  induction n as [|n IH] using Pos.peano_ind; intros c Hc.
  - change (shr_1 {| shr_m := c * 2 ^ 1; shr_r := false; shr_s := false |}
            = {| shr_m := c; shr_r := false; shr_s := false |}).
    replace (c * 2 ^ 1) with (2 * c) by (change (2 ^ 1) with 2; lia).
    now apply shr_1_exact.
  - rewrite Pos.iter_succ, Pos2Z.inj_succ, Z.pow_succ_r by lia.
    replace (c * (2 * 2 ^ Zpos n)) with ((2 * c) * 2 ^ Zpos n) by lia.
    rewrite IH by lia. now apply shr_1_exact.
Qed.

(** Shifting out zero bits only is exact. *)
Lemma shr_exact (c e n : Z) :
  0 <= c -> 0 <= n ->
  shr {| shr_m := c * 2 ^ n; shr_r := false; shr_s := false |} e n
  = ({| shr_m := c; shr_r := false; shr_s := false |}, e + n).
Proof.
  intros Hc Hn. unfold shr. destruct n as [|p|p]; try lia.
  - rewrite Z.pow_0_r, Z.mul_1_r, Z.add_0_r. reflexivity.
  - now rewrite shr_iter_exact.
Qed.

Lemma digits_shift (z q : positive) (k : Z) :
  0 <= k -> Zpos q = Zpos z * 2 ^ k ->
  Zpos (digits2_pos q) = Zpos (digits2_pos z) + k.
Proof.
  intros Hk Hq. apply digits2_pos_unique. rewrite Hq.
  pose proof (digits2_pos_spec z) as [Hlo Hhi].
  replace (Zpos (digits2_pos z) + k - 1) with (Zpos (digits2_pos z) - 1 + k)
    by lia.
  rewrite !Z.pow_add_r by lia.
  assert (0 < 2 ^ k) by (apply Z.pow_pos_nonneg; lia).
  split; [apply Z.mul_le_mono_nonneg_r; lia|apply Z.mul_lt_mono_pos_r; lia].
Qed.

(** Rounding a number that has a binary32 representation returns that
    representation: [q * 2^(e - k)] with [q = z * 2^k] and [z] of [D <= 24]
    bits becomes the mantissa [z * 2^(24 - D)] at the exponent
    [e + D - 24]. *)
Lemma binary_round_aux_shift (s : bool) (z q m : positive) (k e : Z) :
  0 <= k -> Zpos q = Zpos z * 2 ^ k ->
  Zpos (digits2_pos z) <= 24 -> 24 <= Zpos (digits2_pos z) + k ->
  -149 <= e + Zpos (digits2_pos z) - 24 <= 104 ->
  Zpos m = Zpos z * 2 ^ (24 - Zpos (digits2_pos z)) ->
  binary_round_aux 24 128 s (Zpos q) (e - k) loc_Exact
  = S754_finite s m (e + Zpos (digits2_pos z) - 24).
Proof.
  intros Hk Hq HD HDk He Hm.
  pose proof (digits_shift z q k Hk Hq) as Hdq.
  set (D := Zpos (digits2_pos z)) in *.
  assert (Hdm : Zpos (digits2_pos m) = 24).
  { rewrite (digits_shift z m (24 - D)); [fold D; lia|lia|exact Hm]. }
  unfold binary_round_aux, shr_fexp. cbn [Zdigits2 shr_record_of_loc].
  rewrite Hdq.
  replace (fexp 24 128 (D + k + (e - k)) - (e - k)) with (D + k - 24)
    by (unfold fexp, emin; lia).
  assert (Hqm : Zpos q = Zpos m * 2 ^ (D + k - 24)).
  { rewrite Hq, Hm, <- Z.mul_assoc, <- Z.pow_add_r by lia.
    f_equal. f_equal. lia. }
  rewrite Hqm, shr_exact by lia.
  cbn [shr_m loc_of_shr_record round_nearest_even Zdigits2 shr_record_of_loc].
  rewrite Hdm.
  replace (fexp 24 128 (24 + (e - k + (D + k - 24))) - (e - k + (D + k - 24)))
    with 0 by (unfold fexp, emin; lia).
  cbn [shr shr_m]. change (128 - 24) with 104.
  replace (e - k + (D + k - 24)) with (e + D - 24) by lia.
  destruct (e + D - 24 <=? 104) eqn:El; [reflexivity|apply Z.leb_gt in El; lia].
Qed.

Lemma binary_round_shift (s : bool) (z q m : positive) (k e : Z) :
  0 <= k -> Zpos q = Zpos z * 2 ^ k ->
  Zpos (digits2_pos z) <= 24 ->
  -149 <= e + Zpos (digits2_pos z) - 24 <= 104 ->
  Zpos m = Zpos z * 2 ^ (24 - Zpos (digits2_pos z)) ->
  binary_round 24 128 s q (e - k)
  = S754_finite s m (e + Zpos (digits2_pos z) - 24).
Proof.
  intros Hk Hq HD He Hm.
  pose proof (digits_shift z q k Hk Hq) as Hdq.
  set (D := Zpos (digits2_pos z)) in *.
  unfold binary_round. rewrite Hdq.
  replace (fexp 24 128 (D + k + (e - k))) with (e + D - 24)
    by (unfold fexp, emin; lia).
  destruct (Z.le_gt_cases 24 (D + k)) as [Hge|Hlt].
  - (* no left shift *)
    assert (Hsh : shl_align q (e - k) (e + D - 24) = (q, e - k)).
    { unfold shl_align. destruct (e + D - 24 - (e - k)) eqn:E; try lia;
        reflexivity. }
    rewrite Hsh. now apply (binary_round_aux_shift s z q m k e).
  - pose proof (shl_align_fst q (e - k) (e + D - 24) ltac:(lia)) as Hf.
    pose proof (shl_align_snd q (e - k) (e + D - 24) ltac:(lia)) as Hs.
    destruct (shl_align q (e - k) (e + D - 24)) as [mz ez].
    cbn [fst snd] in Hf, Hs. subst ez.
    assert (Hmz : mz = m).
    { apply Pos2Z.inj. rewrite Hf, Hm, Hq, <- Z.mul_assoc, <- Z.pow_add_r by lia.
      f_equal. f_equal. lia. }
    subst mz. apply binary_round_aux_exact; [|lia].
    rewrite (digits_shift z m (24 - D)); [fold D; lia|lia|exact Hm].
Qed.

(** The binary32 number [w * 2^e] for an integer [w] of at most 24 bits
    does not depend on how the value is written. *)
Lemma of_Z_shift (w k e : Z) :
  0 <= k -> Z.abs w < 2 ^ 24 -> -125 <= e <= 104 ->
  binary_normalize 24 128 (w * 2 ^ k) (e - k) false = Float.of_Z w e.
Proof.
  intros Hk Hw He. unfold Float.of_Z.
  change Float.prec with 24. change Float.emax with 128.
  assert (H2k : 0 < 2 ^ k) by (apply Z.pow_pos_nonneg; lia).
  assert (Hcanon : forall (s : bool) (z q : positive),
            Zpos z < 2 ^ 24 -> Zpos q = Zpos z * 2 ^ k ->
            binary_round 24 128 s q (e - k) = binary_round 24 128 s z e).
  { intros s z q Hz Hq.
    pose proof (digits2_pos_spec z) as [Hlo Hhi].
    assert (HD : Zpos (digits2_pos z) <= 24).
    { destruct (Z.le_gt_cases (Zpos (digits2_pos z)) 24) as [|Hgt];
        [assumption|].
      assert (2 ^ 24 <= 2 ^ (Zpos (digits2_pos z) - 1))
        by (apply Z.pow_le_mono_r; lia). lia. }
    assert (Hpos : 0 < Zpos z * 2 ^ (24 - Zpos (digits2_pos z))).
    { apply Z.mul_pos_pos; [lia|apply Z.pow_pos_nonneg; lia]. }
    destruct (Zpos z * 2 ^ (24 - Zpos (digits2_pos z))) as [|m|m] eqn:Em;
      try lia.
    rewrite (binary_round_shift s z q m k e) by (try assumption; try lia).
    replace e with (e - 0) at 2 by lia.
    rewrite (binary_round_shift s z z m 0 e); try assumption; try lia.
    reflexivity. }
  destruct w as [|z|z].
  - reflexivity.
  - assert (Hq : 0 < Zpos z * 2 ^ k) by (apply Z.mul_pos_pos; lia).
    destruct (Zpos z * 2 ^ k) as [|q|q] eqn:Eq; try lia.
    cbn [binary_normalize]. apply Hcanon; [exact Hw|reflexivity || lia].
  - assert (Hq : 0 < Zpos z * 2 ^ k) by (apply Z.mul_pos_pos; lia).
    assert (Hneg : Zneg z * 2 ^ k = - (Zpos z * 2 ^ k)) by lia.
    rewrite Hneg.
    destruct (Zpos z * 2 ^ k) as [|q|q] eqn:Eq; try lia.
    cbn [Z.opp binary_normalize]. apply Hcanon; [exact Hw|lia].
Qed.

Lemma digits_le_24 (z : positive) :
  Zpos z < 2 ^ 24 -> Zpos (digits2_pos z) <= 24.
Proof.
  intros Hz. pose proof (digits2_pos_spec z) as [Hlo _].
  destruct (Z.le_gt_cases (Zpos (digits2_pos z)) 24) as [|Hgt]; [assumption|].
  assert (2 ^ 24 <= 2 ^ (Zpos (digits2_pos z) - 1))
    by (apply Z.pow_le_mono_r; lia). lia.
Qed.

(** The representation of [w * 2^e] for a non-zero [w] of at most 24
    bits. *)
Lemma of_Z_finite (w e : Z) :
  w <> 0 -> Z.abs w < 2 ^ 24 -> -125 <= e <= 104 ->
  exists m,
    let D := Zpos (digits2_pos (Z.to_pos (Z.abs w))) in
    Zpos m = Z.abs w * 2 ^ (24 - D)
    /\ 1 <= D <= 24
    /\ Float.of_Z w e = S754_finite (w <? 0) m (e + D - 24).
Proof.
  intros Hw0 Hw He. cbv zeta.
  assert (Hgen : forall (s : bool) (z : positive), Zpos z < 2 ^ 24 ->
            exists m, Zpos m = Zpos z * 2 ^ (24 - Zpos (digits2_pos z))
                      /\ 1 <= Zpos (digits2_pos z) <= 24
                      /\ binary_round 24 128 s z e
                         = S754_finite s m (e + Zpos (digits2_pos z) - 24)).
  { intros s z Hz. pose proof (digits_le_24 z Hz) as HD.
    assert (Hpos : 0 < Zpos z * 2 ^ (24 - Zpos (digits2_pos z))).
    { apply Z.mul_pos_pos; [lia|apply Z.pow_pos_nonneg; lia]. }
    destruct (Zpos z * 2 ^ (24 - Zpos (digits2_pos z))) as [|m|m] eqn:Em;
      try lia.
    exists m. split; [reflexivity|]. split; [lia|].
    replace e with (e - 0) at 1 by lia.
    apply (binary_round_shift s z z m 0 e); lia. }
  unfold Float.of_Z. change Float.prec with 24. change Float.emax with 128.
  destruct w as [|p|p]; try lia.
  - change (Z.to_pos (Z.abs (Zpos p))) with p.
    change (Z.abs (Zpos p)) with (Zpos p).
    cbn [binary_normalize]. change (Zpos p <? 0) with false.
    apply Hgen. exact Hw.
  - change (Z.to_pos (Z.abs (Zneg p))) with p.
    change (Z.abs (Zneg p)) with (Zpos p).
    cbn [binary_normalize]. change (Zneg p <? 0) with true.
    apply Hgen. exact Hw.
Qed.

(** Adding two numbers of the same grid [2^e] is exact when the operands
    and the sum have at most 24 bits. *)
Lemma fadd_exact (x y e : Z) :
  Z.abs x < 2 ^ 24 -> Z.abs y < 2 ^ 24 -> Z.abs (x + y) < 2 ^ 24 ->
  -125 <= e <= 104 ->
  Float.fadd (Float.of_Z x e) (Float.of_Z y e) = Float.of_Z (x + y) e.
Proof.
  intros Hx Hy Hxy He.
  destruct (Z.eq_dec x 0) as [->|Hx0].
  { change (Float.of_Z 0 e) with (S754_zero false). rewrite Z.add_0_l.
    destruct (Z.eq_dec y 0) as [->|Hy0]; [reflexivity|].
    destruct (of_Z_finite y e Hy0 Hy He) as (m & _ & _ & ->). reflexivity. }
  destruct (Z.eq_dec y 0) as [->|Hy0].
  { change (Float.of_Z 0 e) with (S754_zero false). rewrite Z.add_0_r.
    destruct (of_Z_finite x e Hx0 Hx He) as (m & _ & _ & ->). reflexivity. }
  destruct (of_Z_finite x e Hx0 Hx He) as (mx & Hmx & HDx & Ex).
  destruct (of_Z_finite y e Hy0 Hy He) as (my & Hmy & HDy & Ey).
  cbv zeta in *.
  set (Dx := Zpos (digits2_pos (Z.to_pos (Z.abs x)))) in *.
  set (Dy := Zpos (digits2_pos (Z.to_pos (Z.abs y)))) in *.
  rewrite Ex, Ey. unfold Float.fadd, SFadd.
  change Float.prec with 24. change Float.emax with 128.
  set (ez := Z.min (e + Dx - 24) (e + Dy - 24)).
  rewrite <- (of_Z_shift (x + y) (e - ez) e) by (subst ez; lia).
  replace (e - (e - ez)) with ez by lia.
  f_equal.
  rewrite (shl_align_fst mx (e + Dx - 24) ez) by (subst ez; lia).
  rewrite (shl_align_fst my (e + Dy - 24) ez) by (subst ez; lia).
  rewrite Hmx, Hmy, <- !Z.mul_assoc, <- !Z.pow_add_r by (subst ez; lia).
  replace (24 - Dx + (e + Dx - 24 - ez)) with (e - ez) by lia.
  replace (24 - Dy + (e + Dy - 24 - ez)) with (e - ez) by lia.
  rewrite Z.mul_add_distr_r.
  f_equal.
  - destruct (x <? 0) eqn:E; cbn [cond_Zopp];
      [apply Z.ltb_lt in E|apply Z.ltb_ge in E]; lia.
  - destruct (y <? 0) eqn:E; cbn [cond_Zopp];
      [apply Z.ltb_lt in E|apply Z.ltb_ge in E]; lia.
Qed.

(** Adding a zero of either sign changes nothing. *)
Lemma fadd_zero_r (x e : Z) (s : bool) :
  Z.abs x < 2 ^ 24 -> -125 <= e <= 104 ->
  Float.fadd (Float.of_Z x e) (S754_zero s) = Float.of_Z x e.
Proof.
  intros Hx He. destruct (Z.eq_dec x 0) as [->|Hx0].
  - destruct s; reflexivity.
  - destruct (of_Z_finite x e Hx0 Hx He) as (m & _ & _ & ->). reflexivity.
Qed.

(** Multiplying is exact when the product has at most 24 bits; a zero
    product is a zero of some sign. *)
Lemma fmul_exact (a b e1 e2 : Z) :
  Z.abs a < 2 ^ 24 -> Z.abs b < 2 ^ 24 -> Z.abs (a * b) < 2 ^ 24 ->
  -125 <= e1 <= 104 -> -125 <= e2 <= 104 -> -125 <= e1 + e2 <= 104 ->
  let p := Float.fmul (Float.of_Z a e1) (Float.of_Z b e2) in
  (a * b <> 0 -> p = Float.of_Z (a * b) (e1 + e2))
  /\ (a * b = 0 -> exists s, p = S754_zero s).
Proof.
  intros Ha Hb Hab He1 He2 He. cbv zeta. split.
  - intros Hne.
    assert (Ha0 : a <> 0) by (intros ->; lia).
    assert (Hb0 : b <> 0) by (intros ->; lia).
    destruct (of_Z_finite a e1 Ha0 Ha He1) as (ma & Hma & HDa & Ea).
    destruct (of_Z_finite b e2 Hb0 Hb He2) as (mb & Hmb & HDb & Eb).
    destruct (of_Z_finite (a * b) (e1 + e2) Hne Hab He) as (m & Hm & HD & E).
    cbv zeta in *.
    set (Da := Zpos (digits2_pos (Z.to_pos (Z.abs a)))) in *.
    set (Db := Zpos (digits2_pos (Z.to_pos (Z.abs b)))) in *.
    set (z := Z.to_pos (Z.abs (a * b))) in *.
    assert (Hz : Zpos z = Z.abs (a * b)) by (subst z; rewrite Z2Pos.id; lia).
    rewrite Ea, Eb, E. unfold Float.fmul, SFmul.
    change Float.prec with 24. change Float.emax with 128.
    assert (Hsign : xorb (a <? 0) (b <? 0) = (a * b <? 0)).
    { destruct (a <? 0) eqn:E1, (b <? 0) eqn:E2; cbn [xorb]; symmetry;
        try apply Z.ltb_lt; try apply Z.ltb_ge;
        try apply Z.ltb_lt in E1; try apply Z.ltb_ge in E1;
        try apply Z.ltb_lt in E2; try apply Z.ltb_ge in E2; nia. }
    rewrite Hsign.
    assert (Hq : Zpos (ma * mb) = Zpos z * 2 ^ (48 - Da - Db)).
    { rewrite Pos2Z.inj_mul, Hma, Hmb, Hz, Z.abs_mul.
      replace (48 - Da - Db) with ((24 - Da) + (24 - Db)) by lia.
      rewrite Z.pow_add_r by lia. ring. }
    replace (e1 + Da - 24 + (e2 + Db - 24))
      with ((e1 + e2) - (48 - Da - Db)) by lia.
    apply (binary_round_aux_shift _ z (ma * mb) m (48 - Da - Db) (e1 + e2));
      try lia; try assumption.
    + (* the product of two 24-bit mantissas has at least 47 bits *)
      rewrite <- (digits_shift z (ma * mb) (48 - Da - Db)) by (lia || assumption).
      assert (H46 : 2 ^ 46 <= Zpos (ma * mb)).
      { rewrite Pos2Z.inj_mul.
        assert (2 ^ 23 <= Zpos ma).
        { rewrite Hma. replace 23 with ((Da - 1) + (24 - Da)) at 1 by lia.
          rewrite Z.pow_add_r by lia.
          apply Z.mul_le_mono_nonneg_r; [apply Z.pow_nonneg; lia|].
          pose proof (digits2_pos_spec (Z.to_pos (Z.abs a))) as [Hlo _].
          rewrite Z2Pos.id in Hlo by lia. exact Hlo. }
        assert (2 ^ 23 <= Zpos mb).
        { rewrite Hmb. replace 23 with ((Db - 1) + (24 - Db)) at 1 by lia.
          rewrite Z.pow_add_r by lia.
          apply Z.mul_le_mono_nonneg_r; [apply Z.pow_nonneg; lia|].
          pose proof (digits2_pos_spec (Z.to_pos (Z.abs b))) as [Hlo _].
          rewrite Z2Pos.id in Hlo by lia. exact Hlo. }
        change (2 ^ 46) with (2 ^ 23 * 2 ^ 23).
        apply Z.mul_le_mono_nonneg; lia. }
      apply digits2_pos_lower in H46. lia.
    + rewrite Hz. exact Hm.
  - intros H0. apply Z.mul_eq_0 in H0.
    destruct (Z.eq_dec a 0) as [->|Ha0].
    + change (Float.of_Z 0 e1) with (S754_zero false).
      destruct (Z.eq_dec b 0) as [->|Hb0]; [now exists false|].
      destruct (of_Z_finite b e2 Hb0 Hb He2) as (mb & _ & _ & ->).
      eexists. reflexivity.
    + assert (b = 0) by lia. subst b.
      change (Float.of_Z 0 e2) with (S754_zero false).
      destruct (of_Z_finite a e1 Ha0 Ha He1) as (ma & _ & _ & ->).
      eexists. reflexivity.
Qed.

Lemma load_fixed_point (mem : list Z) (p : Z) :
  Float.load (map fixed_point mem) p = fixed_point (Short.load mem p).
Proof.
  unfold Float.load, Short.load.
  change Float.zero with (fixed_point 0). apply map_nth.
Qed.

Lemma float_load_lanes (h : Z -> spec_float) (l : Z) :
  In l Float.lanes -> Float.load (map h Float.lanes) l = h l.
Proof.
  unfold Float.lanes. simpl. intros [<-|[<-|[<-|[<-|[]]]]]; reflexivity.
Qed.

Lemma Zsum_lanes4 (n : nat) (f : Z -> Z) :
  Zsum (4 * n) f
  = Zsum n (fun k => f (4 * k + 0)) + Zsum n (fun k => f (4 * k + 1))
    + Zsum n (fun k => f (4 * k + 2)) + Zsum n (fun k => f (4 * k + 3)).
Proof.
  induction n as [|n IH].
  - reflexivity.
  - replace (4 * Datatypes.S n)%nat
      with (Datatypes.S (Datatypes.S (Datatypes.S (Datatypes.S (4 * n)))))
      by lia.
    cbn [Zsum]. rewrite IH.
    replace (Z.of_nat (4 * n)) with (4 * Z.of_nat n + 0) by lia.
    replace (Z.of_nat (Datatypes.S (4 * n))) with (4 * Z.of_nat n + 1) by lia.
    replace (Z.of_nat (Datatypes.S (Datatypes.S (4 * n))))
      with (4 * Z.of_nat n + 2) by lia.
    replace (Z.of_nat (Datatypes.S (Datatypes.S (Datatypes.S (4 * n)))))
      with (4 * Z.of_nat n + 3) by lia.
    lia.
Qed.

Lemma Zsum_prefix_le (n m : nat) (f : Z -> Z) :
  (forall k, 0 <= f k) -> (n <= m)%nat -> Zsum n f <= Zsum m f.
Proof.
  intros Hf Hnm. induction Hnm as [|m Hnm IH]; [lia|].
  cbn [Zsum]. specialize (Hf (Z.of_nat m)). lia.
Qed.

Lemma Zsum_term_le (n : nat) (f : Z -> Z) (j : Z) :
  (forall k, 0 <= f k) -> 0 <= j < Z.of_nat n -> f j <= Zsum n f.
Proof.
  intros Hf Hj.
  pose proof (Zsum_prefix_le (Datatypes.S (Z.to_nat j)) n f Hf ltac:(lia)) as H.
  cbn [Zsum] in H. rewrite Z2Nat.id in H by lia.
  pose proof (Zsum_nonneg (Z.to_nat j) f Hf). lia.
Qed.

Lemma Zsum_lane4_le (n : nat) (f : Z -> Z) (l : Z) :
  (forall j, 0 <= f j) -> In l Float.lanes ->
  Zsum n (fun k => f (4 * k + l)) <= Zsum (4 * n) f.
Proof.
  intros Hf Hl. rewrite Zsum_lanes4.
  pose proof (Zsum_nonneg n (fun k => f (4 * k + 0)) ltac:(intros; apply Hf)).
  pose proof (Zsum_nonneg n (fun k => f (4 * k + 1)) ltac:(intros; apply Hf)).
  pose proof (Zsum_nonneg n (fun k => f (4 * k + 2)) ltac:(intros; apply Hf)).
  pose proof (Zsum_nonneg n (fun k => f (4 * k + 3)) ltac:(intros; apply Hf)).
  unfold Float.lanes in Hl. simpl in Hl.
  destruct Hl as [<-|[<-|[<-|[<-|[]]]]]; lia.
Qed.

(** Cauchy-Schwarz for two vectors of squared norm at most [2^22]. *)
Lemma Zsum_product_bound (n : nat) (a b : Z -> Z) :
  Zsum n (fun k => a k * a k) <= 2 ^ 22 ->
  Zsum n (fun k => b k * b k) <= 2 ^ 22 ->
  Z.abs (Zsum n (fun k => a k * b k)) <= 2 ^ 22.
Proof.
  intros Ha Hb. pose proof (Zsum_cauchy_schwarz n a b) as Hcs.
  assert (0 <= Zsum n (fun k => a k * a k))
    by (apply Zsum_nonneg; intros; apply Z.square_nonneg).
  assert (0 <= Zsum n (fun k => b k * b k))
    by (apply Zsum_nonneg; intros; apply Z.square_nonneg).
  change (2 ^ 22) with 4194304 in *.
  set (S := Zsum n (fun k => a k * b k)) in *.
  assert (S * S <= 4194304 * 4194304) by nia.
  apply Z.abs_le. nia.
Qed.

Lemma norm_prefix (mem : list Z) (p dims : Z) (n : nat) :
  sq_norm mem p dims <= 2 ^ 22 -> (n <= Z.to_nat dims)%nat ->
  Zsum n (fun j => Short.load mem (p + j) * Short.load mem (p + j)) <= 2 ^ 22.
Proof.
  intros Hn Hle. etransitivity; [|exact Hn]. unfold sq_norm.
  apply Zsum_prefix_le; [intros; apply Z.square_nonneg|assumption].
Qed.

Lemma norm_term (mem : list Z) (p dims j : Z) :
  sq_norm mem p dims <= 2 ^ 22 -> 0 <= j < dims ->
  Z.abs (Short.load mem (p + j)) <= 2 ^ 11.
Proof.
  intros Hn Hj.
  pose proof (Zsum_term_le (Z.to_nat dims)
                (fun j => Short.load mem (p + j) * Short.load mem (p + j)) j
                ltac:(intros; apply Z.square_nonneg) ltac:(lia)) as H.
  cbv beta in H. unfold sq_norm in Hn.
  change (2 ^ 22) with 4194304 in Hn. change (2 ^ 11) with 2048.
  apply Z.abs_le. nia.
Qed.

Lemma norm_lane_prefix (mem : list Z) (p dims l : Z) (n : nat) :
  sq_norm mem p dims <= 2 ^ 22 -> (4 * n <= Z.to_nat dims)%nat ->
  In l Float.lanes ->
  Zsum n (fun k => Short.load mem (p + (4 * k + l))
                   * Short.load mem (p + (4 * k + l))) <= 2 ^ 22.
Proof.
  intros Hn Hle Hl.
  etransitivity; [|exact (norm_prefix mem p dims (4 * n) Hn Hle)].
  apply (Zsum_lane4_le n
           (fun j => Short.load mem (p + j) * Short.load mem (p + j)) l);
    [intros; apply Z.square_nonneg|assumption].
Qed.

Lemma hadd_twice (a b c d : spec_float) :
  Float._mm_cvtss_f32
    (Float._mm_hadd_ps (Float._mm_hadd_ps [a; b; c; d] [a; b; c; d])
       (Float._mm_hadd_ps [a; b; c; d] [a; b; c; d]))
  = Float.fadd (Float.fadd a b) (Float.fadd c d).
Proof. reflexivity. Qed.

Section FixedPoint.
Variable dims num : Z.
Variable stored query : list Z.
Hypothesis dims_nonneg : 0 <= dims.
Hypothesis query_norm : sq_norm query 0 dims <= 2 ^ 22.

Local Abbreviation nn :=
  {| dimensions := dims; num_elements := num;
     elements := map fixed_point stored |}.
Local Abbreviation fquery := (map fixed_point query).

(** One product and its addition to an exact partial sum. *)
Lemma fixed_point_step (S x y : Z) :
  Z.abs x <= 2 ^ 11 -> Z.abs y <= 2 ^ 11 ->
  Z.abs S <= 2 ^ 22 -> Z.abs (S + x * y) <= 2 ^ 22 ->
  Float.fadd (Float.of_Z S (-22))
    (Float.fmul (fixed_point x) (fixed_point y))
  = Float.of_Z (S + x * y) (-22).
Proof.
  intros Hx Hy HS HS'.
  change (2 ^ 11) with 2048 in *. change (2 ^ 22) with 4194304 in *.
  assert (Hxy : Z.abs (x * y) <= 4194304)
    by (rewrite Z.abs_mul; change 4194304 with (2048 * 2048);
        apply Z.mul_le_mono_nonneg; lia).
  destruct (fmul_exact x y (-11) (-11)) as [Hne Hz];
    try (change (2 ^ 24) with 16777216; lia).
  unfold fixed_point.
  destruct (Z.eq_dec (x * y) 0) as [E0|E0].
  - destruct (Hz E0) as [s ->]. rewrite E0, Z.add_0_r.
    apply fadd_zero_r; [change (2 ^ 24) with 16777216; lia|lia].
  - rewrite (Hne E0). change (-11 + -11) with (-22).
    apply fadd_exact; try (change (2 ^ 24) with 16777216; lia); lia.
Qed.

Lemma query_term (j : Z) :
  0 <= j < dims -> Z.abs (Short.load query j) <= 2 ^ 11.
Proof. intros Hj. exact (norm_term query 0 dims j query_norm Hj). Qed.

Lemma float_scalar_loop (p : Z) (n : nat) :
  sq_norm stored p dims <= 2 ^ 22 -> (n <= Z.to_nat dims)%nat ->
  for_loop n 0
    (fun j '(inner_product, descr_ptr) =>
       (Float.fadd inner_product
          (Float.fmul (Float.load fquery j)
             (Float.load (elements nn) descr_ptr)),
        descr_ptr + 1))
    (Float.zero, p)
  = (Float.of_Z
       (Zsum n (fun j => Short.load query j * Short.load stored (p + j)))
       (-22),
     p + Z.of_nat n).
Proof.
  intros Hs. induction n as [|n IH]; intros Hn.
  - simpl. now rewrite Z.add_0_r.
  - rewrite for_loop_snoc, IH by lia. cbn [elements Zsum].
    rewrite !load_fixed_point, Z.add_0_l. f_equal; [|lia].
    apply fixed_point_step.
    + apply query_term. lia.
    + apply (norm_term stored p dims); [assumption|lia].
    + apply Zsum_product_bound.
      * exact (norm_prefix query 0 dims n query_norm ltac:(lia)).
      * exact (norm_prefix stored p dims n Hs ltac:(lia)).
    + change (Zsum n (fun j => Short.load query j * Short.load stored (p + j))
              + Short.load query (Z.of_nat n)
                * Short.load stored (p + Z.of_nat n))
        with (Zsum (Datatypes.S n)
                (fun j => Short.load query j * Short.load stored (p + j))).
      apply Zsum_product_bound.
      * exact (norm_prefix query 0 dims (Datatypes.S n) query_norm Hn).
      * exact (norm_prefix stored p dims (Datatypes.S n) Hs Hn).
Qed.

(** The scalar path computes the exact inner product. *)
Lemma float_scalar_dot_exact (p : Z) :
  sq_norm stored p dims <= 2 ^ 22 ->
  Float.scalar_dot nn fquery p
  = (Float.of_Z
       (Zsum (Z.to_nat dims)
          (fun j => Short.load query j * Short.load stored (p + j)))
       (-22),
     p + Z.of_nat (Z.to_nat dims)).
Proof.
  intros Hs. unfold Float.scalar_dot, for_range. cbn [dimensions].
  now apply float_scalar_loop.
Qed.

Lemma float_sse_loop (pp : Z) (n : nat) :
  sq_norm stored (4 * pp) dims <= 2 ^ 22 -> (4 * n <= Z.to_nat dims)%nat ->
  for_loop n 0
    (fun (_ : Z) '(sum, query_ptr, descr_ptr) =>
       (Float._mm_add_ps sum
          (Float._mm_mul_ps (Float.deref fquery query_ptr)
             (Float.deref (elements nn) descr_ptr)),
        query_ptr + 1, descr_ptr + 1))
    (Float._mm_setzero_ps, 0, pp)
  = (map (fun l =>
            Float.of_Z
              (Zsum n (fun k => Short.load query (4 * k + l)
                                * Short.load stored (4 * pp + (4 * k + l))))
              (-22))
       Float.lanes,
     Z.of_nat n, pp + Z.of_nat n).
Proof.
  intros Hs. induction n as [|n IH]; intros Hn.
  - simpl. now rewrite Z.add_0_r.
  - rewrite for_loop_snoc, IH by lia. cbn [elements].
    f_equal; [f_equal|]; try lia.
    unfold Float._mm_add_ps, Float._mm_mul_ps, Float.lanewise, Float.deref.
    apply map_ext_in. intros l Hl.
    rewrite !float_load_lanes by assumption.
    rewrite !load_fixed_point. cbn [Zsum].
    assert (Hl4 : 0 <= l < 4)
      by (unfold Float.lanes in Hl; simpl in Hl; lia).
    replace (4 * (pp + Z.of_nat n) + l) with (4 * pp + (4 * Z.of_nat n + l))
      by lia.
    apply fixed_point_step.
    + apply query_term. lia.
    + apply (norm_term stored (4 * pp) dims); [assumption|lia].
    + apply (Zsum_product_bound n
               (fun k => Short.load query (4 * k + l))
               (fun k => Short.load stored (4 * pp + (4 * k + l)))).
      * exact (norm_lane_prefix query 0 dims l n query_norm ltac:(lia) Hl).
      * exact (norm_lane_prefix stored (4 * pp) dims l n Hs ltac:(lia) Hl).
    + apply (Zsum_product_bound (Datatypes.S n)
               (fun k => Short.load query (4 * k + l))
               (fun k => Short.load stored (4 * pp + (4 * k + l)))).
      * exact (norm_lane_prefix query 0 dims l (Datatypes.S n) query_norm Hn Hl).
      * exact (norm_lane_prefix stored (4 * pp) dims l (Datatypes.S n) Hs Hn Hl).
Qed.

Hypothesis dims_mult : dims mod 4 = 0.

Lemma dim_4_eq : dims = 4 * Z.quot dims 4.
Proof.
  rewrite Z.quot_div_nonneg by lia. pose proof (Z.div_mod dims 4). lia.
Qed.

(** The SSE path computes the exact inner product as well. *)
Lemma float_sse_dot_exact (pp : Z) :
  sq_norm stored (4 * pp) dims <= 2 ^ 22 ->
  Float.sse_dot nn fquery pp
  = (Float.of_Z
       (Zsum (Z.to_nat dims)
          (fun j => Short.load query j * Short.load stored (4 * pp + j)))
       (-22),
     pp + Z.of_nat (Z.to_nat (Z.quot dims 4))).
Proof.
  intros Hs. pose proof dim_4_eq as Hd.
  assert (Hd4 : 0 <= Z.quot dims 4) by (apply Z.quot_pos; lia).
  unfold Float.sse_dot, for_range. cbn [dimensions].
  rewrite float_sse_loop by (assumption || lia).
  set (n := Z.to_nat (Z.quot dims 4)).
  set (lane := fun l => Zsum n (fun k => Short.load query (4 * k + l)
                            * Short.load stored (4 * pp + (4 * k + l)))).
  assert (Hlane : forall l, In l Float.lanes -> Z.abs (lane l) <= 2 ^ 22).
  { intros l Hl. subst lane. cbv beta.
    apply (Zsum_product_bound n
             (fun k => Short.load query (4 * k + l))
             (fun k => Short.load stored (4 * pp + (4 * k + l)))).
    - exact (norm_lane_prefix query 0 dims l n query_norm ltac:(lia) Hl).
    - exact (norm_lane_prefix stored (4 * pp) dims l n Hs ltac:(lia) Hl). }
  assert (Htotal : Zsum (Z.to_nat dims)
                     (fun j => Short.load query j * Short.load stored (4 * pp + j))
                   = lane 0 + lane 1 + lane 2 + lane 3).
  { replace (Z.to_nat dims) with (4 * n)%nat by lia.
    rewrite Zsum_lanes4. reflexivity. }
  assert (Hsum : Z.abs (lane 0 + lane 1 + lane 2 + lane 3) <= 2 ^ 22).
  { rewrite <- Htotal. apply Zsum_product_bound.
    - exact (norm_prefix query 0 dims (Z.to_nat dims) query_norm (le_n _)).
    - exact (norm_prefix stored (4 * pp) dims (Z.to_nat dims) Hs (le_n _)). }
  pose proof (Hlane 0 ltac:(simpl; auto)) as H0.
  pose proof (Hlane 1 ltac:(simpl; auto)) as H1.
  pose proof (Hlane 2 ltac:(simpl; auto)) as H2.
  pose proof (Hlane 3 ltac:(simpl; auto)) as H3.
  change (2 ^ 22) with 4194304 in *.
  f_equal. rewrite Htotal.
  cbn [map Float.lanes]. rewrite hadd_twice.
  fold (lane 0) (lane 1) (lane 2) (lane 3).
  rewrite !fadd_exact by (change (2 ^ 24) with 16777216; lia).
  f_equal. lia.
Qed.
End FixedPoint.

Lemma float_dots_agree (dims num : Z) (stored query : list Z) (n : nat) :
  0 <= dims -> dims mod 4 = 0 -> sq_norm query 0 dims <= 2 ^ 22 ->
  let nn := {| dimensions := dims; num_elements := num;
               elements := map fixed_point stored |} in
  forall i,
    (forall j, i <= j < i + Z.of_nat n ->
       sq_norm stored (j * dims) dims <= 2 ^ 22) ->
    dots_from (Float.sse_dot nn (map fixed_point query)) n
      (i * Z.quot dims 4)
    = dots_from (Float.scalar_dot nn (map fixed_point query)) n (i * dims).
Proof.
  intros Hd Hm Hq nn. pose proof (dim_4_eq dims Hd Hm) as Hd4.
  assert (H4 : 0 <= Z.quot dims 4) by (apply Z.quot_pos; lia).
  induction n as [|n IH]; intros i Hs.
  - reflexivity.
  - cbn [dots_from]. subst nn.
    rewrite (float_sse_dot_exact dims num stored query Hd Hq Hm)
      by (replace (4 * (i * Z.quot dims 4)) with (i * dims) by lia;
          apply Hs; lia).
    rewrite (float_scalar_dot_exact dims num stored query Hq)
      by (apply Hs; lia).
    replace (4 * (i * Z.quot dims 4)) with (i * dims) by lia.
    f_equal.
    replace (i * Z.quot dims 4 + Z.of_nat (Z.to_nat (Z.quot dims 4)))
      with ((i + 1) * Z.quot dims 4) by lia.
    replace (i * dims + Z.of_nat (Z.to_nat dims)) with ((i + 1) * dims)
      by lia.
    apply IH. intros j Hj. apply Hs. lia.
Qed.

(** C4, as the code has it.  Quantized matcher: when the dimension is a
    multiple of 8 and, for every stored descriptor, the exact sum of the
    products falling into each of the eight 16-bit lanes is representable in
    a lane, the SSE path and the scalar path compute the same inner products
    and [find] returns the same result, indices and distances, on both.
    Float matcher: the scalar path adds the products from left to right, the
    SSE path adds them in four lanes and then the lanes in pairs.  When the
    dimension is a multiple of 4 and the components of the query and of the
    stored descriptors are multiples of [2^-11] ([fixed_point]) with squared
    norms of at most 1 (at most [2^22] in these units), every product and
    every sum is exact on both paths, and [find] returns the same result,
    indices and distances, on both. *)
Theorem sse_and_scalar_paths_agree :
  (forall nn query,
     (dimensions nn) mod 8 = 0 -> 0 <= dimensions nn ->
     Short.lanes_fit nn query = true ->
     Short.find SSE nn query = Short.find Scalar nn query)
  /\
  (forall (dims num : Z) (stored query : list Z),
     dims mod 4 = 0 -> 0 <= dims ->
     sq_norm query 0 dims <= 2 ^ 22 ->
     (forall i, 0 <= i < num -> sq_norm stored (i * dims) dims <= 2 ^ 22) ->
     let nn := {| dimensions := dims; num_elements := num;
                  elements := map fixed_point stored |} in
     Float.find SSE nn (map fixed_point query)
     = Float.find Scalar nn (map fixed_point query)).
Proof.
  split.
  - intros nn query Hmod Hdim Hfit. unfold Short.find.
    rewrite !short_scan_result_top2.
    now rewrite (inner_products_agree nn query Hmod Hdim Hfit).
  - intros dims num stored query Hm Hd Hq Hs nn.
    assert (Hips : Float.inner_products SSE nn (map fixed_point query)
                   = Float.inner_products Scalar nn (map fixed_point query)).
    { unfold Float.inner_products, dots. cbn [Float.dot num_elements nn].
      pose proof (float_dots_agree dims num stored query (Z.to_nat num)
                    Hd Hm Hq 0) as H.
      cbv zeta in H. rewrite !Z.mul_0_l in H. apply H.
      intros j Hj. apply Hs. lia. }
    unfold Float.find. rewrite !float_scan_result_top2. now rewrite Hips.
Qed.

Lemma sse_and_scalar_paths_agree_witness :
  let nn := {| dimensions := 8; num_elements := 2;
               elements := [90; 0; 0; 0; 0; 0; 0; 89;
                            0; 127; 0; 0; 0; 0; 0; 0] |} in
  let query := [90; 0; 0; 0; 0; 0; 0; 89] in
  Short.find SSE nn query = Short.find Scalar nn query
  /\ (let stored := [2048; 0; 0; 0;  1024; 1024; 1024; 1024;
                     -1024; 1024; -1024; 1024] in
      let query := [1024; 1024; 1024; -1024] in
      let nf := {| dimensions := 4; num_elements := 3;
                   elements := map fixed_point stored |} in
      Float.find SSE nf (map fixed_point query)
      = Float.find Scalar nf (map fixed_point query)).
Proof.
  cbv zeta. split.
  - apply (proj1 sse_and_scalar_paths_agree);
      [reflexivity | simpl; lia | vm_compute; reflexivity].
  - apply (proj2 sse_and_scalar_paths_agree 4 3);
      [reflexivity | lia | vm_compute; discriminate | ].
    intros i Hi.
    assert (Hc : i = 0 \/ i = 1 \/ i = 2) by lia.
    destruct Hc as [->|[->| ->]]; vm_compute; discriminate.
Defined.

(** C4, counterexample.  Dimension 24, components within the 8-bit range:
    the second descriptor equals the query, its inner product 48387 wraps
    to -17149 in lane 0 of the SSE path, and the two paths return the two
    indices in opposite order with different distances.  In the float
    matcher, dimension 8, components in units of [2^-24]: the query and the
    two stored descriptors have a squared norm of exactly 1 ([2^48] in these
    units).  The inner product of the first descriptor is 1/2 on both paths.
    For the second the scalar path adds [2^-25] twice to 1/2, a tie that
    rounds back to 1/2 each time, while the SSE path adds the two in their
    lanes first and gets [1/2 + 2^-24].  So the scalar path keeps the first
    descriptor as the best at distance 1, and the SSE path returns the
    second as the best at distance [1 - 2^-23]. *)
Lemma sse_and_scalar_paths_differ :
  (let nn := {| dimensions := 24; num_elements := 2;
                elements := [1; 0; 0; 0; 0; 0; 0; 0;  0; 0; 0; 0; 0; 0; 0; 0;
                             0; 0; 0; 0; 0; 0; 0; 0;
                             127; 0; 0; 0; 0; 0; 0; 0;  127; 0; 0; 0; 0; 0; 0; 0;
                             127; 0; 0; 0; 0; 0; 0; 0] |} in
   let query := [127; 0; 0; 0; 0; 0; 0; 0;  127; 0; 0; 0; 0; 0; 0; 0;
                 127; 0; 0; 0; 0; 0; 0; 0] in
   (dimensions nn) mod 8 = 0
   /\ Short.find Scalar nn query
      = {| dist_1st_best := 32258; dist_2nd_best := 32004;
           index_1st_best := 1; index_2nd_best := 0 |}
   /\ Short.find SSE nn query
      = {| dist_1st_best := 32004; dist_2nd_best := 32258;
           index_1st_best := 0; index_2nd_best := 1 |})
  /\
  (let units := map (fun n => Float.of_Z n (-24)) in
   let stored := [8388608; 8388608; 0; 0; 8388608; 8388608; 0; 0;
                  8388608; 8388608; 1; 1; 11863283; 2194; 60; 1] in
   let query := [8388608; 8388608; 8388608; 8388608; 0; 0; 0; 0] in
   let nn := {| dimensions := 8; num_elements := 2;
                elements := units stored |} in
   (dimensions nn) mod 4 = 0
   /\ sq_norm query 0 8 = 2 ^ 48
   /\ sq_norm stored 0 8 = 2 ^ 48
   /\ sq_norm stored 8 8 = 2 ^ 48
   /\ Float.inner_products Scalar nn (units query)
      = [Float.of_Z 1 (-1); Float.of_Z 1 (-1)]
   /\ Float.inner_products SSE nn (units query)
      = [Float.of_Z 1 (-1); Float.of_Z 8388609 (-24)]
   /\ Float.find Scalar nn (units query)
      = {| dist_1st_best := Float.one; dist_2nd_best := Float.one;
           index_1st_best := 0; index_2nd_best := 1 |}
   /\ Float.find SSE nn (units query)
      = {| dist_1st_best := Float.of_Z 16777214 (-24);
           dist_2nd_best := Float.one;
           index_1st_best := 1; index_2nd_best := 0 |}).
Proof. vm_compute. repeat split. Qed.

Set Implicit Arguments.

(** ** dmrecon: the two wordings of the scale in the spec *)

Lemma least_from_spec (test : Z -> bool) (fuel : nat) : forall s,
  (exists t, s <= t <= s + Z.of_nat fuel /\ test t = true) ->
  let r := Dmrecon.least_from test fuel s in
  s <= r /\ test r = true /\ forall t, s <= t < r -> test t = false.
Proof.
  induction fuel as [|fuel IH]; intros s [t [Ht Htest]]; cbv zeta.
  - simpl. replace t with s in Htest by lia.
    repeat split; [lia|assumption|intros; lia].
  - cbn [Dmrecon.least_from]. destruct (test s) eqn:Es.
    + repeat split; [lia|assumption|intros; lia].
    + assert (Hex : exists t', s + 1 <= t' <= s + 1 + Z.of_nat fuel
                               /\ test t' = true).
      { exists t. split; [|assumption].
        assert (t <> s) by congruence. lia. }
      destruct (IH (s + 1) Hex) as (Hle & Hr & Hmin).
      repeat split; [lia|assumption|].
      intros t' Ht'. destruct (Z.eq_dec t' s) as [->|Hne]; [assumption|].
      apply Hmin. lia.
Qed.

(** [spec_ceil_log4 num den] is the least [s >= 0] with
    [num <= den * 4^s]. *)
Lemma spec_ceil_log4_spec (num den : Z) :
  0 < den -> num < 2 ^ 31 ->
  let s := Dmrecon.spec_ceil_log4 num den in
  0 <= s /\ num <= den * 4 ^ s /\ forall t, 0 <= t < s -> den * 4 ^ t < num.
Proof.
  intros Hden Hnum. cbv zeta. unfold Dmrecon.spec_ceil_log4.
  destruct (@least_from_spec (fun s => num <=? den * 4 ^ s) 32 0)
    as (H0 & Hs & Hmin).
  { exists 16. split; [simpl; lia|]. apply Z.leb_le.
    change (4 ^ 16) with 4294967296. change (2 ^ 31) with 2147483648 in Hnum.
    lia. }
  split; [assumption|]. split; [now apply Z.leb_le|].
  intros t Ht. specialize (Hmin t Ht). apply Z.leb_gt in Hmin. lia.
Qed.

(** [spec_shift_scale pixels max_pixels] is the least [s >= 0] with
    [pixels >> (2 s) <= max_pixels]. *)
Lemma spec_shift_scale_spec (pixels max_pixels : Z) :
  0 < max_pixels -> 0 <= pixels < 2 ^ 31 ->
  let s := Dmrecon.spec_shift_scale pixels max_pixels in
  0 <= s /\ Z.shiftr pixels (2 * s) <= max_pixels
  /\ forall t, 0 <= t < s -> max_pixels < Z.shiftr pixels (2 * t).
Proof.
  intros Hmp Hpix. cbv zeta. unfold Dmrecon.spec_shift_scale.
  destruct (@least_from_spec
              (fun s => Z.shiftr pixels (2 * s) <=? max_pixels) 32 0)
    as (H0 & Hs & Hmin).
  { exists 16. split; [simpl; lia|]. apply Z.leb_le.
    rewrite Z.shiftr_div_pow2 by lia.
    change (2 ^ (2 * 16)) with 4294967296.
    change (2 ^ 31) with 2147483648 in Hpix.
    rewrite Z.div_small by lia. lia. }
  split; [assumption|]. split; [now apply Z.leb_le|].
  intros t Ht. specialize (Hmin t Ht). apply Z.leb_gt in Hmin. lia.
Qed.

Unset Implicit Arguments.

(** ** dmrecon: the scale derived in binary32 *)

Lemma valid32_bounds (s : bool) (m : positive) (e : Z) :
  valid32 (S754_finite s m e) ->
  -149 <= e <= 104 /\ Zpos m < 2 ^ 24 /\ (-149 < e -> 2 ^ 23 <= Zpos m).
Proof.
  intros H. destruct (valid32_finite s m e H) as [He Hd].
  pose proof (digits2_pos_spec m) as [Hlo Hhi].
  split; [assumption|]. split.
  - destruct Hd as [Hd|[_ Hd]].
    + now rewrite Hd in Hhi.
    + assert (2 ^ Zpos (digits2_pos m) <= 2 ^ 24)
        by (apply Z.pow_le_mono_r; lia). lia.
  - intros He'. destruct Hd as [Hd|[Hd _]]; [|lia].
    rewrite Hd in Hlo. exact Hlo.
Qed.

Lemma valid32_intro (s : bool) (m : positive) (e : Z) :
  Zpos (digits2_pos m) = 24 -> -149 <= e <= 104 ->
  valid32 (S754_finite s m e).
Proof.
  intros Hd He. unfold valid32, valid_binary, bounded, canonical_mantissa.
  rewrite Hd. apply andb_true_intro. split.
  - unfold fexp, emin. apply Z.eqb_eq. lia.
  - apply Z.leb_le. lia.
Qed.

Lemma SFcompare_pos_value (m1 : positive) (e1 : Z) (m2 : positive) (e2 : Z) :
  valid32 (S754_finite false m1 e1) -> valid32 (S754_finite false m2 e2) ->
  SFcompare (S754_finite false m1 e1) (S754_finite false m2 e2)
  = Some (Zpos m1 * 2 ^ (e1 + 149) ?= Zpos m2 * 2 ^ (e2 + 149)).
Proof.
  intros H1 H2.
  destruct (valid32_bounds _ _ _ H1) as (He1 & Hm1 & Hn1).
  destruct (valid32_bounds _ _ _ H2) as (He2 & Hm2 & Hn2).
  change (2 ^ 24) with 16777216 in *. change (2 ^ 23) with 8388608 in *.
  cbn [SFcompare]. f_equal.
  destruct (Z.compare_spec e1 e2) as [->|Hlt|Hgt].
  - change (PosDef.Pos.compare_cont Eq m1 m2) with (Zpos m1 ?= Zpos m2).
    apply Zmult_compare_compat_r.
    apply Z.lt_gt, Z.pow_pos_nonneg; lia.
  - symmetry. apply Z.compare_lt_iff.
    replace (e2 + 149) with ((e1 + 149) + (e2 - e1)) by lia.
    rewrite (Z.pow_add_r 2 (e1 + 149) (e2 - e1)) by lia.
    assert (0 < 2 ^ (e1 + 149)) by (apply Z.pow_pos_nonneg; lia).
    assert (2 ^ 1 <= 2 ^ (e2 - e1)) by (apply Z.pow_le_mono_r; lia).
    change (2 ^ 1) with 2 in *. specialize (Hn2 ltac:(lia)).
    set (X := 2 ^ (e1 + 149)) in *. set (Y := 2 ^ (e2 - e1)) in *.
    assert (Zpos m1 * X < 16777216 * X)
      by (apply Z.mul_lt_mono_pos_r; lia).
    assert (8388608 * (X * 2) <= Zpos m2 * (X * Y)).
    { apply Z.mul_le_mono_nonneg; try lia.
      apply Z.mul_le_mono_nonneg; lia. }
    lia.
  - symmetry. apply Z.compare_gt_iff.
    replace (e1 + 149) with ((e2 + 149) + (e1 - e2)) by lia.
    rewrite (Z.pow_add_r 2 (e2 + 149) (e1 - e2)) by lia.
    assert (0 < 2 ^ (e2 + 149)) by (apply Z.pow_pos_nonneg; lia).
    assert (2 ^ 1 <= 2 ^ (e1 - e2)) by (apply Z.pow_le_mono_r; lia).
    change (2 ^ 1) with 2 in *. specialize (Hn1 ltac:(lia)).
    set (X := 2 ^ (e2 + 149)) in *. set (Y := 2 ^ (e1 - e2)) in *.
    assert (Zpos m2 * X < 16777216 * X)
      by (apply Z.mul_lt_mono_pos_r; lia).
    assert (8388608 * (X * 2) <= Zpos m1 * (X * Y)).
    { apply Z.mul_le_mono_nonneg; try lia.
      apply Z.mul_le_mono_nonneg; lia. }
    lia.
Qed.

(** An integer of up to 24 bits is converted exactly. *)
Lemma int_to_float_exact (j : Z) :
  1 <= j < 2 ^ 24 ->
  exists m e,
    Dmrecon.int_to_float j = S754_finite false m e
    /\ valid32 (S754_finite false m e)
    /\ -23 <= e <= 0 /\ Zpos m = j * 2 ^ (- e).
Proof.
  intros Hj. destruct j as [|p|p]; try lia.
  unfold Dmrecon.int_to_float, binary_normalize, binary_round.
  pose proof (digits2_pos_spec p) as [Hlo Hhi].
  set (D := Zpos (digits2_pos p)) in *.
  assert (HD : 1 <= D <= 24).
  { subst D. split; [lia|].
    destruct (Z.le_gt_cases (Zpos (digits2_pos p)) 24) as [|Hgt]; [assumption|].
    assert (2 ^ 24 <= 2 ^ (Zpos (digits2_pos p) - 1))
      by (apply Z.pow_le_mono_r; lia). lia. }
  rewrite Z.add_0_r.
  change Float.prec with 24. change Float.emax with 128.
  rewrite fexp_normal by lia.
  pose proof (shl_align_fst p 0 (D - 24) ltac:(lia)) as Hf.
  pose proof (shl_align_snd p 0 (D - 24) ltac:(lia)) as Hs.
  destruct (shl_align p 0 (D - 24)) as [mz ez]. cbn [fst snd] in Hf, Hs.
  subst ez. replace (0 - (D - 24)) with (24 - D) in Hf by lia.
  assert (Hdz : Zpos (digits2_pos mz) = 24).
  { apply digits2_pos_unique. rewrite Hf.
    assert (H23 : 2 ^ (24 - 1) = 2 ^ (D - 1) * 2 ^ (24 - D))
      by (rewrite <- Z.pow_add_r by lia; f_equal; lia).
    assert (H24 : 2 ^ 24 = 2 ^ D * 2 ^ (24 - D))
      by (rewrite <- Z.pow_add_r by lia; f_equal; lia).
    rewrite H23, H24.
    assert (0 < 2 ^ (24 - D)) by (apply Z.pow_pos_nonneg; lia).
    split; [apply Z.mul_le_mono_nonneg_r; lia
           |apply Z.mul_lt_mono_pos_r; lia]. }
  rewrite binary_round_aux_exact by (try assumption; lia).
  exists mz, (D - 24). split; [reflexivity|]. split.
  - apply valid32_intro; [assumption|lia].
  - split; [lia|]. rewrite Hf. f_equal. f_equal. lia.
Qed.

Lemma int_to_float_zero : Dmrecon.int_to_float 0 = Float.zero.
Proof. reflexivity. Qed.

(** Comparing a converted integer with a positive binary32 number is
    comparing the values. *)
Lemma int_float_compare (j : Z) (m : positive) (e : Z) :
  1 <= j < 2 ^ 24 -> valid32 (S754_finite false m e) ->
  SFcompare (Dmrecon.int_to_float j) (S754_finite false m e)
  = Some (j * 2 ^ 149 ?= Zpos m * 2 ^ (e + 149))
  /\ SFcompare (S754_finite false m e) (Dmrecon.int_to_float j)
     = Some (Zpos m * 2 ^ (e + 149) ?= j * 2 ^ 149).
Proof.
  intros Hj Hv.
  destruct (int_to_float_exact j Hj) as (mj & ej & -> & Hvj & Hej & Hmj).
  rewrite !SFcompare_pos_value by assumption.
  assert (Hval : Zpos mj * 2 ^ (ej + 149) = j * 2 ^ 149).
  { rewrite Hmj. rewrite <- Z.mul_assoc, <- Z.pow_add_r by lia.
    f_equal. f_equal. lia. }
  rewrite Hval. split; reflexivity.
Qed.

Lemma float_to_int_of_int (k : Z) :
  1 <= k < 2 ^ 24 -> Dmrecon.float_to_int (Dmrecon.int_to_float k) = k.
Proof.
  intros Hk. destruct (int_to_float_exact k Hk) as (m & e & -> & _ & He & Hm).
  change (2 ^ 24) with 16777216 in Hk.
  unfold Dmrecon.float_to_int. cbn [cond_Zopp].
  assert (Hn : (if 0 <=? e then Zpos m * 2 ^ e
                else Z.quot (Zpos m) (2 ^ (- e))) = k).
  { destruct (0 <=? e) eqn:E.
    - apply Z.leb_le in E. replace e with 0 in * by lia.
      simpl in Hm. simpl. lia.
    - rewrite Hm. apply Z.quot_mul.
      apply Z.pow_nonzero; lia. }
  rewrite Hn.
  destruct (-2147483648 <=? k) eqn:E1; [|apply Z.leb_gt in E1; lia].
  destruct (k <=? 2147483647) eqn:E2; [|apply Z.leb_gt in E2; lia].
  reflexivity.
Qed.

(** [std::ceil] and the conversion to [int], for a binary32 number [q]
    with [k - 1 < q <= k]. *)
Lemma ceil_between (q : spec_float) (k : Z) :
  valid32 q -> 1 <= k < 2 ^ 24 ->
  Float.flt (Dmrecon.int_to_float (k - 1)) q = true ->
  Float.fle q (Dmrecon.int_to_float k) = true ->
  Dmrecon.float_to_int (Dmrecon.ceilf q) = k.
Proof.
  intros Hv Hk Hlt Hle.
  assert (Hkf := int_to_float_exact k Hk).
  destruct q as [sq|sq| |sq m e].
  - (* zero *)
    exfalso. destruct (Z.eq_dec k 1) as [->|Hk1].
    + cbv in Hlt; discriminate Hlt.
    + destruct (int_to_float_exact (k - 1) ltac:(lia)) as (m' & e' & E & _).
      rewrite E in Hlt. discriminate Hlt.
  - (* infinity *)
    exfalso. destruct sq.
    + destruct (Z.eq_dec k 1) as [->|Hk1]; [cbv in Hlt; discriminate Hlt|].
      destruct (int_to_float_exact (k - 1) ltac:(lia)) as (m' & e' & E & _).
      rewrite E in Hlt. discriminate Hlt.
    + destruct Hkf as (m' & e' & E & _). rewrite E in Hle. discriminate Hle.
  - exfalso. unfold Float.flt, SFltb in Hlt.
    destruct (Dmrecon.int_to_float (k - 1)); discriminate Hlt.
  - destruct sq.
    { exfalso. destruct (Z.eq_dec k 1) as [->|Hk1]; [cbv in Hlt; discriminate Hlt|].
      destruct (int_to_float_exact (k - 1) ltac:(lia)) as (m' & e' & E & _).
      rewrite E in Hlt. discriminate Hlt. }
    destruct (valid32_bounds _ _ _ Hv) as (He & Hm & _).
    change (2 ^ 24) with 16777216 in *.
    assert (Hlo : (k - 1) * 2 ^ 149 < Zpos m * 2 ^ (e + 149)).
    { destruct (Z.eq_dec k 1) as [->|Hk1].
      - assert (0 < 2 ^ (e + 149)) by (apply Z.pow_pos_nonneg; lia). lia.
      - destruct (int_float_compare (k - 1) m e ltac:(change (2 ^ 24) with 16777216; lia) Hv)
          as [Hc _].
        unfold Float.flt, SFltb in Hlt. rewrite Hc in Hlt.
        destruct (Z.compare_spec ((k - 1) * 2 ^ 149) (Zpos m * 2 ^ (e + 149)));
          try discriminate Hlt. assumption. }
    assert (Hhi : Zpos m * 2 ^ (e + 149) <= k * 2 ^ 149).
    { destruct (int_float_compare k m e ltac:(change (2 ^ 24) with 16777216; lia) Hv)
        as [_ Hc].
      unfold Float.fle, SFleb in Hle. rewrite Hc in Hle.
      destruct (Z.compare_spec (Zpos m * 2 ^ (e + 149)) (k * 2 ^ 149));
        try discriminate Hle; lia. }
    unfold Dmrecon.ceilf. destruct (0 <=? e) eqn:E.
    + apply Z.leb_le in E.
      replace (e + 149) with (149 + e) in Hlo, Hhi by lia.
      rewrite Z.pow_add_r in Hlo, Hhi by lia.
      assert (H149 : 0 < 2 ^ 149) by (apply Z.pow_pos_nonneg; lia).
      assert (Hval : Zpos m * 2 ^ e = k).
      { set (P := 2 ^ 149) in *. set (V := Zpos m * 2 ^ e).
        assert ((k - 1) * P < V * P) by (subst V; lia).
        assert (V * P <= k * P) by (subst V; lia).
        assert (k - 1 < V) by (apply Z.mul_lt_mono_pos_r with P; lia).
        assert (V <= k) by (apply Z.mul_le_mono_pos_r with P; lia).
        lia. }
      unfold Dmrecon.float_to_int. cbn [cond_Zopp].
      apply Z.leb_le in E. rewrite E. rewrite Hval.
      destruct (-2147483648 <=? k) eqn:E1; [|apply Z.leb_gt in E1; lia].
      destruct (k <=? 2147483647) eqn:E2; [|apply Z.leb_gt in E2; lia].
      reflexivity.
    + apply Z.leb_gt in E. cbn [cond_Zopp].
      assert (H149 : 2 ^ 149 = 2 ^ (e + 149) * 2 ^ (- e))
        by (rewrite <- Z.pow_add_r by lia; f_equal; lia).
      assert (HX : 0 < 2 ^ (e + 149)) by (apply Z.pow_pos_nonneg; lia).
      assert (HA : 0 < 2 ^ (- e)) by (apply Z.pow_pos_nonneg; lia).
      set (X := 2 ^ (e + 149)) in *. set (A := 2 ^ (- e)) in *.
      rewrite H149 in Hlo, Hhi.
      assert (Hlo' : (k - 1) * A < Zpos m).
      { apply Z.mul_lt_mono_pos_r with X; lia. }
      assert (Hhi' : Zpos m <= k * A).
      { apply Z.mul_le_mono_pos_r with X; lia. }
      assert (Hn : - (- Zpos m / A) = k).
      { assert (- Zpos m / A = - k); [|lia].
        symmetry. apply Z.div_unique with (k * A - Zpos m); lia. }
      rewrite Hn.
      destruct (k =? 0) eqn:E0; [apply Z.eqb_eq in E0; lia|].
      apply (float_to_int_of_int k). change (2 ^ 24) with 16777216. lia.
Qed.

(** A quotient that is not above zero gives a result that is not above
    zero. *)
Lemma ceil_nonpos (q : spec_float) :
  Float.fle q Float.zero = true ->
  Dmrecon.float_to_int (Dmrecon.ceilf q) <= 0.
Proof.
  intros Hle. destruct q as [sq|sq| |sq m e].
  - simpl. lia.
  - simpl. lia.
  - discriminate Hle.
  - destruct sq; [|discriminate Hle].
    unfold Dmrecon.ceilf. destruct (0 <=? e) eqn:E.
    + unfold Dmrecon.float_to_int. rewrite E. cbn [cond_Zopp].
      assert (0 < 2 ^ e) by (apply Z.pow_pos_nonneg; apply Z.leb_le in E; lia).
      destruct (_ && _); lia.
    + apply Z.leb_gt in E. cbn [cond_Zopp].
      assert (HA : 0 < 2 ^ (- e)) by (apply Z.pow_pos_nonneg; lia).
      rewrite Z.opp_involutive.
      assert (Hd : 0 <= Zpos m / 2 ^ (- e)) by (apply Z.div_pos; lia).
      destruct (- (Zpos m / 2 ^ (- e)) =? 0) eqn:E0; [simpl; lia|].
      apply Z.eqb_neq in E0.
      destruct (Zpos m / 2 ^ (- e)) as [|p|p] eqn:Ep; try lia.
      cbn [Z.opp binary_normalize].
      pose proof (binary_round_neg p 0) as Hneg.
      change Float.prec with 24. change Float.emax with 128.
      destruct (binary_round 24 128 true p 0) as [s'|s'| |s' m' e'].
      * simpl. lia.
      * simpl. lia.
      * simpl. lia.
      * destruct s'; [|discriminate Hneg].
        unfold Dmrecon.float_to_int. cbn [cond_Zopp].
        destruct (0 <=? e') eqn:E'.
        -- assert (0 < 2 ^ e')
             by (apply Z.pow_pos_nonneg; apply Z.leb_le in E'; lia).
           destruct (_ && _); lia.
        -- apply Z.leb_gt in E'.
           assert (0 < 2 ^ (- e')) by (apply Z.pow_pos_nonneg; lia).
           assert (Z.quot (Zneg m') (2 ^ (- e')) <= 0).
           { rewrite <- Pos2Z.opp_pos, Z.quot_opp_l by lia.
             assert (0 <= Z.quot (Zpos m') (2 ^ (- e')))
               by (apply Z.quot_pos; lia). lia. }
           destruct (_ && _); lia.
Qed.

(** C7, as the code has it.  With a pixel budget [max_pixels > 0] and an
    image of [pixels = width * height] (an [int]) the derived scale is never
    negative, and it is 0 when [pixels <= max_pixels].  Otherwise it is
    [max(0, (int) ceil(q))] with every step in binary32: [ratio] is the
    quotient of the two integers converted to [float], and [q] the quotient
    of the library logarithms of [ratio] and of [4.0f].  So the scale is 0
    when [q <= 0], and it is [k] when [q] is a binary32 number with
    [k - 1 < q <= k].  For [max_pixels = 1000] and a 2000 x 2000 image
    [ratio] is exactly 4000, and the scale is 6 for every logarithm with
    [5 < q <= 6].  The scale is not the smallest [s] with
    [(width * height) >> (2 s) <= max_pixels], and not always the exact
    [ceil(log4(pixels / max_pixels))]: see the counterexample. *)
Theorem scale_from_max_pixels :
  forall logf scene app_settings mvs_settings view proxy,
    0 < Dmrecon.max_pixels app_settings ->
    Dmrecon.get_view_by_id scene (Dmrecon.refViewNr mvs_settings) = Some view ->
    Dmrecon.get_proxy view (Dmrecon.imageEmbedding mvs_settings) = Some proxy ->
    let pixels := to_int (Dmrecon.width proxy * Dmrecon.height proxy) in
    let budget := Dmrecon.max_pixels app_settings in
    let ratio :=
      Dmrecon.fdiv (Dmrecon.int_to_float pixels) (Dmrecon.int_to_float budget) in
    let q := Dmrecon.fdiv (logf ratio) (logf Dmrecon.four) in
    let s :=
      Dmrecon.get_scale_from_max_pixels logf scene app_settings mvs_settings in
    0 <= s
    /\ (pixels <= budget -> s = 0)
    /\ (budget < pixels ->
        (Float.fle q Float.zero = true -> s = 0)
        /\ (forall k, 1 <= k < 2 ^ 24 -> valid32 q ->
              Float.flt (Dmrecon.int_to_float (k - 1)) q = true ->
              Float.fle q (Dmrecon.int_to_float k) = true -> s = k))
    /\ (pixels = 2000 * 2000 -> budget = 1000 ->
        ratio = S754_finite false 16384000 (-12)
        /\ (valid32 q -> Float.flt five q = true -> Float.fle q six = true ->
            s = 6)).
Proof.
  intros logf scene app mvs_s view proxy Hmp Hview Hproxy. cbv zeta.
  unfold Dmrecon.get_scale_from_max_pixels. rewrite Hview, Hproxy. cbv zeta.
  set (pixels := to_int (Dmrecon.width proxy * Dmrecon.height proxy)).
  set (budget := Dmrecon.max_pixels app) in *.
  set (ratio := Dmrecon.fdiv (Dmrecon.int_to_float pixels)
                  (Dmrecon.int_to_float budget)).
  set (q := Dmrecon.fdiv (logf ratio) (logf Dmrecon.four)).
  assert (Hbetween : forall k, 1 <= k < 2 ^ 24 -> valid32 q ->
            Float.flt (Dmrecon.int_to_float (k - 1)) q = true ->
            Float.fle q (Dmrecon.int_to_float k) = true ->
            budget < pixels ->
            (if pixels <=? budget then 0
             else Z.max 0 (Dmrecon.float_to_int (Dmrecon.ceilf q))) = k).
  { intros k Hk Hv Hlt Hle Hgt.
    destruct (pixels <=? budget) eqn:E; [apply Z.leb_le in E; lia|].
    rewrite (ceil_between q k Hv Hk Hlt Hle). lia. }
  split; [|split; [|split]].
  - destruct (pixels <=? budget); lia.
  - intros Hle. destruct (pixels <=? budget) eqn:E;
      [reflexivity|apply Z.leb_gt in E; lia].
  - intros Hgt. split.
    + intros Hq. destruct (pixels <=? budget); [reflexivity|].
      pose proof (ceil_nonpos q Hq). lia.
    + intros k Hk Hv Hlt Hle. now apply Hbetween.
  - intros Hp Hb. split.
    + subst ratio. rewrite Hp, Hb. vm_compute. reflexivity.
    + intros Hv Hlt Hle.
      apply (Hbetween 6); try assumption; [split; [lia|reflexivity] | lia].
Qed.

Lemma scale_from_max_pixels_witness :
  let view := {| Dmrecon.is_camera_valid := true;
                 Dmrecon.proxies :=
                   [("undistorted"%string,
                     {| Dmrecon.width := 2000; Dmrecon.height := 2000 |})] |} in
  let mvs_settings := {| Dmrecon.refViewNr := 0;
                         Dmrecon.imageEmbedding := "undistorted";
                         Dmrecon.scale := 0 |} in
  let app_settings := {| Dmrecon.master_id := -1; Dmrecon.view_ids := [];
                         Dmrecon.max_pixels := 1000;
                         Dmrecon.force_recon := false;
                         Dmrecon.mvs := mvs_settings |} in
  Dmrecon.get_scale_from_max_pixels logf_sample [Some view] app_settings
    mvs_settings = 6.
Proof.
  cbv zeta.
  match goal with
  | |- Dmrecon.get_scale_from_max_pixels _ [Some ?v] ?a ?m = _ =>
      destruct (scale_from_max_pixels logf_sample [Some v] a m v
                  {| Dmrecon.width := 2000; Dmrecon.height := 2000 |})
        as (_ & _ & _ & Hs);
        [reflexivity | reflexivity | reflexivity | ]
  end.
  apply Hs; reflexivity.
Defined.

(** C7, counterexample, with the logarithm values of [logf_sample].  A
    3 x 3 image with a budget of 2 pixels: [ratio] is 4.5, [q] is
    1.50407743 / 1.38629436 = 1.08496249 and the code derives scale 2, while
    [9 >> 2 = 2] is within the budget already, so the smallest [s] with
    [9 >> (2 s) <= 2] is 1.  A 5000 x 4000 image with a budget of 19999999
    pixels: the budget is above [2^24] and its conversion to [float] gives
    20000000, so [ratio] is 1, its logarithm is 0 and the code derives
    scale 0, although the image exceeds the budget and both wordings of the
    spec give 1. *)
Lemma scale_is_not_smallest_shift :
  let scene w h :=
    [Some {| Dmrecon.is_camera_valid := true;
             Dmrecon.proxies :=
               [("undistorted"%string,
                 {| Dmrecon.width := w; Dmrecon.height := h |})] |}] in
  let mvs_settings := {| Dmrecon.refViewNr := 0;
                         Dmrecon.imageEmbedding := "undistorted";
                         Dmrecon.scale := 0 |} in
  let app_settings budget :=
    {| Dmrecon.master_id := -1; Dmrecon.view_ids := [];
       Dmrecon.max_pixels := budget; Dmrecon.force_recon := false;
       Dmrecon.mvs := mvs_settings |} in
  (Dmrecon.get_scale_from_max_pixels logf_sample (scene 3 3) (app_settings 2)
     mvs_settings = 2
   /\ Z.shiftr (3 * 3) (2 * 1) <= 2
   /\ Dmrecon.spec_shift_scale (3 * 3) 2 = 1)
  /\
  (Dmrecon.get_scale_from_max_pixels logf_sample (scene 5000 4000)
     (app_settings 19999999) mvs_settings = 0
   /\ 19999999 < 5000 * 4000
   /\ Dmrecon.spec_ceil_log4 (5000 * 4000) 19999999 = 1
   /\ Dmrecon.spec_shift_scale (5000 * 4000) 19999999 = 1).
Proof. vm_compute. repeat split; discriminate. Qed.

Set Implicit Arguments.

(** ** dmrecon: skipping and failing jobs *)

Section BatchFacts.
Variable logf : spec_float -> spec_float.
Variable DMRecon : Dmrecon.ViewList -> Dmrecon.Settings -> Dmrecon.ViewList * bool.
Variable save_mve_file : Dmrecon.ViewList -> Z -> bool.

Local Abbreviation batch_job := (Dmrecon.batch_job logf DMRecon save_mve_file).
Local Abbreviation batch_loop := (Dmrecon.batch_loop logf DMRecon save_mve_file).

Lemma cons_neq_self {A : Type} (x : A) (l : list A) : x :: l <> l.
Proof.
  intros H. apply (f_equal (@length A)) in H. simpl in H. lia.
Qed.

(** A job either is skipped, with no call of the reconstruction, or calls
    the reconstruction once with the settings of the job. *)
Lemma batch_job_cases conf view_id run :
  let id := Dmrecon.to_size_t view_id in
  let run' := batch_job conf view_id run in
  (skip_condition logf conf (Dmrecon.scene_of run) id
   /\ Dmrecon.recon_calls run' = Dmrecon.recon_calls run
   /\ Dmrecon.outcomes run' = (id, Dmrecon.SKIPPED) :: Dmrecon.outcomes run
   /\ Dmrecon.scene_of run' = Dmrecon.scene_of run)
  \/
  (~ skip_condition logf conf (Dmrecon.scene_of run) id
   /\ Dmrecon.recon_calls run'
      = Dmrecon.job_settings logf conf (Dmrecon.scene_of run) id
        :: Dmrecon.recon_calls run
   /\ exists o, (o = Dmrecon.DONE \/ o = Dmrecon.FAILED)
                /\ Dmrecon.outcomes run' = (id, o) :: Dmrecon.outcomes run).
Proof.
  cbv zeta. unfold Dmrecon.batch_job, skip_condition,
    Dmrecon.camera_valid_at, Dmrecon.embedding_at, Dmrecon.embedding_name.
  set (id := Dmrecon.to_size_t view_id).
  set (views := Dmrecon.scene_of run).
  destruct (Dmrecon.views_size views <=? id) eqn:Esize.
  { left. apply Z.leb_le in Esize. simpl. auto. }
  apply Z.leb_gt in Esize.
  destruct (Dmrecon.views_at views id) as [view|] eqn:Eview.
  2: { left. simpl. auto. }
  destruct (Dmrecon.is_camera_valid view) eqn:Ecam; cbn [negb].
  2: { left. simpl. auto. }
  destruct (Dmrecon.force_recon conf) eqn:Eforce; cbn [negb andb].
  - right.
    destruct (Dmrecon.reconstruct DMRecon views
                (Dmrecon.job_settings logf conf views id)) as [views' returned].
    cbn [Dmrecon.recon_calls Dmrecon.outcomes].
    split; [|split; [reflexivity|]].
    + intros [H|[H|[H _]]]; [lia|discriminate|discriminate].
    + destruct (returned && save_mve_file views' id); eauto.
  - destruct (Dmrecon.has_embedding view _) eqn:Eemb.
    + left. simpl. auto.
    + right.
      destruct (Dmrecon.reconstruct DMRecon views
                  (Dmrecon.job_settings logf conf views id)) as [views' returned].
      cbn [Dmrecon.recon_calls Dmrecon.outcomes].
      split; [|split; [reflexivity|]].
      * intros [H|[H|[_ H]]]; [lia|discriminate|discriminate].
      * destruct (returned && save_mve_file views' id); eauto.
Qed.

(** The loop goes on to the remaining jobs whatever a job did. *)
Lemma batch_loop_app conf ids1 ids2 run :
  batch_loop conf (ids1 ++ ids2) run = batch_loop conf ids2 (batch_loop conf ids1 run).
Proof. unfold Dmrecon.batch_loop. apply fold_left_app. Qed.

(** Every job of the list gets an outcome, in the order of the list. *)
Lemma batch_loop_outcomes conf ids : forall run,
  map fst (Dmrecon.outcomes (batch_loop conf ids run))
  = rev (map Dmrecon.to_size_t ids) ++ map fst (Dmrecon.outcomes run).
Proof.
  induction ids as [|id ids IH]; intros run.
  - reflexivity.
  - change (batch_loop conf (id :: ids) run)
      with (batch_loop conf ids (batch_job conf id run)).
    rewrite IH. cbn [map rev]. rewrite <- app_assoc. f_equal.
    destruct (batch_job_cases conf id run)
      as [(_ & _ & -> & _)|(_ & _ & o & _ & ->)]; reflexivity.
Qed.
End BatchFacts.

(** C8. In batch mode, for every entry of the job list: the job is skipped,
    the external reconstruction not being called, exactly when the view id
    is outside the catalog, or the view is missing or has no valid camera,
    or the force flag is unset and the view already has the embedding
    ["depth-L" + decimal(scale)] of the job's scale.  With the force flag
    set an existing embedding does not matter. *)
Theorem batch_job_skipped_iff :
  forall logf DMRecon save_mve_file conf view_id run,
    let id := Dmrecon.to_size_t view_id in
    let views := Dmrecon.scene_of run in
    let run' := Dmrecon.batch_job logf DMRecon save_mve_file conf view_id run in
    let name :=
      String.append "depth-L"
        (Dmrecon.string_get (Dmrecon.scale (Dmrecon.job_settings logf conf views id))) in
    let not_called := Dmrecon.recon_calls run' = Dmrecon.recon_calls run in
    let skipped :=
      Dmrecon.outcomes run' = (id, Dmrecon.SKIPPED) :: Dmrecon.outcomes run in
    (not_called <->
       Dmrecon.views_size views <= id
       \/ Dmrecon.camera_valid_at views id = false
       \/ (Dmrecon.force_recon conf = false
           /\ Dmrecon.embedding_at views id name = true))
    /\ (skipped <-> not_called)
    /\ (Dmrecon.force_recon conf = true ->
        (not_called <->
           Dmrecon.views_size views <= id
           \/ Dmrecon.camera_valid_at views id = false)).
Proof.
  intros logf DMRecon save conf view_id run. cbv zeta.
  pose proof (batch_job_cases logf DMRecon save conf view_id run) as H.
  cbv zeta in H. unfold skip_condition in H.
  destruct H as [(Hc & Hcalls & Hout & _)|(Hc & Hcalls & o & Ho & Hout)].
  - rewrite Hcalls, Hout. repeat split; auto.
    intros _. destruct Hc as [?|[?|[Hf _]]]; auto. congruence.
  - rewrite Hcalls, Hout. repeat split.
    + intros Habs. now apply cons_neq_self in Habs.
    + intros Hcond. now apply Hc in Hcond.
    + intros [= ->]. destruct Ho; discriminate.
    + intros Habs. now apply cons_neq_self in Habs.
    + intros Habs. now apply cons_neq_self in Habs.
    + intros [?|?]; exfalso; apply Hc; auto.
Qed.

Lemma batch_job_skipped_iff_witness :
  let run' force :=
    Dmrecon.batch_job logf_sample always_returns (fun _ _ => true)
      (scenario_conf (-1) force) 0 scenario_start in
  Dmrecon.outcomes (run' false) = [(0, Dmrecon.SKIPPED)]
  /\ Dmrecon.outcomes (run' true) = [(0, Dmrecon.DONE)]
  /\ (Dmrecon.recon_calls (run' true) = []
      <-> Dmrecon.views_size scenario_views <= 0
          \/ Dmrecon.camera_valid_at scenario_views 0 = false).
Proof.
  cbv zeta. split; [reflexivity|]. split; [reflexivity|].
  apply (proj2 (proj2 (batch_job_skipped_iff logf_sample always_returns (fun _ _ => true)
                         (scenario_conf (-1) true) 0 scenario_start))).
  reflexivity.
Defined.

(** C9. Batch mode: whatever the reconstruction does, the run ends with
    status 0 and every job of the list has an outcome; a job whose
    reconstruction throws is [FAILED], and the jobs after it are run all the
    same.  Master-view mode: when the reconstruction throws, [main] returns 1
    at once. *)
Theorem reconstruction_failure_per_mode :
  (forall logf DMRecon save_mve_file conf scene,
     Dmrecon.master_id conf < 0 ->
     exists run,
       Dmrecon.main logf DMRecon save_mve_file conf (Some scene) = (0, Some run)
       /\ map fst (rev (Dmrecon.outcomes run))
          = map Dmrecon.to_size_t (Dmrecon.batch_ids conf scene))
  /\
  (forall logf DMRecon save_mve_file conf view_id run,
     let id := Dmrecon.to_size_t view_id in
     let views := Dmrecon.scene_of run in
     let run' := Dmrecon.batch_job logf DMRecon save_mve_file conf view_id run in
     Dmrecon.recon_calls run' <> Dmrecon.recon_calls run ->
     snd (DMRecon views (Dmrecon.job_settings logf conf views id)) = false ->
     Dmrecon.outcomes run' = (id, Dmrecon.FAILED) :: Dmrecon.outcomes run)
  /\
  (forall logf DMRecon save_mve_file conf ids1 view_id ids2 run,
     Dmrecon.batch_loop logf DMRecon save_mve_file conf (ids1 ++ view_id :: ids2) run
     = Dmrecon.batch_loop logf DMRecon save_mve_file conf ids2
         (Dmrecon.batch_job logf DMRecon save_mve_file conf view_id
            (Dmrecon.batch_loop logf DMRecon save_mve_file conf ids1 run)))
  /\
  (forall logf DMRecon save_mve_file conf scene,
     0 <= Dmrecon.master_id conf ->
     snd (DMRecon scene (Dmrecon.master_settings logf conf scene)) = false ->
     Dmrecon.main logf DMRecon save_mve_file conf (Some scene) = (1, None)).
Proof.
  split; [|split; [|split]].
  - intros logf DMRecon save conf scene Hm. eexists. split.
    + unfold Dmrecon.main.
      destruct (0 <=? Dmrecon.master_id conf) eqn:E;
        [apply Z.leb_le in E; lia|reflexivity].
    + rewrite map_rev, batch_loop_outcomes. cbn [Dmrecon.outcomes map].
      now rewrite app_nil_r, rev_involutive.
  - intros logf DMRecon save conf view_id run. cbv zeta.
    unfold Dmrecon.batch_job.
    destruct (Dmrecon.views_size (Dmrecon.scene_of run)
              <=? Dmrecon.to_size_t view_id); [simpl; congruence|].
    destruct (Dmrecon.views_at _ _) as [view|]; [|simpl; congruence].
    destruct (negb (Dmrecon.is_camera_valid view)); [simpl; congruence|].
    destruct (negb (Dmrecon.force_recon conf) && _); [simpl; congruence|].
    unfold Dmrecon.reconstruct.
    destruct (DMRecon _ _) as [views' returned]. simpl.
    intros _ ->. reflexivity.
  - intros logf DMRecon save conf ids1 view_id ids2 run.
    now rewrite batch_loop_app.
  - intros logf DMRecon save conf scene Hm Hthrow. unfold Dmrecon.main.
    destruct (0 <=? Dmrecon.master_id conf) eqn:E;
      [|apply Z.leb_gt in E; lia].
    unfold Dmrecon.reconstruct.
    destruct (DMRecon scene (Dmrecon.master_settings logf conf scene))
      as [scene' returned].
    simpl in Hthrow. now rewrite Hthrow.
Qed.

Lemma reconstruction_failure_witness :
  (exists run,
     Dmrecon.main logf_sample always_throws (fun _ _ => true) (scenario_conf (-1) true)
       (Some scenario_views) = (0, Some run)
     /\ map fst (rev (Dmrecon.outcomes run)) = [0; 1; 2])
  /\ Dmrecon.main logf_sample always_throws (fun _ _ => true) (scenario_conf 0 true)
       (Some scenario_views) = (1, None).
Proof.
  split.
  - apply (proj1 reconstruction_failure_per_mode logf_sample always_throws
             (fun _ _ => true) (scenario_conf (-1) true) scenario_views).
    simpl. lia.
  - apply (proj2 (proj2 (proj2 reconstruction_failure_per_mode))
             logf_sample always_throws (fun _ _ => true) (scenario_conf 0 true)
             scenario_views); [simpl; lia | reflexivity].
Defined.

Example batch_with_failures :
  Dmrecon.main logf_sample always_throws (fun _ _ => true) (scenario_conf (-1) true)
    (Some scenario_views)
  = (0, Some {| Dmrecon.scene_of := scenario_views;
                Dmrecon.recon_calls :=
                  [{| Dmrecon.refViewNr := 2;
                      Dmrecon.imageEmbedding := "undistorted";
                      Dmrecon.scale := 0 |};
                   {| Dmrecon.refViewNr := 0;
                      Dmrecon.imageEmbedding := "undistorted";
                      Dmrecon.scale := 0 |}];
                Dmrecon.outcomes :=
                  [(2, Dmrecon.FAILED); (1, Dmrecon.SKIPPED);
                   (0, Dmrecon.FAILED)] |}).
Proof. reflexivity. Qed.

(* ================================================================== *)
(** * Part III: further properties of the code                         *)
(* ================================================================== *)

(** ** The indices returned by [find] *)

Lemma update_index_bounds {T P : Type} (gt : P -> T -> bool) (store : P -> T)
    (r : Result T) (i : Z) (s : P) :
  0 <= i ->
  0 <= index_1st_best r < Z.max 1 i -> 0 <= index_2nd_best r < Z.max 1 i ->
  let r' := update gt store r i s in
  0 <= index_1st_best r' < Z.max 1 (i + 1)
  /\ 0 <= index_2nd_best r' < Z.max 1 (i + 1).
Proof.
  intros Hi H1 H2. cbv zeta. unfold update.
  destruct (gt s (dist_2nd_best r)); [destruct (gt s (dist_1st_best r))|];
    cbn [index_1st_best index_2nd_best]; lia.
Qed.

Lemma top2_index_bounds {T P : Type} (gt : P -> T -> bool) (store : P -> T)
    (scores : list P) : forall r i,
  0 <= i ->
  0 <= index_1st_best r < Z.max 1 i -> 0 <= index_2nd_best r < Z.max 1 i ->
  let r' := top2 gt store r i scores in
  0 <= index_1st_best r' < Z.max 1 (i + Z.of_nat (length scores))
  /\ 0 <= index_2nd_best r' < Z.max 1 (i + Z.of_nat (length scores)).
Proof.
  induction scores as [|s rest IH]; intros r i Hi H1 H2; cbv zeta.
  - cbn [top2 length]. rewrite Z.add_0_r. now split.
  - cbn [top2 length].
    destruct (update_index_bounds gt store r s Hi H1 H2) as [H1' H2'].
    replace (i + Z.of_nat (S (length rest)))
      with (i + 1 + Z.of_nat (length rest)) by lia.
    apply IH; [lia|assumption|assumption].
Qed.

Lemma float_inner_products_length path nn query :
  length (Float.inner_products path nn query) = Z.to_nat (num_elements nn).
Proof. apply dots_length. Qed.

(** X1. In a space with at least one stored descriptor both indices that
    [find] returns are indices of stored descriptors: at least 0 and less
    than [num_elements].  For both matchers, both paths and every input. *)
Theorem find_indices_in_range :
  (forall path nn query, 1 <= num_elements nn ->
     let r := Short.find path nn query in
     0 <= index_1st_best r < num_elements nn
     /\ 0 <= index_2nd_best r < num_elements nn)
  /\
  (forall path nn query, 1 <= num_elements nn ->
     let r := Float.find path nn query in
     0 <= index_1st_best r < num_elements nn
     /\ 0 <= index_2nd_best r < num_elements nn).
Proof.
  split; intros path nn query Hn; cbv zeta.
  - unfold Short.find, Short.finalize. cbn [index_1st_best index_2nd_best].
    rewrite short_scan_result_top2.
    pose proof (@top2_index_bounds Z Z Short.gt to_short
                  (Short.inner_products path nn query)
                  (init_result (-32767)) 0) as H.
    cbv zeta in H. rewrite short_inner_products_length in H.
    cbn [init_result index_1st_best index_2nd_best] in H.
    specialize (H ltac:(lia) ltac:(lia) ltac:(lia)). lia.
  - unfold Float.find, Float.finalize. cbn [index_1st_best index_2nd_best].
    rewrite float_scan_result_top2.
    pose proof (@top2_index_bounds spec_float spec_float Float.gt
                  (fun ip => ip) (Float.inner_products path nn query)
                  (init_result (SFopp Float.FLT_MAX)) 0) as H.
    cbv zeta in H. rewrite float_inner_products_length in H.
    cbn [init_result index_1st_best index_2nd_best] in H.
    specialize (H ltac:(lia) ltac:(lia) ltac:(lia)). lia.
Qed.

Lemma find_indices_in_range_witness :
  let nn := {| dimensions := 2; num_elements := 3;
               elements := [60; 80; 80; 60; -60; 80] |} in
  let r := Short.find SSE nn [60; 80] in
  0 <= index_1st_best r < 3 /\ 0 <= index_2nd_best r < 3.
Proof.
  cbv zeta.
  apply (proj1 find_indices_in_range SSE
           {| dimensions := 2; num_elements := 3;
              elements := [60; 80; 80; 60; -60; 80] |} [60; 80]).
  simpl. lia.
Defined.

(** ** The best match is the first largest inner product *)

Section Recorded.
Variable P : Type.
Variable ltb : P -> P -> bool.
Variable lowest : P.
Variable scores : list P.

Local Abbreviation gt := (fun s d : P => ltb d s).
Local Abbreviation keep := (fun s : P => s).

(** After [k] scores either nothing has been recorded, no score having
    beaten the initial value, or the best index points at a score seen and
    the best field holds that score. *)
Lemma top2_recorded_prefix (k : nat) :
  (k <= length scores)%nat ->
  let r := top2 gt keep (init_result lowest) 0 (firstn k scores) in
  (r = init_result lowest
   /\ forall i s, (i < k)%nat -> nth_error scores i = Some s ->
                  ltb lowest s = false)
  \/ (0 <= index_1st_best r < Z.of_nat k
      /\ nth_error scores (Z.to_nat (index_1st_best r))
         = Some (dist_1st_best r)).
Proof.
  induction k as [|k IH]; intros Hk; cbv zeta.
  - left. split; [reflexivity|intros; lia].
  - destruct (nth_error scores k) as [s|] eqn:Es.
    2: { apply nth_error_None in Es. lia. }
    rewrite (firstn_snoc _ _ Es), top2_app. cbn [top2].
    rewrite length_firstn, Nat.min_l by lia. cbn [Z.add].
    specialize (IH ltac:(lia)). cbv zeta in IH.
    set (r := top2 gt keep (init_result lowest) 0 (firstn k scores)) in *.
    destruct IH as [[Hr Hnone]|[Hidx Hat]].
    + rewrite Hr. unfold update. cbn [init_result dist_1st_best dist_2nd_best].
      destruct (ltb lowest s) eqn:E.
      * right. cbn [index_1st_best dist_1st_best]. rewrite Nat2Z.id.
        split; [lia|assumption].
      * left. split; [reflexivity|]. intros i x Hi Hx.
        destruct (Nat.eq_dec i k) as [->|]; [congruence|].
        apply (Hnone i); [lia|assumption].
    + right. unfold update.
      destruct (ltb (dist_2nd_best r) s); [destruct (ltb (dist_1st_best r) s)|];
        cbn [index_1st_best dist_1st_best]; rewrite ?Nat2Z.id;
        (split; [lia|assumption]).
Qed.

Lemma top2_recorded :
  Exists (fun s => ltb lowest s = true) scores ->
  let r := top2 gt keep (init_result lowest) 0 scores in
  0 <= index_1st_best r < Z.of_nat (length scores)
  /\ nth_error scores (Z.to_nat (index_1st_best r)) = Some (dist_1st_best r).
Proof.
  intros Hex. cbv zeta.
  pose proof (top2_recorded_prefix (Nat.le_refl (length scores))) as H.
  cbv zeta in H. rewrite firstn_all in H.
  destruct H as [[_ Hnone]|H]; [exfalso|assumption].
  apply Exists_exists in Hex. destruct Hex as (s & Hin & Hs).
  apply In_nth_error in Hin. destruct Hin as [i Hi].
  assert (i < length scores)%nat by (apply nth_error_Some; congruence).
  rewrite (Hnone i s) in Hs by assumption. discriminate.
Qed.
End Recorded.

Lemma Z_scanned_all (scores : list Z) :
  scanned Z.ltb (fun _ => True) scores (length scores)
    (top2 Short.gt (fun ip => ip) (init_result (-32767)) 0 scores).
Proof.
  apply (@scanned_all Z Z.ltb (fun _ => True)); try exact I.
  - apply Z.ltb_irrefl.
  - intros x y H. apply Z.ltb_lt in H. apply Z.ltb_ge. lia.
  - intros; exact I.
  - intros x y z _ _ _ H1 H2. apply Z.ltb_ge in H1. apply Z.ltb_lt in H2.
    apply Z.ltb_lt. lia.
Qed.

Lemma float_scanned_all (scores : list spec_float) :
  scanned Float.flt (fun x => x <> S754_nan) scores (length scores)
    (top2 Float.gt (fun ip => ip) (init_result (SFopp Float.FLT_MAX)) 0 scores).
Proof.
  apply (@scanned_all spec_float Float.flt (fun x => x <> S754_nan)).
  - exact flt_irrefl.
  - exact flt_asym.
  - exact flt_not_nan.
  - exact flt_le_lt_trans.
  - discriminate.
Qed.

(** X2. Quantized matcher, either path, when no inner product exceeds 32767
    and at least one exceeds -32767: [index_1st_best] is the first index of
    the largest inner product and [dist_1st_best] is the distance computed
    from it; every other stored descriptor is at least as far as
    [dist_2nd_best]. *)
Theorem short_find_best_is_first_maximum :
  forall path nn query,
    let ips := Short.inner_products path nn query in
    let r := Short.find path nn query in
    let dist ip := 32258 - 2 * Z.min 16129 (Z.max 0 ip) in
    Forall (fun ip => ip <= 32767) ips ->
    Exists (fun ip => -32767 < ip) ips ->
    exists best,
      nth_error ips (Z.to_nat (index_1st_best r)) = Some best
      /\ dist_1st_best r = dist best
      /\ forall i s, nth_error ips i = Some s ->
           s <= best
           /\ (Z.of_nat i < index_1st_best r -> s < best)
           /\ (Z.of_nat i <> index_1st_best r -> dist_2nd_best r <= dist s).
Proof.
  intros path nn query ips r dist Hfit Hex. subst r dist.
  unfold Short.find. rewrite short_finalize_closed.
  cbn [index_1st_best dist_1st_best dist_2nd_best].
  rewrite short_scan_result_top2. fold ips.
  rewrite (@short_top2_no_wrap ips (init_result (-32767)) 0 Hfit)
    by (simpl; lia).
  assert (Hex' : Exists (fun s => Z.ltb (-32767) s = true) ips).
  { eapply Exists_impl; [|exact Hex]. intros a Ha. now apply Z.ltb_lt. }
  destruct (@top2_recorded Z Z.ltb (-32767) ips Hex') as [_ Hat].
  destruct (Z_scanned_all ips) as [_ _ _ Hbest Hsec Hf1 _ _ _].
  set (raw := top2 Short.gt (fun ip => ip) (init_result (-32767)) 0 ips) in *.
  exists (dist_1st_best raw). split; [exact Hat|]. split; [reflexivity|].
  intros i s Hi.
  assert (Hlt : (i < length ips)%nat) by (apply nth_error_Some; congruence).
  split; [|split].
  - specialize (Hbest i s Hlt Hi). apply Z.ltb_ge in Hbest. lia.
  - intros Hbefore. specialize (Hf1 i s Hi I Hbefore).
    now apply Z.ltb_lt in Hf1.
  - intros Hne. specialize (Hsec i s Hlt Hi Hne). apply Z.ltb_ge in Hsec. lia.
Qed.

Lemma short_find_best_witness :
  let nn := {| dimensions := 2; num_elements := 3;
               elements := [80; 60; 60; 80; 60; 80] |} in
  exists best,
    nth_error (Short.inner_products Scalar nn [60; 80])
      (Z.to_nat (index_1st_best (Short.find Scalar nn [60; 80]))) = Some best
    /\ dist_1st_best (Short.find Scalar nn [60; 80])
       = 32258 - 2 * Z.min 16129 (Z.max 0 best).
Proof.
  cbv zeta.
  destruct (short_find_best_is_first_maximum Scalar
              {| dimensions := 2; num_elements := 3;
                 elements := [80; 60; 60; 80; 60; 80] |} [60; 80])
    as (best & Hat & Hd & _).
  - vm_compute. repeat constructor; discriminate.
  - vm_compute. apply Exists_cons_hd. reflexivity.
  - exists best. split; assumption.
Defined.

(** X3. Float matcher, either path, when at least one inner product
    exceeds [-FLT_MAX]: [index_1st_best] is the first index of the largest
    inner product, no inner product compares greater than it (a NaN inner
    product is never recorded), and [dist_1st_best] is the distance
    computed from it; when the inner products are binary32 numbers, no
    stored descriptor with a non-NaN inner product is closer than
    [dist_1st_best]. *)
Theorem float_find_best_is_first_maximum :
  forall path nn query,
    let ips := Float.inner_products path nn query in
    let r := Float.find path nn query in
    Exists (fun ip => Float.flt (SFopp Float.FLT_MAX) ip = true) ips ->
    exists best,
      nth_error ips (Z.to_nat (index_1st_best r)) = Some best
      /\ best <> S754_nan
      /\ dist_1st_best r = Float.distance best
      /\ forall i s, nth_error ips i = Some s ->
           Float.flt best s = false
           /\ (s <> S754_nan -> Z.of_nat i < index_1st_best r ->
               Float.flt s best = true)
           /\ (Forall valid32 ips -> s <> S754_nan ->
               Float.fle (dist_1st_best r) (Float.distance s) = true).
Proof.
  intros path nn query ips r Hex. subst r.
  unfold Float.find, Float.finalize.
  cbn [index_1st_best dist_1st_best]. rewrite float_scan_result_top2. fold ips.
  destruct (@top2_recorded spec_float Float.flt (SFopp Float.FLT_MAX) ips Hex)
    as [_ Hat].
  destruct (float_scanned_all ips) as [Hok1 _ _ Hbest _ Hf1 _ _ _].
  change (top2 (fun s d => Float.flt d s) (fun s => s)
            (init_result (SFopp Float.FLT_MAX)) 0 ips)
    with (top2 Float.gt (fun ip => ip) (init_result (SFopp Float.FLT_MAX)) 0 ips)
    in Hat.
  set (raw := top2 Float.gt (fun ip => ip)
                (init_result (SFopp Float.FLT_MAX)) 0 ips) in *.
  exists (dist_1st_best raw).
  split; [exact Hat|]. split; [exact Hok1|]. split; [reflexivity|].
  intros i s Hi.
  assert (Hlt : (i < length ips)%nat) by (apply nth_error_Some; congruence).
  pose proof (Hbest i s Hlt Hi) as Hle.
  split; [exact Hle|]. split.
  - intros Hs Hbefore. exact (Hf1 i s Hi Hs Hbefore).
  - intros Hvalid Hs. rewrite Forall_forall in Hvalid.
    apply float_distance_antitone.
    + apply Hvalid. eapply nth_error_In. exact Hat.
    + apply Hvalid. eapply nth_error_In. exact Hi.
    + destruct (Float.fle s (dist_1st_best raw)) eqn:E; [reflexivity|].
      apply not_fle_flt in E; [congruence|assumption|assumption].
Qed.

Lemma float_find_best_witness :
  let nn := {| dimensions := 2; num_elements := 2;
               elements := [Float.of_Z 3 (-2); Float.of_Z 1 (-1);
                            Float.of_Z 1 0; Float.zero] |} in
  let query := [Float.of_Z 1 0; Float.zero] in
  exists best,
    nth_error (Float.inner_products Scalar nn query)
      (Z.to_nat (index_1st_best (Float.find Scalar nn query))) = Some best
    /\ dist_1st_best (Float.find Scalar nn query) = Float.distance best.
Proof.
  cbv zeta.
  destruct (float_find_best_is_first_maximum Scalar
              {| dimensions := 2; num_elements := 2;
                 elements := [Float.of_Z 3 (-2); Float.of_Z 1 (-1);
                              Float.of_Z 1 0; Float.zero] |}
              [Float.of_Z 1 0; Float.zero])
    as (best & Hat & _ & Hd & _).
  - vm_compute. apply Exists_cons_hd. reflexivity.
  - exists best. split; assumption.
Defined.

(** ** The float finalisation *)

(** X4. The float finalisation reverses the order of binary32 inner
    products: the larger inner product never gets the larger distance. *)
Theorem float_distance_decreases :
  forall d1 d2,
    valid32 d1 -> valid32 d2 -> Float.fle d2 d1 = true ->
    Float.fle (Float.distance d1) (Float.distance d2) = true.
Proof. exact float_distance_antitone. Qed.

Lemma float_distance_decreases_witness :
  Float.fle (Float.distance (Float.of_Z 7 (-3)))
    (Float.distance (Float.of_Z 3 (-2))) = true.
Proof.
  apply float_distance_decreases; reflexivity.
Defined.

(** X5. The float finalisation saturates: every binary32 inner product of
    at least 1 is at distance exactly 0, and every one of at most 1/2,
    negative ones and minus infinity included, is at distance exactly 1. *)
Theorem float_distance_saturates :
  (forall d, valid32 d -> Float.fle Float.one d = true ->
             Float.distance d = Float.zero)
  /\ (forall d, valid32 d -> Float.fle d half = true ->
                Float.distance d = Float.one).
Proof. split; [exact distance_high|exact distance_low]. Qed.

Lemma float_distance_saturates_witness :
  Float.distance (Float.of_Z 3 0) = Float.zero
  /\ Float.distance (Float.of_Z (-5) (-4)) = Float.one.
Proof.
  split.
  - apply (proj1 float_distance_saturates); reflexivity.
  - apply (proj2 float_distance_saturates); reflexivity.
Defined.

(** ** Normalised quantized descriptors *)

Lemma normalized_descriptors_witness :
  let nn := {| dimensions := 8; num_elements := 2;
               elements := [90; 0; 0; 0; 0; 0; 0; 89;
                            0; 127; 0; 0; 0; 0; 0; 0] |} in
  Short.find SSE nn [90; 0; 0; 0; 0; 0; 0; 89]
  = Short.find Scalar nn [90; 0; 0; 0; 0; 0; 0; 89].
Proof.
  cbv zeta. apply normalized_paths_agree.
  - reflexivity.
  - simpl. lia.
  - vm_compute. discriminate.
  - intros i Hi. simpl in Hi.
    assert (Hcases : i = 0 \/ i = 1) by lia.
    destruct Hcases as [-> | ->]; vm_compute; discriminate.
Defined.

(** ** A space with one descriptor *)

(** X7. With exactly one stored descriptor there is no second best: both
    indices are 0 and [dist_2nd_best] is the largest distance of the domain,
    32258 in the quantized matcher and 1.0 in the float matcher, whatever
    the descriptor and the query are. *)
Theorem find_single_descriptor :
  (forall path nn query, num_elements nn = 1 ->
     let r := Short.find path nn query in
     index_1st_best r = 0 /\ index_2nd_best r = 0 /\ dist_2nd_best r = 32258)
  /\
  (forall path nn query, num_elements nn = 1 ->
     let r := Float.find path nn query in
     index_1st_best r = 0 /\ index_2nd_best r = 0
     /\ dist_2nd_best r = Float.one).
Proof.
  split; intros path nn query Hn; cbv zeta.
  - unfold Short.find. rewrite short_finalize_closed.
    cbn [index_1st_best index_2nd_best dist_2nd_best].
    rewrite short_scan_result_top2.
    pose proof (short_inner_products_length path nn query) as Hlen.
    rewrite Hn in Hlen.
    destruct (Short.inner_products path nn query) as [|s [|s' rest]];
      try discriminate.
    cbn [top2].
    destruct (only_first_init Short.gt to_short (-32767) s) as (H1 & H2 & H3).
    rewrite H1, H2, H3. repeat split.
  - unfold Float.find, Float.finalize.
    cbn [index_1st_best index_2nd_best dist_2nd_best].
    rewrite float_scan_result_top2.
    pose proof (float_inner_products_length path nn query) as Hlen.
    rewrite Hn in Hlen.
    destruct (Float.inner_products path nn query) as [|s [|s' rest]];
      try discriminate.
    cbn [top2].
    destruct (only_first_init Float.gt (fun ip => ip)
                (SFopp Float.FLT_MAX) s) as (H1 & H2 & H3).
    rewrite H1, H2, H3. repeat split.
Qed.

Lemma find_single_descriptor_witness :
  let nn := {| dimensions := 2; num_elements := 1; elements := [60; 80] |} in
  let r := Short.find Scalar nn [60; 80] in
  index_1st_best r = 0 /\ index_2nd_best r = 0 /\ dist_2nd_best r = 32258.
Proof.
  cbv zeta.
  apply (proj1 find_single_descriptor Scalar
           {| dimensions := 2; num_elements := 1; elements := [60; 80] |}
           [60; 80]).
  reflexivity.
Defined.

(** ** Which components an inner product reads *)

Lemma dots_from_nth {P : Type} (dot : Z -> P * Z) (stride : Z) :
  (forall p, snd (dot p) = p + stride) ->
  forall (n : nat) (p : Z) (i : nat), (i < n)%nat ->
    nth_error (dots_from dot n p) i
    = Some (fst (dot (p + Z.of_nat i * stride))).
Proof.
  intros Hstride. induction n as [|n IH]; intros p i Hi; [lia|].
  cbn [dots_from]. pose proof (Hstride p) as Hp.
  destruct (dot p) as [ip p'] eqn:E. cbn [snd] in Hp. subst p'.
  destruct i as [|i].
  - cbn [nth_error]. rewrite Z.mul_0_l, Z.add_0_r, E. reflexivity.
  - cbn [nth_error]. rewrite IH by lia.
    replace (p + stride + Z.of_nat i * stride)
      with (p + Z.of_nat (S i) * stride) by lia.
    reflexivity.
Qed.

(** X8. The inner product of descriptor [i].  On the scalar path it is
    the sum, reduced to [int], of the [dimensions] products of the query
    with the components [i * dimensions ...] of the stored array.  On the
    SSE path it is the sum of eight lane values, each the 16-bit reduction
    of the products of every eighth component, the descriptor being read
    from component [8 * (i * (dimensions / 8))] on and the last
    [dimensions mod 8] components of the query being left out; it lies
    between -262144 and 262136. *)
Theorem inner_product_of_descriptor :
  (forall nn query i,
     0 <= dimensions nn -> 0 <= i < num_elements nn ->
     nth_error (Short.inner_products Scalar nn query) (Z.to_nat i)
     = Some (to_int
               (Zsum (Z.to_nat (dimensions nn))
                  (fun j => Short.load query j
                            * Short.load (elements nn)
                                (i * dimensions nn + j)))))
  /\
  (forall nn query i,
     0 <= dimensions nn -> 0 <= i < num_elements nn ->
     let dim_8 := Z.quot (dimensions nn) 8 in
     let lane l :=
       to_short
         (Zsum (Z.to_nat dim_8)
            (fun k => Short.load query (8 * k + l)
                      * Short.load (elements nn) (8 * (i * dim_8 + k) + l))) in
     let ip := lane 0 + lane 1 + lane 2 + lane 3
               + lane 4 + lane 5 + lane 6 + lane 7 in
     nth_error (Short.inner_products SSE nn query) (Z.to_nat i) = Some ip
     /\ -262144 <= ip <= 262136).
Proof.
  split; intros nn query i Hdim Hi.
  - unfold Short.inner_products, dots. cbn [Short.dot].
    rewrite (@dots_from_nth Z (Short.scalar_dot nn query) (dimensions nn))
      by (try lia; intros p; rewrite short_scalar_dot_sum; cbn [snd]; lia).
    rewrite short_scalar_dot_sum. cbn [fst]. do 2 f_equal.
    apply Zsum_ext. intros j _. do 2 f_equal. lia.
  - cbv zeta. split.
    + unfold Short.inner_products, dots. cbn [Short.dot].
      assert (Hq : 0 <= Z.quot (dimensions nn) 8) by (apply Z.quot_pos; lia).
      rewrite (@dots_from_nth Z (Short.sse_dot nn query)
                 (Z.quot (dimensions nn) 8))
        by (try lia; intros p; rewrite short_sse_dot_sum; cbn [snd]; lia).
      rewrite short_sse_dot_sum. cbn [fst]. f_equal.
      apply sum8_congr; apply (f_equal to_short); apply Zsum_ext;
        intros k _; do 3 f_equal; lia.
    + repeat match goal with
             | |- context [to_short ?x] =>
                 let H := fresh "H" in
                 pose proof (to_short_range x) as H;
                 set (to_short x) in *
             end.
      lia.
Qed.

Lemma inner_product_of_descriptor_witness :
  let nn := {| dimensions := 2; num_elements := 3;
               elements := [80; 60; 60; 80; 60; 80] |} in
  nth_error (Short.inner_products Scalar nn [60; 80]) (Z.to_nat 1)
  = Some (to_int
            (Zsum (Z.to_nat 2)
               (fun j => Short.load [60; 80] j
                         * Short.load [80; 60; 60; 80; 60; 80] (1 * 2 + j)))).
Proof.
  cbv zeta.
  apply (proj1 inner_product_of_descriptor
           {| dimensions := 2; num_elements := 3;
              elements := [80; 60; 60; 80; 60; 80] |} [60; 80] 1);
    simpl; lia.
Defined.

(** ** Fewer than eight dimensions on the SSE path *)

Lemma short_sse_dot_low_dim nn query p :
  dimensions nn < 8 -> Short.sse_dot nn query p = (0, p).
Proof.
  intros Hdim. rewrite short_sse_dot_sum. cbv zeta.
  assert (Hq : Z.to_nat (Z.quot (dimensions nn) 8) = 0%nat).
  { destruct (Z.le_gt_cases 0 (dimensions nn)) as [Hpos|Hneg].
    - rewrite Z.quot_small by lia. reflexivity.
    - assert (Z.quot (dimensions nn) 8 <= 0)
        by (apply Z.quot_le_upper_bound; lia || (rewrite Z.mul_0_r; lia)).
      lia. }
  rewrite Hq. cbn [Zsum Z.of_nat]. f_equal. lia.
Qed.

Lemma dots_from_constant {P : Type} (dot : Z -> P * Z) (c : P) :
  (forall p, dot p = (c, p)) ->
  forall (n : nat) (p : Z), dots_from dot n p = repeat c n.
Proof.
  intros Hdot. induction n as [|n IH]; intros p; cbn [dots_from repeat].
  - reflexivity.
  - rewrite Hdot, IH. reflexivity.
Qed.

(** X9. Quantized matcher, SSE path, fewer than eight dimensions:
    [dim_8 = dimensions / 8] is 0, no component is read and every inner
    product is 0.  With two or more stored descriptors [find] then returns
    the indices 0 and 1 at the largest distance 32258, whatever the
    descriptors and the query are. *)
Theorem sse_low_dimension_ignores_data :
  forall nn query, dimensions nn < 8 ->
    Short.inner_products SSE nn query
    = repeat 0 (Z.to_nat (num_elements nn))
    /\ (2 <= num_elements nn ->
        Short.find SSE nn query
        = {| dist_1st_best := 32258; dist_2nd_best := 32258;
             index_1st_best := 0; index_2nd_best := 1 |}).
Proof.
  intros nn query Hdim.
  assert (Hips : Short.inner_products SSE nn query
                 = repeat 0 (Z.to_nat (num_elements nn))).
  { unfold Short.inner_products, dots. cbn [Short.dot].
    apply dots_from_constant. intros p. now apply short_sse_dot_low_dim. }
  split; [exact Hips|]. intros Hn.
  unfold Short.find. rewrite short_scan_result_top2, Hips.
  destruct (Z.to_nat (num_elements nn)) as [|[|n]] eqn:En; try lia.
  cbn [repeat top2].
  rewrite (@top2_no_update Z Z Short.gt to_short (repeat 0 n)).
  - reflexivity.
  - apply Forall_forall. intros s Hs. apply repeat_spec in Hs. subst s.
    reflexivity.
Qed.

Lemma sse_low_dimension_witness :
  Short.find SSE {| dimensions := 3; num_elements := 2;
                    elements := [127; 0; 0; 0; 127; 0] |} [127; 0; 0]
  = {| dist_1st_best := 32258; dist_2nd_best := 32258;
       index_1st_best := 0; index_2nd_best := 1 |}.
Proof.
  apply (sse_low_dimension_ignores_data
           {| dimensions := 3; num_elements := 2;
              elements := [127; 0; 0; 0; 127; 0] |} [127; 0; 0]);
    simpl; lia.
Defined.

(** ** dmrecon: edge cases of the derived scale *)

(** X10. The derived scale is never negative, whatever the library
    logarithm returns, and it is 0 when the reference view id is outside
    the catalog, when the view handle is NULL, and when the view has no
    embedding of the configured name. *)
Theorem scale_bounds :
  (forall logf scene app_settings mvs_settings,
     0 <= Dmrecon.get_scale_from_max_pixels logf scene app_settings
            mvs_settings)
  /\
  (forall logf scene app_settings mvs_settings,
     Dmrecon.views_size scene <= Dmrecon.refViewNr mvs_settings
     \/ Dmrecon.views_at scene (Dmrecon.refViewNr mvs_settings) = None ->
     Dmrecon.get_scale_from_max_pixels logf scene app_settings mvs_settings
     = 0)
  /\
  (forall logf scene app_settings mvs_settings view,
     Dmrecon.get_view_by_id scene (Dmrecon.refViewNr mvs_settings) = Some view ->
     Dmrecon.has_embedding view (Dmrecon.imageEmbedding mvs_settings) = false ->
     Dmrecon.get_scale_from_max_pixels logf scene app_settings mvs_settings
     = 0).
Proof.
  split; [|split].
  - intros logf scene app s. unfold Dmrecon.get_scale_from_max_pixels.
    destruct (Dmrecon.get_view_by_id scene (Dmrecon.refViewNr s)) as [view|];
      [|lia].
    destruct (Dmrecon.get_proxy view (Dmrecon.imageEmbedding s)) as [proxy|];
      [|lia].
    cbv zeta. destruct (_ <=? _); lia.
  - intros logf scene app s H. unfold Dmrecon.get_scale_from_max_pixels,
      Dmrecon.get_view_by_id.
    destruct H as [H|H].
    + destruct (Dmrecon.refViewNr s <? Dmrecon.views_size scene) eqn:E;
        [apply Z.ltb_lt in E; lia|reflexivity].
    + rewrite H. destruct (_ <? _); reflexivity.
  - intros logf scene app s view Hview Hemb.
    unfold Dmrecon.get_scale_from_max_pixels. rewrite Hview.
    unfold Dmrecon.has_embedding in Hemb.
    destruct (Dmrecon.get_proxy view (Dmrecon.imageEmbedding s));
      [discriminate|reflexivity].
Qed.

Lemma scale_bounds_witness :
  let mvs_settings := {| Dmrecon.refViewNr := 3;
                         Dmrecon.imageEmbedding := "undistorted";
                         Dmrecon.scale := 0 |} in
  let app_settings := {| Dmrecon.master_id := -1; Dmrecon.view_ids := [];
                         Dmrecon.max_pixels := 1000;
                         Dmrecon.force_recon := false;
                         Dmrecon.mvs := mvs_settings |} in
  Dmrecon.get_scale_from_max_pixels logf_sample scenario_views app_settings
    mvs_settings = 0.
Proof.
  cbv zeta. apply (proj1 (proj2 scale_bounds)). left. vm_compute.
  discriminate.
Defined.

(** ** dmrecon: the batch loop and the master-view mode *)

Lemma job_settings_refViewNr logf conf scene id :
  Dmrecon.refViewNr (Dmrecon.job_settings logf conf scene id) = id.
Proof.
  unfold Dmrecon.job_settings. destruct (0 <? Dmrecon.max_pixels conf);
    reflexivity.
Qed.

Section BatchInvariants.
Variable logf : spec_float -> spec_float.
Variable DMRecon : Dmrecon.ViewList -> Dmrecon.Settings -> Dmrecon.ViewList * bool.
Variable save_mve_file : Dmrecon.ViewList -> Z -> bool.

Local Abbreviation batch_job := (Dmrecon.batch_job logf DMRecon save_mve_file).
Local Abbreviation batch_loop := (Dmrecon.batch_loop logf DMRecon save_mve_file).

(** The calls of the reconstruction and the jobs that were not skipped
    correspond one to one, in order. *)
Lemma batch_loop_calls conf ids : forall run,
  map Dmrecon.refViewNr (Dmrecon.recon_calls run)
  = map fst (filter job_ran (Dmrecon.outcomes run)) ->
  map Dmrecon.refViewNr (Dmrecon.recon_calls (batch_loop conf ids run))
  = map fst (filter job_ran (Dmrecon.outcomes (batch_loop conf ids run))).
Proof.
  induction ids as [|id ids IH]; intros run Hrun.
  - exact Hrun.
  - change (batch_loop conf (id :: ids) run)
      with (batch_loop conf ids (batch_job conf id run)).
    apply IH.
    destruct (batch_job_cases logf DMRecon save_mve_file conf id run)
      as [(_ & -> & -> & _)|(_ & -> & o & Ho & ->)].
    + cbn [filter job_ran snd]. exact Hrun.
    + cbn [map]. rewrite job_settings_refViewNr.
      destruct Ho as [-> | ->]; cbn [filter job_ran snd map fst];
        f_equal; exact Hrun.
Qed.

(** With no valid camera in the scene every job is skipped. *)
Lemma batch_loop_no_camera conf ids : forall run,
  (forall id, Dmrecon.camera_valid_at (Dmrecon.scene_of run) id = false) ->
  batch_loop conf ids run
  = {| Dmrecon.scene_of := Dmrecon.scene_of run;
       Dmrecon.recon_calls := Dmrecon.recon_calls run;
       Dmrecon.outcomes :=
         rev (map (fun id => (Dmrecon.to_size_t id, Dmrecon.SKIPPED)) ids)
         ++ Dmrecon.outcomes run |}.
Proof.
  induction ids as [|id ids IH]; intros run Hcam.
  - destruct run; reflexivity.
  - change (batch_loop conf (id :: ids) run)
      with (batch_loop conf ids (batch_job conf id run)).
    assert (Hjob : batch_job conf id run
                   = {| Dmrecon.scene_of := Dmrecon.scene_of run;
                        Dmrecon.recon_calls := Dmrecon.recon_calls run;
                        Dmrecon.outcomes :=
                          (Dmrecon.to_size_t id, Dmrecon.SKIPPED)
                          :: Dmrecon.outcomes run |}).
    { unfold Dmrecon.batch_job.
      destruct (Dmrecon.views_size (Dmrecon.scene_of run)
                <=? Dmrecon.to_size_t id); [reflexivity|].
      specialize (Hcam (Dmrecon.to_size_t id)).
      unfold Dmrecon.camera_valid_at in Hcam.
      destruct (Dmrecon.views_at (Dmrecon.scene_of run)
                  (Dmrecon.to_size_t id)) as [view|]; [|reflexivity].
      rewrite Hcam. reflexivity. }
    rewrite Hjob, IH by exact Hcam.
    cbn [Dmrecon.scene_of Dmrecon.recon_calls Dmrecon.outcomes map rev].
    rewrite <- app_assoc. reflexivity.
Qed.

(** X12. A negative entry of the view id list is converted to [std::size_t]
    and so lies beyond the end of every catalog of fewer than [2^63] views:
    its job is skipped as an invalid id, without a call of the
    reconstruction and with the scene unchanged. *)
Theorem negative_view_id_is_skipped :
  forall conf view_id run,
    -2147483648 <= view_id < 0 ->
    Dmrecon.views_size (Dmrecon.scene_of run) < 2 ^ 63 ->
    batch_job conf view_id run
    = {| Dmrecon.scene_of := Dmrecon.scene_of run;
         Dmrecon.recon_calls := Dmrecon.recon_calls run;
         Dmrecon.outcomes :=
           (view_id + 2 ^ 64, Dmrecon.SKIPPED) :: Dmrecon.outcomes run |}.
Proof.
  intros conf view_id run Hid Hsize.
  assert (Hconv : Dmrecon.to_size_t view_id = view_id + 2 ^ 64).
  { unfold Dmrecon.to_size_t. symmetry.
    apply (Z.mod_unique view_id (2 ^ 64) (-1) (view_id + 2 ^ 64)).
    - left. change (2 ^ 64) with 18446744073709551616. lia.
    - lia. }
  unfold Dmrecon.batch_job. rewrite Hconv.
  destruct (Dmrecon.views_size (Dmrecon.scene_of run) <=? view_id + 2 ^ 64)
    eqn:E; [reflexivity|].
  apply Z.leb_gt in E.
  change (2 ^ 63) with 9223372036854775808 in Hsize.
  change (2 ^ 64) with 18446744073709551616 in E. lia.
Qed.

(** X13. In batch mode [main] returns 0 and every entry of the view id list
    gets one round of the loop, in order; the reconstruction is called once
    for each round that is not skipped, with [refViewNr] set to the id of
    that round, and for no other. *)
Theorem reconstruct_once_per_job :
  forall conf scene,
    Dmrecon.master_id conf < 0 ->
    exists run,
      Dmrecon.main logf DMRecon save_mve_file conf (Some scene) = (0, Some run)
      /\ map fst (Dmrecon.outcomes run)
         = rev (map Dmrecon.to_size_t (Dmrecon.batch_ids conf scene))
      /\ map Dmrecon.refViewNr (Dmrecon.recon_calls run)
         = map fst (filter job_ran (Dmrecon.outcomes run)).
Proof.
  intros conf scene Hmaster. unfold Dmrecon.main.
  destruct (0 <=? Dmrecon.master_id conf) eqn:E;
    [apply Z.leb_le in E; lia|].
  eexists. split; [reflexivity|]. split.
  - rewrite batch_loop_outcomes. apply app_nil_r.
  - apply batch_loop_calls. reflexivity.
Qed.

(** X14. A scene in which no view has a valid camera is left as it was
    loaded by the batch mode: every job is skipped and the reconstruction
    is never called, with or without [force_recon]. *)
Theorem scene_without_cameras_untouched :
  forall conf scene,
    Dmrecon.master_id conf < 0 ->
    (forall id, Dmrecon.camera_valid_at scene id = false) ->
    Dmrecon.main logf DMRecon save_mve_file conf (Some scene)
    = (0, Some {| Dmrecon.scene_of := scene;
                  Dmrecon.recon_calls := [];
                  Dmrecon.outcomes :=
                    rev (map (fun id => (Dmrecon.to_size_t id, Dmrecon.SKIPPED))
                           (Dmrecon.batch_ids conf scene)) |}).
Proof.
  intros conf scene Hmaster Hcam. unfold Dmrecon.main.
  destruct (0 <=? Dmrecon.master_id conf) eqn:E;
    [apply Z.leb_le in E; lia|].
  rewrite batch_loop_no_camera by exact Hcam.
  cbn [Dmrecon.scene_of Dmrecon.recon_calls Dmrecon.outcomes].
  rewrite app_nil_r. reflexivity.
Qed.

End BatchInvariants.

Lemma negative_view_id_witness :
  let conf := scenario_conf (-1) false in
  Dmrecon.batch_job logf_sample always_returns (fun _ _ => true)
    conf (-1) scenario_start
  = {| Dmrecon.scene_of := Dmrecon.scene_of scenario_start;
       Dmrecon.recon_calls := Dmrecon.recon_calls scenario_start;
       Dmrecon.outcomes :=
         (-1 + 2 ^ 64, Dmrecon.SKIPPED)
         :: Dmrecon.outcomes scenario_start |}.
Proof.
  cbv zeta. apply negative_view_id_is_skipped.
  - lia.
  - vm_compute. reflexivity.
Defined.

Lemma reconstruct_once_per_job_witness :
  exists run,
    Dmrecon.main logf_sample always_returns (fun _ _ => true)
      (scenario_conf (-1) true) (Some scenario_views) = (0, Some run)
    /\ map fst (Dmrecon.outcomes run)
       = rev (map Dmrecon.to_size_t
                (Dmrecon.batch_ids (scenario_conf (-1) true) scenario_views))
    /\ map Dmrecon.refViewNr (Dmrecon.recon_calls run)
       = map fst (filter job_ran (Dmrecon.outcomes run)).
Proof.
  apply reconstruct_once_per_job. simpl. lia.
Defined.

Lemma scene_without_cameras_witness :
  let scene := [None; Some {| Dmrecon.is_camera_valid := false;
                              Dmrecon.proxies := [] |}] in
  let conf := scenario_conf (-1) true in
  Dmrecon.main logf_sample always_returns (fun _ _ => true)
    conf (Some scene)
  = (0, Some {| Dmrecon.scene_of := scene;
                Dmrecon.recon_calls := [];
                Dmrecon.outcomes :=
                  rev (map (fun id => (Dmrecon.to_size_t id, Dmrecon.SKIPPED))
                         (Dmrecon.batch_ids conf scene)) |}).
Proof.
  cbv zeta. apply scene_without_cameras_untouched.
  - simpl. lia.
  - intros id. unfold Dmrecon.camera_valid_at, Dmrecon.views_at.
    destruct (Z.to_nat id) as [|[|[|n]]]; reflexivity.
Defined.

Lemma scale_depends_on_budget logf scene conf conf' settings :
  Dmrecon.max_pixels conf' = Dmrecon.max_pixels conf ->
  Dmrecon.get_scale_from_max_pixels logf scene conf' settings
  = Dmrecon.get_scale_from_max_pixels logf scene conf settings.
Proof.
  intros H. unfold Dmrecon.get_scale_from_max_pixels. rewrite H. reflexivity.
Qed.

(** X15. In the master-view mode the scale is derived before [refViewNr] is
    set to the master view, so it is the scale of the view that the
    configured [refViewNr] names: the settings handed to the reconstruction
    name the master view, their scale is the same for every master view,
    and they are those of the batch job of the master view when the
    configured [refViewNr] already is the master view. *)
Theorem master_mode_settings :
  forall logf conf scene,
    0 <= Dmrecon.master_id conf < 2147483648 ->
    Dmrecon.refViewNr (Dmrecon.master_settings logf conf scene)
    = Dmrecon.master_id conf
    /\ (forall conf',
          Dmrecon.mvs conf' = Dmrecon.mvs conf ->
          Dmrecon.max_pixels conf' = Dmrecon.max_pixels conf ->
          Dmrecon.scale (Dmrecon.master_settings logf conf' scene)
          = Dmrecon.scale (Dmrecon.master_settings logf conf scene))
    /\ (Dmrecon.refViewNr (Dmrecon.mvs conf) = Dmrecon.master_id conf ->
        Dmrecon.master_settings logf conf scene
        = Dmrecon.job_settings logf conf scene (Dmrecon.master_id conf)).
Proof.
  intros logf conf scene Hid.
  assert (Hconv : Dmrecon.to_size_t (Dmrecon.master_id conf)
                  = Dmrecon.master_id conf).
  { unfold Dmrecon.to_size_t. apply Z.mod_small.
    change (2 ^ 64) with 18446744073709551616. lia. }
  split; [|split].
  - unfold Dmrecon.master_settings. cbn [Dmrecon.set_refViewNr Dmrecon.refViewNr].
    exact Hconv.
  - intros conf' Hmvs Hmp. unfold Dmrecon.master_settings.
    rewrite Hmvs, Hmp.
    rewrite (@scale_depends_on_budget logf scene conf conf' (Dmrecon.mvs conf) Hmp).
    reflexivity.
  - intros Href. unfold Dmrecon.master_settings, Dmrecon.job_settings.
    rewrite Hconv.
    assert (Hset : Dmrecon.set_refViewNr (Dmrecon.mvs conf)
                     (Dmrecon.master_id conf) = Dmrecon.mvs conf).
    { rewrite <- Href. destruct (Dmrecon.mvs conf). reflexivity. }
    rewrite Hset.
    destruct (0 <? Dmrecon.max_pixels conf).
    + unfold Dmrecon.set_refViewNr, Dmrecon.set_scale.
      cbn [Dmrecon.refViewNr Dmrecon.imageEmbedding Dmrecon.scale].
      rewrite Href. reflexivity.
    + exact Hset.
Qed.

Lemma master_mode_settings_witness :
  let conf := scenario_conf 0 false in
  Dmrecon.refViewNr (Dmrecon.master_settings logf_sample conf scenario_views)
  = Dmrecon.master_id conf
  /\ (forall conf',
        Dmrecon.mvs conf' = Dmrecon.mvs conf ->
        Dmrecon.max_pixels conf' = Dmrecon.max_pixels conf ->
        Dmrecon.scale (Dmrecon.master_settings logf_sample conf' scenario_views)
        = Dmrecon.scale (Dmrecon.master_settings logf_sample conf scenario_views))
  /\ (Dmrecon.refViewNr (Dmrecon.mvs conf) = Dmrecon.master_id conf ->
      Dmrecon.master_settings logf_sample conf scenario_views
      = Dmrecon.job_settings logf_sample conf scenario_views (Dmrecon.master_id conf)).
Proof.
  cbv zeta. apply master_mode_settings. simpl. lia.
Defined.
